(** * Decision-tree induction over 28x28 images: a shallow embedding of
      [dectree.c] and the properties of its functions.

    Integers of the C program ([int], [unsigned char]) are modelled as [Z];
    every counter of the program is bounded by the subset size [M], itself an
    [int], so no wrap-around takes place.  The C [double] is the binary64
    format: it is modelled by Rocq's primitive floats, whose operations are
    the IEEE 754 ones (round to nearest even, one not-a-number).  An index
    array and its length [M] travel together as one [list Z]. *)

From Stdlib Require Import ZArith List Bool Lia Floats Uint63 Reals Lra.
Import ListNotations.
Open Scope Z_scope.

(** ** Constants of [dectree.h] *)

Definition double : Set := float.

Definition NAN : double := nan.
Definition INFINITY : double := infinity.

(** [#define THRESHOLD_RATIO 0.95]: the binary64 number nearest to 0.95. *)
Definition THRESHOLD_RATIO : double := 0x1.e666666666666p-1%float.

Definition WIDTH : Z := 28.
Definition NUM_PIXELS : Z := WIDTH * WIDTH.

(** Conversion [(double) n] of an [int]. *)
Definition double_of_int (n : Z) : double :=
  if n <? 0 then PrimFloat.opp (PrimFloat.of_uint63 (Uint63.of_Z (- n)))
  else PrimFloat.of_uint63 (Uint63.of_Z n).

(** ** Data model *)

Record Image : Set := mkImage {
  sx : Z;
  sy : Z;
  data : list Z
}.

Record Dataset : Set := mkDataset {
  num_items : Z;
  images : list Image;
  labels : list Z
}.

(** A node of the tree, with the four fields of [struct dt_node]; a child
    pointer is [None] when it is [NULL]. *)
#[warnings="-register-all"]
Inductive DTNode : Set :=
| mkDTNode (pixel classification : Z) (left right : option DTNode).

Definition node_pixel (n : DTNode) : Z :=
  match n with mkDTNode p _ _ _ => p end.
Definition node_classification (n : DTNode) : Z :=
  match n with mkDTNode _ c _ _ => c end.
Definition node_left (n : DTNode) : option DTNode :=
  match n with mkDTNode _ _ l _ => l end.
Definition node_right (n : DTNode) : option DTNode :=
  match n with mkDTNode _ _ _ r => r end.

(** Array reads.  A read outside an array has no defined value in C; the
    model returns 0 there and the theorems that depend on the content of an
    array assume the indices in range. *)
Definition no_image : Image := mkImage 0 0 [].

(** [data->images[img_idx].data[pixel]] *)
Definition intensity (d : Dataset) (img_idx pixel : Z) : Z :=
  nth (Z.to_nat pixel) (data (nth (Z.to_nat img_idx) (images d) no_image)) 0.

(** [data->labels[img_idx]] *)
Definition label_of (d : Dataset) (img_idx : Z) : Z :=
  nth (Z.to_nat img_idx) (labels d) 0.

(** [freq[k]++] on an array of counters (no slot is touched when [k] is
    not an index of the array). *)
Fixpoint bump (k : nat) (freq : list Z) : list Z :=
  match freq with
  | [] => []
  | x :: rest =>
      match k with
      | O => (x + 1) :: rest
      | S k' => x :: bump k' rest
      end
  end.

(** [int freq[10] = {0}] *)
Definition zeros10 : list Z := repeat 0 10.

(** The subset size [M]. *)
Definition size_of (indices : list Z) : Z := Z.of_nat (length indices).

(** ** [gini_impurity] *)

Record tally : Set := mkTally {
  a_freq : list Z;
  a_count : Z;
  b_freq : list Z;
  b_count : Z
}.

Definition tally0 : tally := mkTally zeros10 0 zeros10 0.

(** Body of the first loop. *)
Definition tally_step (d : Dataset) (pixel : Z) (t : tally) (img_idx : Z) : tally :=
  if intensity d img_idx pixel <? 128
  then mkTally (bump (Z.to_nat (label_of d img_idx)) (a_freq t)) (a_count t + 1)
               (b_freq t) (b_count t)
  else mkTally (a_freq t) (a_count t)
               (bump (Z.to_nat (label_of d img_idx)) (b_freq t)) (b_count t + 1).

Definition tally_groups (d : Dataset) (indices : list Z) (pixel : Z) : tally :=
  fold_left (tally_step d pixel) indices tally0.

(** The summand [x_i * (1 - x_i)] with [x_i = (double) freq[i] / (double) count]. *)
Definition gini_term (freq : list Z) (count : Z) (i : nat) : double :=
  let x_i := PrimFloat.div (double_of_int (nth i freq 0)) (double_of_int count) in
  (x_i * (1 - x_i))%float.

(** Body of the second loop, on the pair [(a_gini, b_gini)]. *)
Definition gini_step (t : tally) (g : double * double) (i : nat) : double * double :=
  ((fst g + gini_term (a_freq t) (a_count t) i)%float,
   (snd g + gini_term (b_freq t) (b_count t) i)%float).

Definition gini_sums (t : tally) : double * double :=
  fold_left (gini_step t) (seq 0 10) (0%float, 0%float).

Definition gini_impurity (d : Dataset) (indices : list Z) (pixel : Z) : double :=
  let t := tally_groups d indices pixel in
  let g := gini_sums t in
  ((fst g * double_of_int (a_count t) + snd g * double_of_int (b_count t))
   / double_of_int (size_of indices))%float.

(** ** [get_most_frequent] *)

Definition label_frequencies (d : Dataset) (indices : list Z) : list Z :=
  fold_left (fun fr img_index => bump (Z.to_nat (label_of d img_index)) fr)
            indices zeros10.

(** Body of the second loop, on the pair [( *label, *freq )]. *)
Definition vote_step (frequencies : list Z) (st : Z * Z) (k : nat) : Z * Z :=
  let (label, freq) := st in
  let f := nth k frequencies 0 in
  if f >? freq then (Z.of_nat k, f)
  else if f =? freq then
         (if Z.of_nat k <? label then (Z.of_nat k, f) else st)
       else st.

(** Returns [( *label, *freq )]. *)
Definition get_most_frequent (d : Dataset) (indices : list Z) : Z * Z :=
  fold_left (vote_step (label_frequencies d indices)) (seq 0 10) (-1, -1).

(** ** [find_best_split] *)

(** The local [int best_split;] has no initialiser: it holds no defined value
    ([None]) until the first assignment. *)
Definition split_state : Set := (double * option Z)%type.

(** The guard [pixel_impurity != NAN] of both branches. *)
Definition differs_from_NAN (x : double) : bool := negb (x =? NAN)%float.

(** Body of the loop; [None] when the body reads [best_split] before any
    assignment to it. *)
Definition split_step (d : Dataset) (indices : list Z)
           (st : option split_state) (i : nat) : option split_state :=
  match st with
  | None => None
  | Some (min_impurity, best_split) =>
      let pixel_impurity := gini_impurity d indices (Z.of_nat i) in
      if (pixel_impurity <? min_impurity)%float && differs_from_NAN pixel_impurity
      then Some (pixel_impurity, Some (Z.of_nat i))
      else if (pixel_impurity =? min_impurity)%float && differs_from_NAN pixel_impurity
           then match best_split with
                | None => None
                | Some b =>
                    if Z.of_nat i <? b then Some (pixel_impurity, Some (Z.of_nat i))
                    else Some (min_impurity, best_split)
                end
           else Some (min_impurity, best_split)
  end.

Definition split_scan (d : Dataset) (indices : list Z) (pixels : list nat)
  : option split_state :=
  fold_left (split_step d indices) pixels (Some (INFINITY, None)).

(** [None]: the value returned is that of the unassigned [best_split]. *)
Definition find_best_split (d : Dataset) (indices : list Z) : option Z :=
  match split_scan d indices (seq 0 784) with
  | Some (_, Some b) => Some b
  | _ => None
  end.

(** ** [split_data] *)

(** First loop: the sizes, added to the incoming [*left_size], [*right_size]. *)
Definition size_step (d : Dataset) (pixel : Z) (s : Z * Z) (index : Z) : Z * Z :=
  if intensity d index pixel <? 128 then (fst s + 1, snd s) else (fst s, snd s + 1).

(** Second loop: [subsets[0]] and [subsets[1]] are filled from slot 0 on. *)
Definition fill_step (d : Dataset) (pixel : Z) (s : list Z * list Z) (index : Z)
  : list Z * list Z :=
  if intensity d index pixel <? 128 then (fst s ++ [index], snd s)
  else (fst s, snd s ++ [index]).

(** Returns [(subsets[0], subsets[1], *left_size, *right_size)]. *)
Definition split_data (d : Dataset) (indices : list Z) (pixel : Z)
           (left_size right_size : Z) : list Z * list Z * Z * Z :=
  let sizes := fold_left (size_step d pixel) indices (left_size, right_size) in
  let subsets := fold_left (fill_step d pixel) indices ([], []) in
  (fst subsets, snd subsets, fst sizes, snd sizes).

(** ** [build_subtree] and [build_dec_tree] *)

Inductive outcome (A : Type) : Type :=
| Done (a : A)
| Undefined
| OutOfFuel.
Arguments Done {A} a.
Arguments Undefined {A}.
Arguments OutOfFuel {A}.

(** The test [((double) *freq / (double) M) >= THRESHOLD_RATIO]. *)
Definition reaches_threshold (freq M : Z) : bool :=
  (THRESHOLD_RATIO <=? double_of_int freq / double_of_int M)%float.

(** The recursion of the C function is bounded by [fuel]; [Undefined] when
    the pixel to split on is the unassigned [best_split]. *)
Fixpoint build_subtree (fuel : nat) (d : Dataset) (indices : list Z)
  : outcome DTNode :=
  match fuel with
  | O => OutOfFuel
  | S fuel' =>
      let (label, freq) := get_most_frequent d indices in
      if reaches_threshold freq (size_of indices)
      then Done (mkDTNode (-1) label None None)
      else
        match find_best_split d indices with
        | None => Undefined
        | Some pixel_split =>
            match split_data d indices pixel_split 0 0 with
            | (subsets0, subsets1, _, _) =>
                match build_subtree fuel' d subsets0 with
                | Done l =>
                    match build_subtree fuel' d subsets1 with
                    | Done r => Done (mkDTNode pixel_split (-1) (Some l) (Some r))
                    | Undefined => Undefined
                    | OutOfFuel => OutOfFuel
                    end
                | Undefined => Undefined
                | OutOfFuel => OutOfFuel
                end
            end
        end
  end.

(** [indices[i] = i] for [i < M]. *)
Definition all_indices (d : Dataset) : list Z :=
  map Z.of_nat (seq 0 (Z.to_nat (num_items d))).

Definition build_dec_tree (fuel : nat) (d : Dataset) : outcome DTNode :=
  build_subtree fuel d (all_indices d).

(** ** [dec_tree_classify] and [free_dec_tree] *)

(** [(img->data)[pixel]] *)
Definition image_pixel (img : Image) (pixel : Z) : Z :=
  nth (Z.to_nat pixel) (data img) 0.

(** The test [root->classification != -1] of both walks. *)
Definition leaf_test (n : DTNode) : bool := negb (node_classification n =? -1).

(** [None] when the walk follows a [NULL] child. *)
Fixpoint dec_tree_classify (root : DTNode) (img : Image) : option Z :=
  match root with
  | mkDTNode pixel classification left_child right_child =>
      if negb (classification =? -1) then Some classification
      else if image_pixel img pixel =? 0
           then match left_child with
                | Some l => dec_tree_classify l img
                | None => None
                end
           else match right_child with
                | Some r => dec_tree_classify r img
                | None => None
                end
  end.

(** The number of nodes released; [None] when the walk follows a [NULL]
    child. *)
Fixpoint free_dec_tree (node : DTNode) : option nat :=
  match node with
  | mkDTNode _ classification left_child right_child =>
      if negb (classification =? -1) then Some 1%nat
      else match left_child, right_child with
           | Some l, Some r =>
               match free_dec_tree l, free_dec_tree r with
               | Some nl, Some nr => Some (S (nl + nr))
               | _, _ => None
               end
           | _, _ => None
           end
  end.

(** ** Sample datasets *)

Definition blank : Image := mkImage 28 28 (repeat 0 784).
Definition lit (p : nat) (v : Z) : Image :=
  mkImage 28 28 (repeat 0 p ++ [v] ++ repeat 0 (783 - p)).

(** Two identical images with different labels. *)
Definition twins : Dataset := mkDataset 2 [blank; blank] [0; 1].

(** Two images of label 0 with pixel 0 dark, two of label 1 with pixel 0 lit. *)
Definition quad : Dataset :=
  mkDataset 4 [blank; blank; lit 0 255; lit 0 255] [0; 0; 1; 1].


(** One image with pixel 0 dark and label 1; three with pixel 0 lit and
    labels 0, 1, 1. *)
Definition mixed : Dataset :=
  mkDataset 4 [blank; lit 0 255; lit 0 255; lit 0 255] [1; 0; 1; 1].

(** ** [build_subtree] when the unassigned [best_split] holds a value *)

(** Body of the loop of [find_best_split] on a machine, where [best_split]
    always holds some [int]. *)
Definition split_step_raw (d : Dataset) (indices : list Z)
           (st : double * Z) (i : nat) : double * Z :=
  let (min_impurity, best_split) := st in
  let pixel_impurity := gini_impurity d indices (Z.of_nat i) in
  if (pixel_impurity <? min_impurity)%float && differs_from_NAN pixel_impurity
  then (pixel_impurity, Z.of_nat i)
  else if (pixel_impurity =? min_impurity)%float && differs_from_NAN pixel_impurity
       then if Z.of_nat i <? best_split then (pixel_impurity, Z.of_nat i)
            else (min_impurity, best_split)
       else (min_impurity, best_split).

(** [find_best_split] when the memory of [best_split] holds [garbage] at
    its declaration. *)
Definition find_best_split_raw (garbage : Z) (d : Dataset) (indices : list Z) : Z :=
  snd (fold_left (split_step_raw d indices) (seq 0 784) (INFINITY, garbage)).

(** The call of [build_subtree] on the subset returns the node, in a run in
    which each unassigned [best_split] holds one of the 784 pixels (any other
    value makes [split_data] read outside the image).  A call that recurses
    without end returns no node. *)
Inductive build_subtree_returns (d : Dataset) : list Z -> DTNode -> Prop :=
| returns_leaf indices label freq :
    get_most_frequent d indices = (label, freq) ->
    reaches_threshold freq (size_of indices) = true ->
    build_subtree_returns d indices (mkDTNode (-1) label None None)
| returns_split indices label freq garbage pixel_split
                subsets0 subsets1 left_size right_size l r :
    get_most_frequent d indices = (label, freq) ->
    reaches_threshold freq (size_of indices) = false ->
    0 <= garbage < 784 ->
    pixel_split = find_best_split_raw garbage d indices ->
    split_data d indices pixel_split 0 0 = (subsets0, subsets1, left_size, right_size) ->
    build_subtree_returns d subsets0 l ->
    build_subtree_returns d subsets1 r ->
    build_subtree_returns d indices (mkDTNode pixel_split (-1) (Some l) (Some r)).

(** ** [main], once the two files are loaded *)

(** Body of the loop over the test images; [None] when the classification
    follows a [NULL] child. *)
Definition count_step (root : DTNode) (testing : Dataset)
           (total_correct : option Z) (i : nat) : option Z :=
  match total_correct with
  | None => None
  | Some total =>
      match dec_tree_classify root (nth i (images testing) no_image) with
      | None => None
      | Some predicted_label =>
          let real_label := label_of testing (Z.of_nat i) in
          Some (if predicted_label =? real_label then total + 1 else total)
      end
  end.

(** The number printed, for a tree already built. *)
Definition count_correct (root : DTNode) (testing : Dataset) : option Z :=
  fold_left (count_step root testing)
            (seq 0 (Z.to_nat (num_items testing))) (Some 0).

(** The number [main] prints for the two datasets. *)
Definition main_total (fuel : nat) (training_data testing_data : Dataset)
  : outcome Z :=
  match build_dec_tree fuel training_data with
  | Done training_root =>
      match count_correct training_root testing_data with
      | Some total_correct => Done total_correct
      | None => Undefined
      end
  | Undefined => Undefined
  | OutOfFuel => OutOfFuel
  end.

(** ** [load_dataset] *)

(** [fread] of [n] bytes at the current position of the file: the bytes
    read and the rest of the file.  The result of [fread] is not looked at
    by [load_dataset]: when fewer than [n] bytes are left the buffer is
    filled in part only, which is [None] here. *)
Definition fread (n : nat) (file : list Z) : option (list Z * list Z) :=
  if (n <=? length file)%nat then Some (firstn n file, skipn n file) else None.

(** The [int] that four bytes hold, least significant byte first, in two's
    complement. *)
Definition int_of_bytes (b : list Z) : Z :=
  let u := nth 0 b 0 + 256 * nth 1 b 0 + 65536 * nth 2 b 0 + 16777216 * nth 3 b 0 in
  if u <? 2147483648 then u else u - 4294967296.

(** The loop over the examples: the label, then the pixels of the image. *)
Fixpoint load_items (n : nat) (file : list Z) : option (list Image * list Z) :=
  match n with
  | O => Some ([], [])
  | S n' =>
      match fread 1 file with
      | None => None
      | Some (label, rest) =>
          match fread (Z.to_nat NUM_PIXELS) rest with
          | None => None
          | Some (pixels, rest') =>
              match load_items n' rest' with
              | None => None
              | Some (imgs, lbls) =>
                  Some (mkImage WIDTH WIDTH pixels :: imgs, nth 0 label 0 :: lbls)
              end
          end
      end
  end.

(** [file] is the content of the file, [None] when it cannot be opened
    ([fread] is then called on [NULL]). *)
Definition load_dataset (file : option (list Z)) : option Dataset :=
  match file with
  | None => None
  | Some bytes =>
      match fread 4 bytes with
      | None => None
      | Some (total_images, rest) =>
          match load_items (Z.to_nat (int_of_bytes total_images)) rest with
          | None => None
          | Some (imgs, lbls) => Some (mkDataset (int_of_bytes total_images) imgs lbls)
          end
      end
  end.
(** * Specification-level notions *)

(** How many indices of the subset carry a label stored in slot [k]. *)
Definition slot_count (d : Dataset) (indices : list Z) (k : nat) : Z :=
  Z.of_nat (length (filter (fun i => Nat.eqb (Z.to_nat (label_of d i)) k) indices)).

Definition below (d : Dataset) (pixel : Z) (index : Z) : bool :=
  intensity d index pixel <? 128.

Definition group_A (d : Dataset) (indices : list Z) (pixel : Z) : list Z :=
  filter (below d pixel) indices.

Definition group_B (d : Dataset) (indices : list Z) (pixel : Z) : list Z :=
  filter (fun i => negb (below d pixel i)) indices.

(** [l] keeps some of the elements of [m], in the order they have in [m]. *)
Inductive subsequence : list Z -> list Z -> Prop :=
| sub_nil : subsequence [] []
| sub_skip x l m : subsequence l m -> subsequence l (x :: m)
| sub_keep x l m : subsequence l m -> subsequence (x :: l) (x :: m).

(** How many indices of the subset carry the label [l]. *)
Definition label_count (d : Dataset) (indices : list Z) (l : Z) : Z :=
  Z.of_nat (count_occ Z.eq_dec (map (label_of d) indices) l).

(** State of the voting loop once the labels below [n] have been seen. *)
Definition vote_inv (fr : list Z) (n : nat) (st : Z * Z) : Prop :=
  0 <= fst st < Z.of_nat n /\
  snd st = nth (Z.to_nat (fst st)) fr 0 /\
  (forall k, (k < n)%nat -> nth k fr 0 <= snd st) /\
  (forall k, Z.of_nat k < fst st -> nth k fr 0 < snd st).

Definition rank (x : spec_float) : Z * Z * Z :=
  match x with
  | S754_nan => (0, 0, 0)
  | S754_zero _ => (0, 0, 0)
  | S754_infinity s => (if s then -2 else 2, 0, 0)
  | S754_finite s m e => if s then (-1, - e, Zneg m) else (1, e, Zpos m)
  end.

Definition lexcmp (a b : Z * Z * Z) : comparison :=
  match fst (fst a) ?= fst (fst b) with
  | Eq => match snd (fst a) ?= snd (fst b) with
          | Eq => snd a ?= snd b
          | c => c
          end
  | c => c
  end.

Definition lexlt (a b : Z * Z * Z) : Prop :=
  fst (fst a) < fst (fst b) \/
  (fst (fst a) = fst (fst b) /\
   (snd (fst a) < snd (fst b) \/ (snd (fst a) = snd (fst b) /\ snd a < snd b))).

(** Keys of the numbers, in the order of the comparisons. *)
Definition fkey (x : double) : Z * Z * Z := rank (Prim2SF x).

(** The impurity of the pixel [i] on a subset. *)
Definition impurity_at (d : Dataset) (indices : list Z) (i : nat) : double :=
  gini_impurity d indices (Z.of_nat i).

(** State of the scan once the pixels below [n] have been seen. *)
Definition scan_inv (d : Dataset) (indices : list Z) (n : nat)
           (st : option split_state) : Prop :=
  match st with
  | None => True
  | Some (m, None) =>
      m = INFINITY /\ forall i, (i < n)%nat -> is_nan (impurity_at d indices i) = true
  | Some (m, Some b) =>
      exists k, b = Z.of_nat k /\ (k < n)%nat /\ m = impurity_at d indices k /\
                is_nan (impurity_at d indices k) = false /\
                (forall i, (i < n)%nat -> (impurity_at d indices i <? impurity_at d indices k)%float = false) /\
                (forall i, (i < k)%nat -> (impurity_at d indices i =? impurity_at d indices k)%float = false)
  end.

(** The nodes of a tree: its root and the nodes of its children. *)
Fixpoint nodes (t : DTNode) : list DTNode :=
  match t with
  | mkDTNode _ _ left_child right_child =>
      t :: (match left_child with Some l => nodes l | None => [] end)
        ++ (match right_child with Some r => nodes r | None => [] end)
  end.

(** The two shapes of a node. *)
Definition leaf_shape (n : DTNode) : Prop :=
  node_pixel n = -1 /\ 0 <= node_classification n <= 9 /\
  node_left n = None /\ node_right n = None.

Definition split_shape (d : Dataset) (n : DTNode) : Prop :=
  node_classification n = -1 /\
  (exists subset, find_best_split d subset = Some (node_pixel n)) /\
  0 <= node_pixel n < 784 /\
  node_left n <> None /\ node_right n <> None.

(** ** The impurity in terms of the two groups *)

(** The share of the label [k] in a group, in double precision. *)
Definition share (d : Dataset) (group : list Z) (k : nat) : double :=
  PrimFloat.div (double_of_int (label_count d group (Z.of_nat k)))
                (double_of_int (size_of group)).

(** The sum the second loop computes for one group: the shares [x] of the
    ten labels enter as [x * (1 - x)]. *)
Definition group_impurity (d : Dataset) (group : list Z) : double :=
  fold_left (fun g k => (g + share d group k * (1 - share d group k))%float)
            (seq 0 10) 0%float.

Definition weighted (d : Dataset) (indices : list Z) (pixel : Z)
           (impurity : list Z -> double) : double :=
  ((impurity (group_A d indices pixel) * double_of_int (size_of (group_A d indices pixel))
    + impurity (group_B d indices pixel) * double_of_int (size_of (group_B d indices pixel)))
   / double_of_int (size_of indices))%float.

(** The share of the label [k] in a group, as a real number. *)
Definition exact_share (d : Dataset) (group : list Z) (k : nat) : R :=
  (IZR (label_count d group (Z.of_nat k)) / IZR (size_of group))%R.

Definition sumR (l : list R) : R := fold_right Rplus 0%R l.

Definition sumZ (l : list Z) : Z := fold_right Z.add 0 l.

(** The impurity of a group in the words of the specification, in exact
    arithmetic: one minus the sum of the squares of the shares. *)
Definition exact_group_impurity (d : Dataset) (group : list Z) : R :=
  (1 - sumR (map (fun k => (exact_share d group k * exact_share d group k)%R)
                 (seq 0 10)))%R.

(** The size-weighted average of the impurities of the two groups, in exact
    arithmetic. *)
Definition exact_gini_impurity (d : Dataset) (indices : list Z) (pixel : Z) : R :=
  ((exact_group_impurity d (group_A d indices pixel)
    * IZR (size_of (group_A d indices pixel))
    + exact_group_impurity d (group_B d indices pixel)
      * IZR (size_of (group_B d indices pixel)))
   / IZR (size_of indices))%R.

(** * Real values of doubles *)

(** Powers of two, as real numbers. *)
Definition bpow (e : Z) : R := powerRZ 2 e.

(** The real number [m * 2^e]. *)
Definition F2R (m e : Z) : R := (IZR m * bpow e)%R.

Definition Rcmp (x y : R) (c : comparison) : Prop :=
  match c with
  | Lt => (x < y)%R
  | Eq => x = y
  | Gt => (y < x)%R
  end.

(** The real [x] lies in the slot of width [2^e] that starts at [m * 2^e],
    at the place the location tells. *)
Definition in_loc (x : R) (m e : Z) (l : location) : Prop :=
  match l with
  | loc_Exact => x = F2R m e
  | loc_Inexact c =>
      (F2R m e < x < F2R (m + 1) e)%R /\ Rcmp x (F2R m e + bpow e / 2)%R c
  end.

Abbreviation fexp64 := (SpecFloat.fexp prec emax).

(** [f] is the zero of sign [s] and [y] is 0, or [f] is a finite number of
    sign [s] and [y] is its absolute value. *)
Definition has_value (s : bool) (f : spec_float) (y : R) : Prop :=
  (f = S754_zero s /\ y = 0%R) \/
  (exists m e, f = S754_finite s m e /\ y = F2R (Zpos m) e).

(** The double [f] is +0 or a positive finite number, and [y] is its value. *)
Definition nonneg_double (f : double) (y : R) : Prop :=
  has_value false (Prim2SF f) y.

(** * Further notions *)

(** Any two examples of the subset with different labels differ at some
    pixel in the side of 128 their intensity lies on. *)
Definition separable (d : Dataset) (indices : list Z) : Prop :=
  forall i j, In i indices -> In j indices -> label_of d i <> label_of d j ->
    exists p, 0 <= p < 784 /\ below d p i <> below d p j.

(** The example [i] of [d] is given its own label by the tree. *)
Definition hit (d : Dataset) (t : DTNode) (i : Z) : bool :=
  match dec_tree_classify t (nth (Z.to_nat i) (images d) no_image) with
  | Some c => c =? label_of d i
  | None => false
  end.

Definition hits (d : Dataset) (t : DTNode) (indices : list Z) : Z :=
  size_of (filter (hit d t) indices).

(** Every intensity read is 0 or at least 128. *)
Definition binarized (d : Dataset) (indices : list Z) : Prop :=
  forall i p, In i indices -> 0 <= p < 784 ->
    intensity d i p = 0 \/ 128 <= intensity d i p.

(** The file format of the comment above [load_dataset]. *)
Definition bytes_of_int (n : Z) : list Z :=
  [n mod 256; (n / 256) mod 256; (n / 65536) mod 256; (n / 16777216) mod 256].

Fixpoint encode_items (imgs : list Image) (lbls : list Z) : list Z :=
  match imgs, lbls with
  | img :: imgs', l :: lbls' => l :: data img ++ encode_items imgs' lbls'
  | _, _ => []
  end.

Definition encode_dataset (d : Dataset) : list Z :=
  bytes_of_int (num_items d) ++ encode_items (images d) (labels d).

(** A dataset as [load_dataset] is meant to return it. *)
Definition well_formed (d : Dataset) : Prop :=
  0 <= num_items d <= 2147483647 /\
  length (images d) = Z.to_nat (num_items d) /\
  length (labels d) = Z.to_nat (num_items d) /\
  (forall img, In img (images d) ->
     sx img = 28 /\ sy img = 28 /\ length (data img) = 784%nat /\
     forall v, In v (data img) -> 0 <= v <= 255) /\
  (forall l, In l (labels d) -> 0 <= l <= 9).

(** The two scans agree as long as the first one reads no unassigned
    variable. *)
Definition scan_agrees (garbage : Z) (st : option split_state) (raw : double * Z) : Prop :=
  match st with
  | None => True
  | Some (m, None) => raw = (m, garbage)
  | Some (m, Some b) => raw = (m, b)
  end.
(** * Properties *)

(** ** Counter arrays *)

Lemma bump_length (k : nat) (freq : list Z) : length (bump k freq) = length freq.
Proof.
  revert k; induction freq as [|x rest IH]; intros [|k]; simpl; auto.
Qed.

Lemma nth_bump (k j : nat) (freq : list Z) :
  nth j (bump k freq) 0 =
  nth j freq 0 + (if (Nat.eqb j k && Nat.ltb k (length freq))%bool then 1 else 0).
Proof.
  revert k j; induction freq as [|x rest IH]; intros k j.
  - destruct j, k; simpl; rewrite ?andb_false_r; reflexivity.
  - destruct k as [|k], j as [|j]; simpl.
    + lia.
    + lia.
    + lia.
    + rewrite IH. reflexivity.
Qed.

Lemma slot_count_nonneg d indices k : 0 <= slot_count d indices k.
Proof. unfold slot_count; lia. Qed.

Lemma slot_count_cons d i indices k :
  slot_count d (i :: indices) k =
  (if Nat.eqb (Z.to_nat (label_of d i)) k then 1 else 0) + slot_count d indices k.
Proof.
  unfold slot_count. cbn [filter].
  destruct (Nat.eqb (Z.to_nat (label_of d i)) k); cbn [length]; lia.
Qed.

Lemma fold_bump_length d indices fr :
  length (fold_left (fun fr i => bump (Z.to_nat (label_of d i)) fr) indices fr)
  = length fr.
Proof.
  revert fr; induction indices as [|i rest IH]; intros fr; simpl; auto.
  rewrite IH. apply bump_length.
Qed.

Lemma fold_bump_nth d indices fr k :
  (k < length fr)%nat ->
  nth k (fold_left (fun fr i => bump (Z.to_nat (label_of d i)) fr) indices fr) 0
  = nth k fr 0 + slot_count d indices k.
Proof.
  revert fr; induction indices as [|i rest IH]; intros fr Hk; simpl.
  - unfold slot_count; simpl; lia.
  - rewrite IH by (rewrite bump_length; exact Hk).
    rewrite nth_bump, slot_count_cons.
    rewrite (Nat.eqb_sym k).
    destruct (Nat.eqb (Z.to_nat (label_of d i)) k) eqn:E; cbn [andb].
    + apply Nat.eqb_eq in E. subst k.
      apply Nat.ltb_lt in Hk. rewrite Hk. lia.
    + lia.
Qed.

Lemma nth_zeros10 k : nth k zeros10 0 = 0.
Proof.
  unfold zeros10. do 11 (destruct k as [|k]; [reflexivity|]). reflexivity.
Qed.

Lemma label_frequencies_nth d indices k :
  (k < 10)%nat -> nth k (label_frequencies d indices) 0 = slot_count d indices k.
Proof.
  intros Hk. unfold label_frequencies.
  rewrite fold_bump_nth by exact Hk. rewrite nth_zeros10. lia.
Qed.

(** ** The two groups of a subset at a pixel *)

Lemma groups_length d indices pixel :
  (length (group_A d indices pixel) + length (group_B d indices pixel)
   = length indices)%nat.
Proof.
  unfold group_A, group_B.
  induction indices as [|i rest IH]; simpl; auto.
  destruct (below d pixel i); simpl; lia.
Qed.

Lemma tally_step_lengths d pixel t i :
  length (a_freq (tally_step d pixel t i)) = length (a_freq t) /\
  length (b_freq (tally_step d pixel t i)) = length (b_freq t).
Proof.
  unfold tally_step.
  destruct (intensity d i pixel <? 128); cbn [a_freq b_freq];
    rewrite ?bump_length; auto.
Qed.

Lemma tally_fold_lengths d pixel indices t :
  length (a_freq (fold_left (tally_step d pixel) indices t)) = length (a_freq t) /\
  length (b_freq (fold_left (tally_step d pixel) indices t)) = length (b_freq t).
Proof.
  revert t; induction indices as [|i rest IH]; intros t; cbn [fold_left]; auto.
  destruct (IH (tally_step d pixel t i)) as [-> ->]. apply tally_step_lengths.
Qed.

Lemma tally_fold_counts d pixel indices t :
  a_count (fold_left (tally_step d pixel) indices t) = a_count t + size_of (group_A d indices pixel) /\
  b_count (fold_left (tally_step d pixel) indices t) = b_count t + size_of (group_B d indices pixel).
Proof.
  revert t; induction indices as [|i rest IH]; intros t; cbn [fold_left].
  - unfold size_of; cbn; lia.
  - destruct (IH (tally_step d pixel t i)) as [-> ->].
    unfold tally_step, group_A, group_B, below, size_of. cbn [filter].
    destruct (intensity d i pixel <? 128); cbn [negb a_count b_count length]; lia.
Qed.

Lemma tally_fold_freqs d pixel indices t k :
  (k < length (a_freq t))%nat -> (k < length (b_freq t))%nat ->
  nth k (a_freq (fold_left (tally_step d pixel) indices t)) 0
    = nth k (a_freq t) 0 + slot_count d (group_A d indices pixel) k /\
  nth k (b_freq (fold_left (tally_step d pixel) indices t)) 0
    = nth k (b_freq t) 0 + slot_count d (group_B d indices pixel) k.
Proof.
  revert t; induction indices as [|i rest IH]; intros t Ha Hb; cbn [fold_left].
  - unfold slot_count; cbn; lia.
  - destruct (tally_step_lengths d pixel t i) as [La Lb].
    destruct (IH (tally_step d pixel t i)) as [-> ->]; try lia.
    unfold tally_step, group_A, group_B, below. cbn [filter].
    destruct (intensity d i pixel <? 128); cbn [negb a_freq b_freq];
      rewrite nth_bump, slot_count_cons, (Nat.eqb_sym k);
      (destruct (Nat.eqb (Z.to_nat (label_of d i)) k) eqn:E; cbn [andb];
       [ apply Nat.eqb_eq in E; subst k;
         match goal with H : (_ < length ?l)%nat |- context [Nat.ltb _ (length ?l)] =>
           apply Nat.ltb_lt in H; rewrite H end; lia
       | lia ]).
Qed.

Lemma tally_groups_spec d indices pixel :
  a_count (tally_groups d indices pixel) = size_of (group_A d indices pixel) /\
  b_count (tally_groups d indices pixel) = size_of (group_B d indices pixel) /\
  (forall k, (k < 10)%nat ->
     nth k (a_freq (tally_groups d indices pixel)) 0
     = slot_count d (group_A d indices pixel) k) /\
  (forall k, (k < 10)%nat ->
     nth k (b_freq (tally_groups d indices pixel)) 0
     = slot_count d (group_B d indices pixel) k).
Proof.
  unfold tally_groups.
  destruct (tally_fold_counts d pixel indices tally0) as [C1 C2].
  repeat split.
  - rewrite C1. cbn. lia.
  - rewrite C2. cbn. lia.
  - intros k Hk.
    destruct (tally_fold_freqs d pixel indices tally0 k) as [F _]; try exact Hk.
    rewrite F. cbn [tally0 a_freq]. rewrite nth_zeros10. lia.
  - intros k Hk.
    destruct (tally_fold_freqs d pixel indices tally0 k) as [_ F]; try exact Hk.
    rewrite F. cbn [tally0 b_freq]. rewrite nth_zeros10. lia.
Qed.

(** ** [split_data] *)

Lemma fill_fold d pixel indices l r :
  fold_left (fill_step d pixel) indices (l, r)
  = (l ++ group_A d indices pixel, r ++ group_B d indices pixel).
Proof.
  revert l r; induction indices as [|i rest IH]; intros l r; cbn [fold_left].
  - unfold group_A, group_B; cbn. now rewrite !app_nil_r.
  - unfold fill_step at 2. unfold group_A, group_B, below in *. cbn [filter fst snd].
    destruct (intensity d i pixel <? 128); cbn [negb]; rewrite IH;
      now rewrite <- ?app_assoc.
Qed.

Lemma size_fold d pixel indices a b :
  fold_left (size_step d pixel) indices (a, b)
  = (a + size_of (group_A d indices pixel), b + size_of (group_B d indices pixel)).
Proof.
  revert a b; induction indices as [|i rest IH]; intros a b; cbn [fold_left].
  - unfold size_of; cbn. f_equal; lia.
  - unfold size_step at 2. unfold group_A, group_B, below, size_of in *.
    cbn [filter fst snd].
    destruct (intensity d i pixel <? 128); cbn [negb length]; rewrite IH;
      f_equal; lia.
Qed.

Lemma split_data_eq d indices pixel ls rs :
  split_data d indices pixel ls rs
  = (group_A d indices pixel, group_B d indices pixel,
     ls + size_of (group_A d indices pixel), rs + size_of (group_B d indices pixel)).
Proof.
  unfold split_data. rewrite fill_fold, size_fold. reflexivity.
Qed.

Lemma filter_subsequence (f : Z -> bool) (m : list Z) : subsequence (filter f m) m.
Proof.
  induction m as [|x m IH]; cbn [filter].
  - constructor.
  - destruct (f x); now constructor.
Qed.

Lemma count_occ_groups d indices pixel i :
  count_occ Z.eq_dec indices i
  = (count_occ Z.eq_dec (group_A d indices pixel) i
     + count_occ Z.eq_dec (group_B d indices pixel) i)%nat.
Proof.
  unfold group_A, group_B.
  induction indices as [|x rest IH]; cbn [filter count_occ]; auto.
  destruct (below d pixel x); cbn [negb count_occ];
    destruct (Z.eq_dec x i); lia.
Qed.

Lemma in_group_A d indices pixel i :
  In i (group_A d indices pixel) <-> In i indices /\ intensity d i pixel < 128.
Proof.
  unfold group_A, below. rewrite filter_In, Z.ltb_lt. tauto.
Qed.

Lemma in_group_B d indices pixel i :
  In i (group_B d indices pixel) <-> In i indices /\ 128 <= intensity d i pixel.
Proof.
  unfold group_B, below. rewrite filter_In, negb_true_iff, Z.ltb_ge. tauto.
Qed.

(** C7. [split_data], called with both sizes at 0 as [build_subtree] does,
    returns as left group the indices of the subset whose intensity at the
    pixel is below 128 and as right group the others; the two sizes are the
    lengths of the groups and add up to [M]; each index of the subset occurs
    in exactly one group, as often as in the subset; each group lists its
    indices in the order of the subset. *)
Theorem split_data_partition (d : Dataset) (indices : list Z) (pixel : Z) :
  let '(subsets0, subsets1, left_size, right_size) := split_data d indices pixel 0 0 in
  (forall i, In i subsets0 <-> In i indices /\ intensity d i pixel < 128) /\
  (forall i, In i subsets1 <-> In i indices /\ 128 <= intensity d i pixel) /\
  left_size = size_of subsets0 /\ right_size = size_of subsets1 /\
  left_size + right_size = size_of indices /\
  (forall i, In i indices ->
     (In i subsets0 /\ ~ In i subsets1) \/ (In i subsets1 /\ ~ In i subsets0)) /\
  (forall i, count_occ Z.eq_dec indices i
             = (count_occ Z.eq_dec subsets0 i + count_occ Z.eq_dec subsets1 i)%nat) /\
  subsequence subsets0 indices /\ subsequence subsets1 indices.
Proof.
  rewrite split_data_eq.
  split; [intro; apply in_group_A|].
  split; [intro; apply in_group_B|].
  split; [lia|]. split; [lia|].
  split; [|split; [|split; [|split]]].
  - pose proof (groups_length d indices pixel). unfold size_of. lia.
  - intros i Hi. rewrite !in_group_A, !in_group_B.
    destruct (Z.lt_ge_cases (intensity d i pixel) 128); [left|right]; split; auto; lia.
  - apply count_occ_groups.
  - apply filter_subsequence.
  - apply filter_subsequence.
Qed.

(** ** [get_most_frequent] *)

Lemma slot_count_label_count d indices k :
  (forall i, In i indices -> 0 <= label_of d i) ->
  slot_count d indices k = label_count d indices (Z.of_nat k).
Proof.
  unfold slot_count, label_count. intros H. f_equal.
  induction indices as [|i rest IH]; cbn [filter map count_occ]; auto.
  assert (Hi : 0 <= label_of d i) by (apply H; now left).
  rewrite <- IH by (intros j Hj; apply H; now right).
  destruct (Nat.eqb (Z.to_nat (label_of d i)) k) eqn:E;
    destruct (Z.eq_dec (label_of d i) (Z.of_nat k)) as [e|e]; cbn [length]; auto.
  - apply Nat.eqb_eq in E. lia.
  - apply Nat.eqb_neq in E. lia.
Qed.

Lemma label_count_out_of_range d indices l :
  (forall i, In i indices -> 0 <= label_of d i <= 9) ->
  ~ (0 <= l <= 9) -> label_count d indices l = 0.
Proof.
  intros H Hl. unfold label_count.
  replace (count_occ Z.eq_dec (map (label_of d) indices) l) with 0%nat; auto.
  symmetry. apply count_occ_not_In. rewrite in_map_iff.
  intros (i & <- & Hi). apply Hl, H, Hi.
Qed.

Lemma vote_step_inv fr n st :
  0 <= nth n fr 0 ->
  (n = 0%nat /\ st = (-1, -1)) \/ vote_inv fr n st ->
  vote_inv fr (S n) (vote_step fr st n).
Proof.
  intros Hn [[-> ->] | (Hl & Hf & Hmax & Hmin)].
  - unfold vote_step.
    destruct (nth 0 fr 0 >? -1) eqn:E; [|lia].
    unfold vote_inv; cbn [fst snd]. repeat split; try lia.
    all: intros k Hk; try (replace k with 0%nat by lia); lia.
  - destruct st as [label freq]. cbn [fst snd] in *. unfold vote_step.
    destruct (nth n fr 0 >? freq) eqn:E1.
    + unfold vote_inv; cbn [fst snd]. rewrite Nat2Z.id.
      repeat split; try lia.
      * intros k Hk. destruct (Nat.eq_dec k n) as [->|]; [lia|].
        specialize (Hmax k). lia.
      * intros k Hk. specialize (Hmax k). lia.
    + destruct (nth n fr 0 =? freq) eqn:E2.
      * destruct (Z.of_nat n <? label) eqn:E3; [lia|].
        unfold vote_inv; cbn [fst snd]. repeat split; try lia; auto.
        intros k Hk. destruct (Nat.eq_dec k n) as [->|]; [lia|].
        apply Hmax. lia.
      * unfold vote_inv; cbn [fst snd]. repeat split; try lia; auto.
        intros k Hk. destruct (Nat.eq_dec k n) as [->|]; [lia|].
        apply Hmax. lia.
Qed.

Lemma vote_fold_inv fr n :
  (forall k, 0 <= nth k fr 0) ->
  vote_inv fr (S n) (fold_left (vote_step fr) (seq 0 (S n)) (-1, -1)).
Proof.
  intros Hfr. induction n as [|n IH].
  - cbn [seq fold_left]. apply vote_step_inv; auto.
  - rewrite seq_S, fold_left_app. cbn [fold_left Nat.add].
    apply vote_step_inv; auto.
Qed.

Lemma label_frequencies_nonneg d indices k : 0 <= nth k (label_frequencies d indices) 0.
Proof.
  destruct (Nat.lt_ge_cases k 10) as [Hk|Hk].
  - rewrite label_frequencies_nth by exact Hk. apply slot_count_nonneg.
  - rewrite nth_overflow; [lia|].
    unfold label_frequencies. rewrite fold_bump_length. exact Hk.
Qed.

Lemma get_most_frequent_inv d indices :
  vote_inv (label_frequencies d indices) 10 (get_most_frequent d indices).
Proof.
  unfold get_most_frequent. apply vote_fold_inv.
  intros k. apply label_frequencies_nonneg.
Qed.

(** The label stored is one of the ten labels, whatever the subset. *)
Lemma get_most_frequent_label_range d indices :
  0 <= fst (get_most_frequent d indices) <= 9.
Proof.
  destruct (get_most_frequent_inv d indices) as (H & _). lia.
Qed.

(** C8. On a subset whose labels are among the ten labels 0..9,
    [get_most_frequent] stores in [*freq] the largest number of occurrences
    of a label in the subset and in [*label] the smallest label that occurs
    that often. *)
Theorem get_most_frequent_spec (d : Dataset) (indices : list Z) :
  (forall i, In i indices -> 0 <= label_of d i <= 9) ->
  let label := fst (get_most_frequent d indices) in
  let freq := snd (get_most_frequent d indices) in
  0 <= label <= 9 /\
  freq = label_count d indices label /\
  (forall l, label_count d indices l <= freq) /\
  (forall l, 0 <= l < label -> label_count d indices l < freq).
Proof.
  intros Hwf label freq.
  assert (Hpos : forall i, In i indices -> 0 <= label_of d i)
    by (intros i Hi; apply Hwf in Hi; lia).
  destruct (get_most_frequent_inv d indices) as (Hl & Hf & Hmax & Hmin).
  fold label in Hl, Hf, Hmin. fold freq in Hf, Hmax, Hmin.
  assert (Hslot : forall k, (k < 10)%nat ->
            nth k (label_frequencies d indices) 0 = label_count d indices (Z.of_nat k)).
  { intros k Hk. rewrite label_frequencies_nth by exact Hk.
    now apply slot_count_label_count. }
  assert (Hfreq : freq = label_count d indices label).
  { rewrite Hf, Hslot by lia. f_equal. lia. }
  split; [lia|]. split; [exact Hfreq|]. split.
  - intros l. destruct (Z_le_dec 0 l) as [H0|H0]; [destruct (Z_le_dec l 9) as [H9|H9]|].
    + rewrite <- (Z2Nat.id l) by lia. rewrite <- Hslot by lia. apply Hmax. lia.
    + rewrite label_count_out_of_range; auto; try lia.
      rewrite Hfreq. unfold label_count. lia.
    + rewrite label_count_out_of_range; auto; try lia.
      rewrite Hfreq. unfold label_count. lia.
  - intros l Hlt. rewrite <- (Z2Nat.id l) by lia. rewrite <- Hslot by lia.
    apply Hmin. lia.
Qed.

(** ** [dec_tree_classify] *)

(** C9. [dec_tree_classify] returns the classification of a node whose
    classification is not -1; at any other node it continues in the left
    child exactly when the intensity of the image at the pixel of the node is
    0, and in the right child otherwise.  The test differs from the one of
    [split_data]: an intensity of 100 is below 128, so the image is put in the
    left group when the tree is built, and is sent to the right child when the
    image is classified. *)
Theorem dec_tree_classify_walk :
  (forall img pixel classification l r,
     classification <> -1 ->
     dec_tree_classify (mkDTNode pixel classification l r) img = Some classification) /\
  (forall img pixel l r,
     dec_tree_classify (mkDTNode pixel (-1) (Some l) (Some r)) img
     = if image_pixel img pixel =? 0
       then dec_tree_classify l img else dec_tree_classify r img) /\
  (forall img pixel l r,
     (image_pixel img pixel = 0 ->
      dec_tree_classify (mkDTNode pixel (-1) (Some l) (Some r)) img
      = dec_tree_classify l img) /\
     (image_pixel img pixel <> 0 ->
      dec_tree_classify (mkDTNode pixel (-1) (Some l) (Some r)) img
      = dec_tree_classify r img)) /\
  (let img := lit 0 100 in
   let d := mkDataset 1 [img] [0] in
   let root := mkDTNode 0 (-1) (Some (mkDTNode (-1) 0 None None))
                               (Some (mkDTNode (-1) 1 None None)) in
   split_data d [0] 0 0 0 = ([0], [], 1, 0) /\
   dec_tree_classify root img = Some 1).
Proof.
  assert (walk : forall img pixel l r,
     dec_tree_classify (mkDTNode pixel (-1) (Some l) (Some r)) img
     = if image_pixel img pixel =? 0
       then dec_tree_classify l img else dec_tree_classify r img).
  { intros img pixel l r. cbn [dec_tree_classify].
    change (-1 =? -1) with true. cbn [negb]. reflexivity. }
  split; [|split; [|split]].
  - intros img pixel classification l r Hc. cbn [dec_tree_classify].
    destruct (classification =? -1) eqn:E; [lia|reflexivity].
  - exact walk.
  - intros img pixel l r. rewrite walk. split; intros H.
    + rewrite H. reflexivity.
    + destruct (image_pixel img pixel =? 0) eqn:E; [lia|reflexivity].
  - split; vm_compute; reflexivity.
Qed.

Lemma Prim2SF_nan : Prim2SF nan = S754_nan.
Proof. reflexivity. Qed.

Lemma SFcompare_nan_r x : SFcompare x S754_nan = None.
Proof. destruct x; reflexivity. Qed.

Lemma differs_from_NAN_true x : differs_from_NAN x = true.
Proof.
  unfold differs_from_NAN, NAN. rewrite FloatAxioms.eqb_spec. unfold SFeqb.
  rewrite Prim2SF_nan, SFcompare_nan_r. reflexivity.
Qed.

Lemma SFcompare_rank x y :
  x <> S754_nan -> y <> S754_nan -> SFcompare x y = Some (lexcmp (rank x) (rank y)).
Proof.
  intros Hx Hy.
  destruct x as [sx|sx| |sx mx ex], y as [sy|sy| |sy my ey]; try congruence;
    try (destruct sx); try (destruct sy); try reflexivity.
  unfold SFcompare, rank, lexcmp; cbn [fst snd].
  change (-1 ?= -1) with Eq; cbv iota.
  rewrite Z.compare_opp, (Z.compare_antisym ex ey).
  destruct (ex ?= ey) eqn:E; cbn [CompOpp]; auto.
Qed.

Lemma lexcmp_Lt a b : lexcmp a b = Lt <-> lexlt a b.
Proof.
  unfold lexcmp, lexlt.
  destruct (Z.compare_spec (fst (fst a)) (fst (fst b)));
    destruct (Z.compare_spec (snd (fst a)) (snd (fst b)));
    destruct (Z.compare_spec (snd a) (snd b));
    split; intros; try discriminate; try reflexivity; try lia.
Qed.

Lemma lexcmp_Eq a b : lexcmp a b = Eq <-> a = b.
Proof.
  unfold lexcmp. destruct a as [[a1 a2] a3], b as [[b1 b2] b3]; cbn [fst snd].
  destruct (Z.compare_spec a1 b1); destruct (Z.compare_spec a2 b2);
    destruct (Z.compare_spec a3 b3);
    split; intros H'; try discriminate; try reflexivity;
      try (injection H'; intros; lia); subst; reflexivity.
Qed.

Lemma lexcmp_Gt a b : lexcmp a b = Gt <-> lexlt b a.
Proof.
  unfold lexcmp, lexlt.
  destruct (Z.compare_spec (fst (fst a)) (fst (fst b)));
    destruct (Z.compare_spec (snd (fst a)) (snd (fst b)));
    destruct (Z.compare_spec (snd a) (snd b));
    split; intros; try discriminate; try reflexivity; try lia.
Qed.

Lemma is_nan_spec x : is_nan x = true <-> Prim2SF x = S754_nan.
Proof.
  unfold is_nan. rewrite FloatAxioms.eqb_spec. unfold SFeqb.
  destruct (Prim2SF x) as [s|s| |s m e] eqn:E.
  - split; [destruct s; discriminate|discriminate].
  - split; [destruct s; discriminate|discriminate].
  - split; reflexivity.
  - rewrite SFcompare_rank by discriminate.
    replace (lexcmp _ _) with Eq by (symmetry; apply lexcmp_Eq; reflexivity).
    split; discriminate.
Qed.

Lemma is_nan_false x : is_nan x = false <-> Prim2SF x <> S754_nan.
Proof.
  rewrite <- is_nan_spec. destruct (is_nan x); split; congruence.
Qed.

Lemma SFcompare_key x y :
  SFcompare (Prim2SF x) (Prim2SF y)
  = if (is_nan x || is_nan y)%bool then None else Some (lexcmp (fkey x) (fkey y)).
Proof.
  destruct (is_nan x) eqn:Ex.
  - apply is_nan_spec in Ex. rewrite Ex. reflexivity.
  - destruct (is_nan y) eqn:Ey; cbn [orb].
    + apply is_nan_spec in Ey. rewrite Ey. apply SFcompare_nan_r.
    + apply is_nan_false in Ex, Ey. now apply SFcompare_rank.
Qed.

Lemma ltb_key x y :
  (x <? y)%float = true <->
  is_nan x = false /\ is_nan y = false /\ lexlt (fkey x) (fkey y).
Proof.
  rewrite FloatAxioms.ltb_spec. unfold SFltb. rewrite SFcompare_key, <- lexcmp_Lt.
  destruct (is_nan x), (is_nan y); cbn [orb];
    try (split; [discriminate|intros (? & ? & ?); discriminate]).
  destruct (lexcmp (fkey x) (fkey y)); split; try discriminate; auto;
    intros (_ & _ & H); discriminate.
Qed.

Lemma eqb_key x y :
  (x =? y)%float = true <->
  is_nan x = false /\ is_nan y = false /\ fkey x = fkey y.
Proof.
  rewrite FloatAxioms.eqb_spec. unfold SFeqb. rewrite SFcompare_key, <- lexcmp_Eq.
  destruct (is_nan x), (is_nan y); cbn [orb];
    try (split; [discriminate|intros (? & ? & ?); discriminate]).
  destruct (lexcmp (fkey x) (fkey y)); split; try discriminate; auto;
    intros (_ & _ & H); discriminate.
Qed.

Lemma leb_key x y :
  (x <=? y)%float = true <->
  is_nan x = false /\ is_nan y = false /\ ~ lexlt (fkey y) (fkey x).
Proof.
  rewrite FloatAxioms.leb_spec. unfold SFleb. rewrite SFcompare_key, <- lexcmp_Gt.
  destruct (is_nan x), (is_nan y); cbn [orb];
    try (split; [discriminate|intros (? & ? & ?); discriminate]).
  destruct (lexcmp (fkey x) (fkey y)); split; try discriminate; auto;
    try (intros _; repeat split; discriminate).
  intros (_ & _ & H). now contradiction H.
Qed.

Lemma fkey_below_infinity x :
  is_nan x = false -> lexlt (fkey x) (fkey INFINITY) \/ fkey x = fkey INFINITY.
Proof.
  rewrite is_nan_false. unfold fkey, INFINITY.
  change (Prim2SF infinity) with (S754_infinity false).
  destruct (Prim2SF x) as [s|s| |s m e]; intros H; try congruence;
    try destruct s; unfold lexlt; cbn; auto; left; lia.
Qed.

Lemma ltb_false_trans x y z :
  (x <? z)%float = false -> (y <? z)%float = true -> (x <? y)%float = false.
Proof.
  intros Hxz Hyz. destruct (x <? y)%float eqn:Hxy; auto.
  apply ltb_key in Hxy, Hyz.
  destruct Hxy as (Nx & Ny & Lxy), Hyz as (_ & Nz & Lyz).
  assert (H : (x <? z)%float = true).
  { apply ltb_key. repeat split; auto. unfold lexlt in *. lia. }
  congruence.
Qed.

Lemma eqb_false_below x y z :
  (x <? z)%float = false -> (y <? z)%float = true -> (x =? y)%float = false.
Proof.
  intros Hxz Hyz. destruct (x =? y)%float eqn:Hxy; auto.
  apply eqb_key in Hxy. apply ltb_key in Hyz.
  destruct Hxy as (Nx & Ny & Lxy), Hyz as (_ & Nz & Lyz).
  assert (H : (x <? z)%float = true).
  { apply ltb_key. repeat split; auto. rewrite Lxy. exact Lyz. }
  congruence.
Qed.

Lemma ltb_nan_l x y : is_nan x = true -> (x <? y)%float = false.
Proof.
  intros H. destruct (x <? y)%float eqn:E; auto.
  apply ltb_key in E. destruct E as (E & _). congruence.
Qed.

Lemma eqb_nan_l x y : is_nan x = true -> (x =? y)%float = false.
Proof.
  intros H. destruct (x =? y)%float eqn:E; auto.
  apply eqb_key in E. destruct E as (E & _). congruence.
Qed.

Lemma ltb_irrefl x : (x <? x)%float = false.
Proof.
  destruct (x <? x)%float eqn:E; auto.
  apply ltb_key in E. destruct E as (_ & _ & E). unfold lexlt in E. lia.
Qed.

Lemma split_step_inv d indices n st :
  scan_inv d indices n st -> scan_inv d indices (S n) (split_step d indices st n).
Proof.
  destruct st as [[m [b|]]|]; cbn [scan_inv split_step]; fold (impurity_at d indices n); auto.
  - intros (k & -> & Hk & -> & Hnan & Hmin & Hfirst).
    rewrite differs_from_NAN_true, !andb_true_r.
    destruct (impurity_at d indices n <? impurity_at d indices k)%float eqn:E1.
    + cbn [scan_inv]. exists n. repeat split; auto.
      * apply ltb_key in E1. tauto.
      * intros i Hi. destruct (Nat.eq_dec i n) as [->|]; [apply ltb_irrefl|].
        apply ltb_false_trans with (z := impurity_at d indices k); auto. apply Hmin. lia.
      * intros i Hi. apply eqb_false_below with (z := impurity_at d indices k); auto.
    + assert (Hkeep : scan_inv d indices (S n) (Some (impurity_at d indices k, Some (Z.of_nat k)))).
      { cbn [scan_inv]. exists k. repeat split; auto.
        intros i Hi. destruct (Nat.eq_dec i n) as [->|]; auto. apply Hmin. lia. }
      destruct (impurity_at d indices n =? impurity_at d indices k)%float; auto.
      destruct (Z.of_nat n <? Z.of_nat k) eqn:E3; auto. lia.
  - intros (-> & Hnan).
    rewrite differs_from_NAN_true, !andb_true_r.
    destruct (impurity_at d indices n <? INFINITY)%float eqn:E1.
    + cbn [scan_inv]. exists n. repeat split; auto.
      * apply ltb_key in E1. tauto.
      * intros i Hi. destruct (Nat.eq_dec i n) as [->|]; [apply ltb_irrefl|].
        apply ltb_nan_l, Hnan. lia.
      * intros i Hi. apply eqb_nan_l, Hnan. exact Hi.
    + destruct (impurity_at d indices n =? INFINITY)%float eqn:E2; cbn [scan_inv]; auto.
      split; auto. intros i Hi.
      destruct (Nat.eq_dec i n) as [->|]; [|apply Hnan; lia].
      destruct (is_nan (impurity_at d indices n)) eqn:E; auto.
      destruct (fkey_below_infinity _ E) as [H|H].
      * assert ((impurity_at d indices n <? INFINITY)%float = true)
          by (apply ltb_key; repeat split; auto).
        congruence.
      * assert ((impurity_at d indices n =? INFINITY)%float = true)
          by (apply eqb_key; repeat split; auto).
        congruence.
Qed.

Lemma split_scan_inv d indices n : scan_inv d indices n (split_scan d indices (seq 0 n)).
Proof.
  induction n as [|n IH].
  - cbn. split; auto. intros i Hi. lia.
  - unfold split_scan in *. rewrite seq_S, fold_left_app. cbn [fold_left Nat.add].
    now apply split_step_inv.
Qed.

(** While every pixel seen has a not-a-number impurity, nothing is assigned. *)
Lemma split_scan_all_nan d indices n :
  (forall i, (i < n)%nat -> is_nan (impurity_at d indices i) = true) ->
  split_scan d indices (seq 0 n) = Some (INFINITY, None).
Proof.
  intros H. induction n as [|n IH]; [reflexivity|].
  unfold split_scan in *. rewrite seq_S, fold_left_app. cbn [fold_left Nat.add].
  rewrite IH by (intros i Hi; apply H; lia).
  cbn [split_step].
  rewrite ltb_nan_l, eqb_nan_l by (apply H; lia). reflexivity.
Qed.

(** ** Not-a-number impurities *)

Lemma add_nan_l x : (nan + x)%float = nan.
Proof. apply Prim2SF_inj. rewrite FloatAxioms.add_spec. reflexivity. Qed.

Lemma add_nan_r x : (x + nan)%float = nan.
Proof.
  apply Prim2SF_inj. rewrite FloatAxioms.add_spec. change (Prim2SF nan) with S754_nan.
  destruct (Prim2SF x); reflexivity.
Qed.

Lemma mul_nan_l x : (nan * x)%float = nan.
Proof. apply Prim2SF_inj. rewrite FloatAxioms.mul_spec. reflexivity. Qed.

Lemma div_nan_l x : (nan / x)%float = nan.
Proof. apply Prim2SF_inj. rewrite FloatAxioms.div_spec. reflexivity. Qed.

Lemma gini_term_empty freq i : nth i freq 0 = 0 -> gini_term freq 0 i = nan.
Proof. intros H. unfold gini_term. rewrite H. reflexivity. Qed.

Lemma gini_sums_fst t l a b :
  fst (fold_left (gini_step t) l (a, b))
  = fold_left (fun g i => (g + gini_term (a_freq t) (a_count t) i)%float) l a.
Proof.
  revert a b; induction l as [|i l IH]; intros a b; cbn [fold_left]; auto.
  unfold gini_step at 2. cbn [fst snd]. apply IH.
Qed.

Lemma gini_sums_snd t l a b :
  snd (fold_left (gini_step t) l (a, b))
  = fold_left (fun g i => (g + gini_term (b_freq t) (b_count t) i)%float) l b.
Proof.
  revert a b; induction l as [|i l IH]; intros a b; cbn [fold_left]; auto.
  unfold gini_step at 2. cbn [fst snd]. apply IH.
Qed.

Lemma fold_add_nan (term : nat -> double) l a :
  l <> [] -> (forall i, In i l -> term i = nan) ->
  fold_left (fun g i => (g + term i)%float) l a = nan.
Proof.
  revert a; induction l as [|i l IH]; intros a Hl H; [congruence|].
  cbn [fold_left]. rewrite (H i) by now left. rewrite add_nan_r.
  destruct l as [|j l]; [reflexivity|].
  apply IH; [discriminate|]. intros k Hk. apply H. now right.
Qed.

Lemma slot_count_nil d k : slot_count d [] k = 0.
Proof. reflexivity. Qed.

(** When one of the two groups is empty, the impurity is
    the not-a-number. *)
Lemma gini_impurity_empty_group d indices pixel :
  group_A d indices pixel = [] \/ group_B d indices pixel = [] ->
  gini_impurity d indices pixel = NAN.
Proof.
  intros H. unfold gini_impurity, gini_sums.
  destruct (tally_groups_spec d indices pixel) as (Ca & Cb & Fa & Fb).
  rewrite gini_sums_fst, gini_sums_snd.
  destruct H as [H|H].
  - rewrite H in Ca, Fa. rewrite Ca. change (size_of []) with 0.
    rewrite fold_add_nan with (l := seq 0 10); [|discriminate|].
    + rewrite mul_nan_l, add_nan_l, div_nan_l. reflexivity.
    + intros i Hi. apply in_seq in Hi. apply gini_term_empty.
      rewrite Fa by lia. reflexivity.
  - rewrite H in Cb, Fb. rewrite Cb. change (size_of []) with 0.
    rewrite (fold_add_nan (gini_term (b_freq _) 0)); [|discriminate|].
    + rewrite mul_nan_l, add_nan_r, div_nan_l. reflexivity.
    + intros i Hi. apply in_seq in Hi. apply gini_term_empty.
      rewrite Fb by lia. reflexivity.
Qed.


(** ** [find_best_split] *)

Lemma is_nan_NAN : is_nan NAN = true.
Proof. reflexivity. Qed.

(** What a value returned by [find_best_split] satisfies: its impurity is
    defined, no pixel has a smaller impurity, and no pixel before it has the
    same impurity. *)
Lemma find_best_split_some d indices p :
  find_best_split d indices = Some p ->
  exists k, p = Z.of_nat k /\ (k < 784)%nat /\
    is_nan (impurity_at d indices k) = false /\
    (forall i, (i < 784)%nat ->
       (impurity_at d indices i <? impurity_at d indices k)%float = false) /\
    (forall i, (i < k)%nat ->
       (impurity_at d indices i =? impurity_at d indices k)%float = false).
Proof.
  unfold find_best_split. intros H.
  pose proof (split_scan_inv d indices 784) as Inv.
  destruct (split_scan d indices (seq 0 784)) as [[m [b|]]|]; try discriminate.
  injection H as ->. cbn [scan_inv] in Inv.
  destruct Inv as (k & -> & Hk & _ & Hnan & Hmin & Hfirst).
  exists k. auto.
Qed.

(** When every pixel has a not-a-number impurity, [best_split] is returned
    unassigned. *)
Lemma find_best_split_all_nan d indices :
  (forall i, (i < 784)%nat -> is_nan (impurity_at d indices i) = true) ->
  find_best_split d indices = None.
Proof.
  intros H. unfold find_best_split.
  rewrite split_scan_all_nan by exact H. reflexivity.
Qed.

Lemma find_best_split_range d indices p :
  find_best_split d indices = Some p -> 0 <= p < 784.
Proof.
  intros H. destruct (find_best_split_some _ _ _ H) as (k & -> & Hk & _). lia.
Qed.

Lemma find_best_split_defined d indices p :
  find_best_split d indices = Some p -> is_nan (gini_impurity d indices p) = false.
Proof.
  intros H. destruct (find_best_split_some _ _ _ H) as (k & -> & _ & Hnan & _).
  exact Hnan.
Qed.

(** A pixel returned by [find_best_split] leaves no side of the partition
    empty. *)
Lemma find_best_split_separates d indices p :
  find_best_split d indices = Some p ->
  group_A d indices p <> [] /\ group_B d indices p <> [].
Proof.
  intros H. apply find_best_split_defined in H.
  split; intros E;
    rewrite gini_impurity_empty_group in H by (auto); discriminate.
Qed.

Lemma find_best_split_nil d : find_best_split d [] = None.
Proof.
  apply find_best_split_all_nan. intros i _. unfold impurity_at.
  rewrite gini_impurity_empty_group by (left; reflexivity). reflexivity.
Qed.

Lemma groups_shorter d indices p :
  group_A d indices p <> [] -> group_B d indices p <> [] ->
  (0 < length (group_A d indices p) < length indices)%nat /\
  (0 < length (group_B d indices p) < length indices)%nat.
Proof.
  intros HA HB. pose proof (groups_length d indices p).
  destruct (group_A d indices p); [congruence|].
  destruct (group_B d indices p); [congruence|].
  cbn [length] in *. lia.
Qed.

(** ** [build_subtree] *)

(** One call of [build_subtree], as a function of the two recursive calls. *)
Lemma build_subtree_unfold fuel d indices :
  build_subtree (S fuel) d indices =
  if reaches_threshold (snd (get_most_frequent d indices)) (size_of indices)
  then Done (mkDTNode (-1) (fst (get_most_frequent d indices)) None None)
  else match find_best_split d indices with
       | None => Undefined
       | Some p =>
           match build_subtree fuel d (group_A d indices p) with
           | Done l =>
               match build_subtree fuel d (group_B d indices p) with
               | Done r => Done (mkDTNode p (-1) (Some l) (Some r))
               | Undefined => Undefined
               | OutOfFuel => OutOfFuel
               end
           | Undefined => Undefined
           | OutOfFuel => OutOfFuel
           end
       end.
Proof.
  cbn [build_subtree].
  destruct (get_most_frequent d indices) as [label freq]. cbn [fst snd].
  destruct (reaches_threshold freq (size_of indices)); [reflexivity|].
  destruct (find_best_split d indices) as [p|]; [|reflexivity].
  rewrite split_data_eq. reflexivity.
Qed.

(** More fuel does not change a result. *)
Lemma build_subtree_fuel fuel fuel' d indices t :
  (fuel <= fuel')%nat ->
  build_subtree fuel d indices = Done t -> build_subtree fuel' d indices = Done t.
Proof.
  revert fuel' indices t. induction fuel as [|fuel IH]; intros fuel' indices t Hle H.
  - discriminate.
  - destruct fuel' as [|fuel']; [lia|].
    rewrite build_subtree_unfold in *.
    destruct (reaches_threshold _ _); [exact H|].
    destruct (find_best_split d indices) as [p|]; [|discriminate].
    destruct (build_subtree fuel d (group_A d indices p)) as [l| |] eqn:El; try discriminate.
    destruct (build_subtree fuel d (group_B d indices p)) as [r| |] eqn:Er; try discriminate.
    rewrite (IH fuel' _ l) by (auto; lia).
    rewrite (IH fuel' _ r) by (auto; lia).
    exact H.
Qed.

(** The subsets of the recursive calls are non-empty and strictly smaller:
    a fuel of [M] is never used up. *)
Lemma build_subtree_depth d fuel indices :
  indices <> [] -> (length indices <= fuel)%nat ->
  build_subtree fuel d indices <> OutOfFuel.
Proof.
  revert indices. induction fuel as [|fuel IH]; intros indices Hne Hlen.
  - destruct indices; [congruence|cbn in Hlen; lia].
  - rewrite build_subtree_unfold.
    destruct (reaches_threshold _ _); [discriminate|].
    destruct (find_best_split d indices) as [p|] eqn:Ep; [|discriminate].
    destruct (find_best_split_separates _ _ _ Ep) as [HA HB].
    destruct (groups_shorter _ _ _ HA HB) as [LA LB].
    pose proof (IH _ HA) as IA. pose proof (IH _ HB) as IB.
    destruct (build_subtree fuel d (group_A d indices p)); try discriminate;
      [|apply IA; lia].
    destruct (build_subtree fuel d (group_B d indices p)); try discriminate.
    apply IB; lia.
Qed.

(** On an empty subset the ratio is 0/0 and no pixel has a defined impurity:
    no node comes out of the call. *)
Lemma get_most_frequent_nil d : get_most_frequent d [] = (0, 0).
Proof. reflexivity. Qed.

Lemma reaches_threshold_0_0 : reaches_threshold 0 0 = false.
Proof. reflexivity. Qed.

Lemma build_subtree_nil d fuel : build_subtree (S fuel) d [] = Undefined.
Proof.
  rewrite build_subtree_unfold, get_most_frequent_nil. cbn [fst snd].
  change (size_of []) with 0. rewrite reaches_threshold_0_0.
  rewrite find_best_split_nil. reflexivity.
Qed.

Lemma build_subtree_nil_never d fuel t : build_subtree fuel d [] <> Done t.
Proof.
  destruct fuel; [discriminate|]. rewrite build_subtree_nil. discriminate.
Qed.

(** One call.  A call of [build_subtree] on a subset of size [M] returns a leaf
    carrying the label of [get_most_frequent] when the count of that label
    divided by [M] (in double precision) is at least [THRESHOLD_RATIO]; in
    the other case the node it returns is a split node that holds the pixel
    returned by [find_best_split] and, as children, the nodes returned by
    the calls on the left and on the right subset of [split_data] at that
    pixel, and it returns such a node whenever these calls return. *)
Theorem build_subtree_step (d : Dataset) (indices : list Z) (fuel : nat) :
  indices <> [] ->
  let label := fst (get_most_frequent d indices) in
  let freq := snd (get_most_frequent d indices) in
  (reaches_threshold freq (size_of indices) = true ->
   build_subtree (S fuel) d indices = Done (mkDTNode (-1) label None None)) /\
  (reaches_threshold freq (size_of indices) = false ->
   forall t,
     build_subtree (S fuel) d indices = Done t <->
     exists pixel subsets0 subsets1 left_size right_size l r,
       find_best_split d indices = Some pixel /\
       split_data d indices pixel 0 0 = (subsets0, subsets1, left_size, right_size) /\
       build_subtree fuel d subsets0 = Done l /\
       build_subtree fuel d subsets1 = Done r /\
       t = mkDTNode pixel (-1) (Some l) (Some r)) /\
  (forall t, build_subtree (S fuel) d indices = Done t ->
     (leaf_test t = true <-> reaches_threshold freq (size_of indices) = true)).
Proof.
  intros _ label freq. subst label freq.
  rewrite build_subtree_unfold.
  destruct (reaches_threshold _ _) eqn:E.
  - split; [reflexivity|]. split; [discriminate|].
    intros t [= <-]. unfold leaf_test. cbn [node_classification].
    pose proof (get_most_frequent_label_range d indices).
    destruct (fst (get_most_frequent d indices) =? -1) eqn:E'; [lia|].
    split; reflexivity.
  - split; [discriminate|]. split.
    + intros _ t. split.
      * destruct (find_best_split d indices) as [p|]; [|discriminate].
        destruct (build_subtree fuel d (group_A d indices p)) as [l| |] eqn:El;
          try discriminate.
        destruct (build_subtree fuel d (group_B d indices p)) as [r| |] eqn:Er;
          try discriminate.
        intros [= <-].
        exists p, (group_A d indices p), (group_B d indices p),
          (0 + size_of (group_A d indices p)), (0 + size_of (group_B d indices p)), l, r.
        rewrite split_data_eq. auto.
      * intros (p & s0 & s1 & ls & rs & l & r & Hp & Hs & Hl & Hr & ->).
        rewrite split_data_eq in Hs. injection Hs as <- <- _ _.
        rewrite Hp, Hl, Hr. reflexivity.
    + intros t.
      destruct (find_best_split d indices) as [p|]; [|discriminate].
      destruct (build_subtree fuel d (group_A d indices p)) as [l| |]; try discriminate.
      destruct (build_subtree fuel d (group_B d indices p)) as [r| |]; try discriminate.
      intros [= <-]. unfold leaf_test. cbn [node_classification].
      change (negb (-1 =? -1)) with false. split; discriminate.
Qed.

(** ** Shape of the nodes *)

Lemma leaf_test_leaf_shape n : leaf_shape n -> leaf_test n = true.
Proof.
  intros (_ & Hc & _). unfold leaf_test.
  destruct (node_classification n =? -1) eqn:E; [lia|reflexivity].
Qed.

Lemma leaf_test_split_shape d n : split_shape d n -> leaf_test n = false.
Proof.
  intros (Hc & _). unfold leaf_test. rewrite Hc. reflexivity.
Qed.

Lemma build_subtree_nodes d fuel indices t :
  build_subtree fuel d indices = Done t ->
  forall n, In n (nodes t) -> leaf_shape n \/ split_shape d n.
Proof.
  revert indices t. induction fuel as [|fuel IH]; intros indices t H; [discriminate|].
  rewrite build_subtree_unfold in H.
  destruct (reaches_threshold _ _).
  - injection H as <-. intros n [<-|[]]. left.
    unfold leaf_shape. cbn [node_pixel node_classification node_left node_right].
    pose proof (get_most_frequent_label_range d indices).
    repeat split; auto; lia.
  - destruct (find_best_split d indices) as [p|] eqn:Ep; [|discriminate].
    destruct (build_subtree fuel d (group_A d indices p)) as [l| |] eqn:El;
      try discriminate.
    destruct (build_subtree fuel d (group_B d indices p)) as [r| |] eqn:Er;
      try discriminate.
    injection H as <-. intros n Hn. cbn [nodes] in Hn.
    destruct Hn as [<-|Hn].
    + right. unfold split_shape.
      cbn [node_pixel node_classification node_left node_right].
      pose proof (find_best_split_range _ _ _ Ep).
      repeat split; try lia; try discriminate. now exists indices.
    + apply in_app_or in Hn. destruct Hn as [Hn|Hn]; eauto.
Qed.

(** C10. Every node of a tree returned by [build_subtree] is either a leaf
    (pixel -1, a classification among 0..9, no child) or a split node
    (classification -1, a pixel returned by [find_best_split], hence among
    0..783, and two children), never both; on such a node the test
    [classification != -1] of [dec_tree_classify] and [free_dec_tree] holds
    exactly when the node has no child. *)
Theorem build_subtree_node_shapes (d : Dataset) (fuel : nat) (indices : list Z)
        (t : DTNode) :
  build_subtree fuel d indices = Done t ->
  forall n, In n (nodes t) ->
    ((leaf_shape n /\ ~ split_shape d n) \/ (split_shape d n /\ ~ leaf_shape n)) /\
    (leaf_test n = true <-> node_left n = None /\ node_right n = None).
Proof.
  intros H n Hn.
  destruct (build_subtree_nodes _ _ _ _ H n Hn) as [L|S].
  - split.
    + left. split; auto. intros (Hc & _). destruct L as (_ & Hr & _). lia.
    + rewrite (leaf_test_leaf_shape _ L). destruct L as (_ & _ & Hl & Hr).
      split; auto.
  - split.
    + right. split; auto. intros (_ & Hr & _). destruct S as (Hc & _). lia.
    + rewrite (leaf_test_split_shape _ _ S). destruct S as (_ & _ & _ & Hl & Hr).
      split; [discriminate|]. intros [E _]. congruence.
Qed.

(** ** The functions on sample datasets *)

Lemma quad_labels i : In i [0; 1; 2; 3] -> 0 <= label_of quad i <= 9.
Proof.
  intros [<-|[<-|[<-|[<-|[]]]]]; vm_compute; split; discriminate.
Qed.

Lemma build_quad :
  build_subtree 2 quad [0; 1; 2; 3]
  = Done (mkDTNode 0 (-1) (Some (mkDTNode (-1) 0 None None))
                          (Some (mkDTNode (-1) 1 None None))).
Proof. vm_compute. reflexivity. Qed.

Lemma build_subtree_step_witness :
  build_subtree 2 quad [0; 1; 2; 3]
  = Done (mkDTNode 0 (-1) (Some (mkDTNode (-1) 0 None None))
                          (Some (mkDTNode (-1) 1 None None))).
Proof.
  destruct (build_subtree_step quad [0; 1; 2; 3] 1) as (_ & Hsplit & _);
    [discriminate|].
  apply Hsplit; [vm_compute; reflexivity|].
  exists 0, [0; 1], [2; 3], 2, 2, (mkDTNode (-1) 0 None None), (mkDTNode (-1) 1 None None).
  repeat split; vm_compute; reflexivity.
Defined.

Lemma split_data_partition_witness :
  split_data quad [0; 1; 2; 3] 0 0 0 = ([0; 1], [2; 3], 2, 2) /\
  subsequence [0; 1] [0; 1; 2; 3] /\ subsequence [2; 3] [0; 1; 2; 3].
Proof.
  pose proof (split_data_partition quad [0; 1; 2; 3] 0) as H.
  change (split_data quad [0; 1; 2; 3] 0 0 0) with ([0; 1], [2; 3], 2, 2) in H.
  split; [reflexivity|]. apply H.
Defined.

Lemma get_most_frequent_spec_witness :
  get_most_frequent quad [0; 1; 2; 3] = (0, 2) /\
  label_count quad [0; 1; 2; 3] 1 <= 2.
Proof.
  split; [vm_compute; reflexivity|].
  apply (get_most_frequent_spec quad [0; 1; 2; 3] quad_labels).
Defined.

Lemma dec_tree_classify_walk_witness :
  dec_tree_classify
    (mkDTNode 0 (-1) (Some (mkDTNode (-1) 0 None None))
                     (Some (mkDTNode (-1) 1 None None))) (lit 0 255)
  = Some 1.
Proof.
  destruct dec_tree_classify_walk as (Hleaf & Hwalk & _).
  rewrite Hwalk. change (image_pixel (lit 0 255) 0 =? 0) with false. cbv iota.
  apply Hleaf. discriminate.
Defined.

Lemma build_subtree_node_shapes_witness :
  leaf_test (mkDTNode (-1) 1 None None) = true <->
  node_left (mkDTNode (-1) 1 None None) = None /\
  node_right (mkDTNode (-1) 1 None None) = None.
Proof.
  apply (build_subtree_node_shapes quad 2 [0; 1; 2; 3] _ build_quad).
  vm_compute. auto.
Defined.

(** *** Two identical images with different labels *)

Lemma twins_below p i : In i [0; 1] -> below twins p i = true.
Proof.
  intros Hi. unfold below, intensity, twins. cbn [images].
  assert (H : forall k, nth k (data blank) 0 = 0).
  { intros k. unfold blank. cbn [data].
    destruct (nth_in_or_default k (repeat 0 784) 0) as [H|H]; [|exact H].
    now apply repeat_spec in H. }
  destruct Hi as [<-|[<-|[]]].
  - change (nth (Z.to_nat 0) [blank; blank] no_image) with blank. now rewrite H.
  - change (nth (Z.to_nat 1) [blank; blank] no_image) with blank. now rewrite H.
Qed.

Lemma twins_groups p :
  group_A twins [0; 1] p = [0; 1] /\ group_B twins [0; 1] p = [].
Proof.
  unfold group_A, group_B. cbn [filter].
  rewrite !twins_below by (cbn; auto). split; reflexivity.
Qed.

Lemma twins_impurities p : gini_impurity twins [0; 1] p = NAN.
Proof.
  apply gini_impurity_empty_group. right. apply twins_groups.
Qed.

Lemma twins_find_best_split : find_best_split twins [0; 1] = None.
Proof.
  apply find_best_split_all_nan. intros i Hi. unfold impurity_at.
  rewrite twins_impurities. reflexivity.
Qed.

Lemma twins_build_subtree fuel : build_subtree (S fuel) twins [0; 1] = Undefined.
Proof.
  rewrite build_subtree_unfold.
  change (get_most_frequent twins [0; 1]) with (0, 1). cbn [fst snd].
  change (reaches_threshold 1 (size_of [0; 1])) with false. cbv iota.
  rewrite twins_find_best_split. reflexivity.
Qed.

(** C2 on the subset of the two identical images: each of the 784 pixels has
    a not-a-number impurity, the guard [!= NAN] accepts the not-a-number, and
    the value returned is that of the unassigned [best_split]. *)
Theorem find_best_split_twins :
  (forall p, 0 <= p < 784 -> is_nan (gini_impurity twins [0; 1] p) = true) /\
  differs_from_NAN NAN = true /\
  find_best_split twins [0; 1] = None.
Proof.
  split; [|split].
  - intros p Hp. rewrite twins_impurities. reflexivity.
  - reflexivity.
  - exact twins_find_best_split.
Qed.

(** C3 on the dataset of the two identical images: the most frequent label
    covers half of the subset, no pixel can be selected, and with any amount
    of fuel no tree is returned. *)
Theorem build_dec_tree_twins :
  get_most_frequent twins (all_indices twins) = (0, 1) /\
  reaches_threshold 1 2 = false /\
  find_best_split twins (all_indices twins) = None /\
  forall fuel, build_dec_tree (S fuel) twins = Undefined.
Proof.
  split; [reflexivity|]. split; [reflexivity|].
  split; [exact twins_find_best_split|].
  intros fuel. apply twins_build_subtree.
Qed.

(** ** The value of [gini_impurity] *)

Lemma fold_left_ext_in {A B : Type} (f g : A -> B -> A) (l : list B) (a : A) :
  (forall x y, In y l -> f x y = g x y) -> fold_left f l a = fold_left g l a.
Proof.
  revert a. induction l as [|y l IH]; intros a H; cbn [fold_left]; auto.
  rewrite H by now left. apply IH. intros x z Hz. apply H. now right.
Qed.

Lemma group_labels d indices pixel :
  (forall i, In i indices -> 0 <= label_of d i <= 9) ->
  (forall i, In i (group_A d indices pixel) -> 0 <= label_of d i) /\
  (forall i, In i (group_B d indices pixel) -> 0 <= label_of d i).
Proof.
  intros H. split; intros i Hi.
  - apply in_group_A in Hi. destruct Hi as [Hi _]. apply H in Hi. lia.
  - apply in_group_B in Hi. destruct Hi as [Hi _]. apply H in Hi. lia.
Qed.

(** The double returned, in terms of the two groups. *)
Lemma gini_impurity_groups d indices pixel :
  (forall i, In i indices -> 0 <= label_of d i <= 9) ->
  gini_impurity d indices pixel = weighted d indices pixel (group_impurity d).
Proof.
  intros Hwf. destruct (group_labels d indices pixel Hwf) as [HA HB].
  unfold gini_impurity, gini_sums, weighted, group_impurity.
  destruct (tally_groups_spec d indices pixel) as (Ca & Cb & Fa & Fb).
  rewrite gini_sums_fst, gini_sums_snd, Ca, Cb.
  rewrite (fold_left_ext_in
             (fun g i => (g + gini_term (a_freq (tally_groups d indices pixel))
                                        (size_of (group_A d indices pixel)) i)%float)
             (fun g k => (g + share d (group_A d indices pixel) k
                              * (1 - share d (group_A d indices pixel) k))%float)).
  rewrite (fold_left_ext_in
             (fun g i => (g + gini_term (b_freq (tally_groups d indices pixel))
                                        (size_of (group_B d indices pixel)) i)%float)
             (fun g k => (g + share d (group_B d indices pixel) k
                              * (1 - share d (group_B d indices pixel) k))%float)).
  - reflexivity.
  - intros x k Hk. apply in_seq in Hk. unfold gini_term, share.
    rewrite Fb by lia. rewrite slot_count_label_count by exact HB. reflexivity.
  - intros x k Hk. apply in_seq in Hk. unfold gini_term, share.
    rewrite Fa by lia. rewrite slot_count_label_count by exact HA. reflexivity.
Qed.

(** The ten counts of a group add up to its size. *)
Lemma label_count_cons d i group l :
  label_count d (i :: group) l
  = (if Z.eqb (label_of d i) l then 1 else 0) + label_count d group l.
Proof.
  unfold label_count. cbn [map count_occ].
  destruct (Z.eq_dec (label_of d i) l) as [e|e].
  - rewrite (proj2 (Z.eqb_eq _ _) e). lia.
  - rewrite (proj2 (Z.eqb_neq _ _) e). lia.
Qed.

Lemma label_counts_total d group :
  (forall i, In i group -> 0 <= label_of d i <= 9) ->
  sumZ (map (fun k => label_count d group (Z.of_nat k)) (seq 0 10)) = size_of group.
Proof.
  induction group as [|i group IH]; intros H; [reflexivity|].
  assert (Hi : 0 <= label_of d i <= 9) by (apply H; now left).
  specialize (IH (fun j Hj => H j (or_intror Hj))).
  unfold size_of in *. cbn [length]. rewrite Nat2Z.inj_succ, <- IH.
  cbn [seq map sumZ fold_right]. rewrite !label_count_cons.
  assert (C : label_of d i = 0 \/ label_of d i = 1 \/ label_of d i = 2 \/
              label_of d i = 3 \/ label_of d i = 4 \/ label_of d i = 5 \/
              label_of d i = 6 \/ label_of d i = 7 \/ label_of d i = 8 \/
              label_of d i = 9) by lia.
  repeat (destruct C as [C|C]); rewrite C; cbn [Z.eqb Z.of_nat Pos.of_succ_nat
    Pos.succ Pos.eqb]; lia.
Qed.

Lemma sumR_shares (c : nat -> Z) (n : Z) (l : list nat) :
  sumR (map (fun k => (IZR (c k) / IZR n)%R) l) = (IZR (sumZ (map c l)) / IZR n)%R.
Proof.
  induction l as [|k l IH]; cbn [map sumR sumZ fold_right].
  - unfold Rdiv. now rewrite Rmult_0_l.
  - fold (sumR (map (fun k => (IZR (c k) / IZR n)%R) l)). rewrite IH.
    fold (sumZ (map c l)). rewrite plus_IZR. unfold Rdiv. ring.
Qed.

Lemma sumR_gini (f : nat -> R) (l : list nat) :
  sumR (map (fun k => (f k * (1 - f k))%R) l)
  = (sumR (map f l) - sumR (map (fun k => (f k * f k)%R) l))%R.
Proof.
  induction l as [|k l IH]; cbn [map sumR fold_right].
  - ring.
  - fold (sumR (map (fun k => (f k * (1 - f k))%R) l)). rewrite IH.
    fold (sumR (map f l)). fold (sumR (map (fun k => (f k * f k)%R) l)). ring.
Qed.

(** In exact arithmetic the sum of [x * (1 - x)] over the shares of a
    non-empty group is one minus the sum of their squares. *)
Lemma exact_impurity d group :
  (forall i, In i group -> 0 <= label_of d i <= 9) -> group <> [] ->
  sumR (map (fun k => (exact_share d group k * (1 - exact_share d group k))%R)
            (seq 0 10))
  = (1 - sumR (map (fun k => (exact_share d group k * exact_share d group k)%R)
                   (seq 0 10)))%R.
Proof.
  intros Hwf Hne. rewrite sumR_gini. f_equal.
  unfold exact_share.
  rewrite (sumR_shares (fun k => label_count d group (Z.of_nat k))).
  rewrite label_counts_total by exact Hwf.
  apply Rinv_r. apply not_0_IZR. unfold size_of.
  destruct group; [congruence|]. cbn [length]. lia.
Qed.
(** ** Further sample facts *)

Lemma mixed_labels i : In i [0; 1; 2; 3] -> 0 <= label_of mixed i <= 9.
Proof.
  intros [<-|[<-|[<-|[<-|[]]]]]; vm_compute; split; discriminate.
Qed.

Lemma find_best_split_quad : find_best_split quad [0; 1; 2; 3] = Some 0.
Proof. vm_compute. reflexivity. Qed.

(** * Double-precision arithmetic *)

Lemma bpow_pos e : (0 < bpow e)%R.
Proof. unfold bpow. apply powerRZ_lt. lra. Qed.

Lemma bpow_add a b : bpow (a + b) = (bpow a * bpow b)%R.
Proof. unfold bpow. apply powerRZ_add. lra. Qed.

Lemma bpow_0 : bpow 0 = 1%R.
Proof. reflexivity. Qed.

Lemma bpow_1 : bpow 1 = 2%R.
Proof. unfold bpow, powerRZ. simpl. lra. Qed.

Lemma bpow_succ e : bpow (e + 1) = (2 * bpow e)%R.
Proof. rewrite bpow_add, bpow_1. lra. Qed.

Lemma bpow_IZR e : 0 <= e -> bpow e = IZR (2 ^ e).
Proof.
  intros H. unfold bpow. rewrite <- (Z2Nat.id e) by exact H.
  rewrite <- pow_powerRZ, <- pow_IZR. reflexivity.
Qed.

Lemma bpow_ge_1 e : 0 <= e -> (1 <= bpow e)%R.
Proof.
  intros H. rewrite bpow_IZR by exact H. apply IZR_le.
  pose proof (Z.pow_pos_nonneg 2 e). lia.
Qed.

Lemma bpow_le a b : a <= b -> (bpow a <= bpow b)%R.
Proof.
  intros H. replace b with (a + (b - a)) by lia. rewrite bpow_add.
  pose proof (bpow_ge_1 (b - a) ltac:(lia)). pose proof (bpow_pos a). nra.
Qed.

Lemma bpow_lt a b : a < b -> (bpow a < bpow b)%R.
Proof.
  intros H. replace b with (a + ((b - a - 1) + 1)) by lia.
  rewrite bpow_add, bpow_succ.
  pose proof (bpow_ge_1 (b - a - 1) ltac:(lia)). pose proof (bpow_pos a). nra.
Qed.

Lemma bpow_lt_inv a b : (bpow a < bpow b)%R -> a < b.
Proof.
  intros H. destruct (Z_lt_ge_dec a b) as [|G]; auto.
  apply Z.ge_le, bpow_le in G. lra.
Qed.

(** Number of binary digits. *)
Lemma digits2_size p : digits2_pos p = Pos.size p.
Proof. induction p; cbn; congruence. Qed.

Lemma digits2_bounds p :
  2 ^ (Zpos (digits2_pos p) - 1) <= Zpos p < 2 ^ Zpos (digits2_pos p).
Proof.
  rewrite digits2_size. split.
  - pose proof (Pos.size_le p) as H.
    assert (H' : (2 ^ Pos.size p <= 2 * p)%positive) by exact H.
    apply Pos2Z.pos_le_pos in H'. rewrite Pos2Z.inj_mul, Pos2Z.inj_pow in H'.
    replace (Zpos (Pos.size p)) with (Zpos (Pos.size p) - 1 + 1) in H' by lia.
    rewrite Z.pow_add_r in H' by lia. lia.
  - pose proof (Pos.size_gt p) as H. apply Pos2Z.pos_lt_pos in H.
    now rewrite Pos2Z.inj_pow in H.
Qed.

Lemma Zdigits2_nonneg m : 0 <= Zdigits2 m.
Proof. destruct m; cbn; lia. Qed.

Lemma Zdigits2_upper m : 0 <= m -> m + 1 <= 2 ^ Zdigits2 m.
Proof.
  destruct m as [|p|p]; intros H; cbn [Zdigits2]; try lia.
  pose proof (digits2_bounds p). lia.
Qed.

Lemma Zdigits2_lower m : 0 < m -> 2 ^ (Zdigits2 m - 1) <= m.
Proof.
  destruct m as [|p|p]; intros H; cbn [Zdigits2]; try lia.
  apply digits2_bounds.
Qed.

Lemma Zdigits2_le m k : 0 <= k -> 0 <= m < 2 ^ k -> Zdigits2 m <= k.
Proof.
  intros Hk [H0 H]. destruct (Z.eq_dec m 0) as [->|]; [cbn; lia|].
  pose proof (Zdigits2_lower m ltac:(lia)) as L.
  destruct (Z_le_gt_dec (Zdigits2 m) k) as [|G]; auto.
  assert (2 ^ k <= 2 ^ (Zdigits2 m - 1)) by (apply Z.pow_le_mono_r; lia).
  lia.
Qed.

Lemma F2R_upper m e : 0 <= m -> (F2R (m + 1) e <= bpow (Zdigits2 m + e))%R.
Proof.
  intros H. unfold F2R. rewrite bpow_add.
  rewrite (bpow_IZR (Zdigits2 m)) by apply Zdigits2_nonneg.
  apply Rmult_le_compat_r; [apply Rlt_le, bpow_pos|].
  apply IZR_le. now apply Zdigits2_upper.
Qed.

Lemma F2R_lower m e : 0 < m -> (bpow (Zdigits2 m - 1 + e) <= F2R m e)%R.
Proof.
  intros H. unfold F2R. rewrite bpow_add.
  assert (0 <= Zdigits2 m - 1).
  { destruct m; cbn [Zdigits2]; lia. }
  rewrite (bpow_IZR (Zdigits2 m - 1)) by assumption.
  apply Rmult_le_compat_r; [apply Rlt_le, bpow_pos|].
  apply IZR_le. now apply Zdigits2_lower.
Qed.

(** ** Locations *)

Lemma IZR_xO p : IZR (Zpos p~0) = (2 * IZR (Zpos p))%R.
Proof. rewrite Pos2Z.inj_xO, mult_IZR. reflexivity. Qed.

Lemma IZR_xI p : IZR (Zpos p~1) = (2 * IZR (Zpos p) + 1)%R.
Proof. rewrite Pos2Z.inj_xI, plus_IZR, mult_IZR. reflexivity. Qed.

Lemma shr_1_loc x m r s e :
  0 <= m ->
  in_loc x m e (loc_of_shr_record (Build_shr_record m r s)) ->
  in_loc x (shr_m (shr_1 (Build_shr_record m r s))) (e + 1)
         (loc_of_shr_record (shr_1 (Build_shr_record m r s))) /\
  0 <= shr_m (shr_1 (Build_shr_record m r s)).
Proof.
  intros Hm. pose proof (bpow_pos e) as Hb.
  destruct m as [|[p|p|]|p]; try lia;
    destruct r, s; cbn [shr_1 orb shr_m loc_of_shr_record in_loc Rcmp];
    unfold F2R; rewrite ?bpow_succ, ?plus_IZR;
    try rewrite (IZR_xO p); try rewrite (IZR_xI p);
    change (IZR 0) with 0%R; change (IZR 1) with 1%R;
    set (b := bpow e) in *;
    try (set (pb := (IZR (Zpos p) * b)%R));
    intros H; (split; [|lia]);
    try (replace (2 * IZR (Z.pos p) * b)%R with (2 * pb)%R in * by (unfold pb; ring));
    try (replace ((2 * IZR (Z.pos p) + 1) * b)%R with (2 * pb + b)%R in * by (unfold pb; ring));
    try (replace ((2 * IZR (Z.pos p) + 1 + 1) * b)%R with (2 * pb + 2 * b)%R in * by (unfold pb; ring));
    try (replace (IZR (Z.pos p) * (2 * b))%R with (2 * pb)%R by (unfold pb; ring));
    try (replace ((IZR (Z.pos p) + 1) * (2 * b))%R with (2 * pb + 2 * b)%R by (unfold pb; ring));
    try lra.
Qed.

Lemma shr_1_loc' x mrs e :
  0 <= shr_m mrs ->
  in_loc x (shr_m mrs) e (loc_of_shr_record mrs) ->
  in_loc x (shr_m (shr_1 mrs)) (e + 1) (loc_of_shr_record (shr_1 mrs)) /\
  0 <= shr_m (shr_1 mrs).
Proof. destruct mrs as [m r s]. apply shr_1_loc. Qed.

Lemma iter_shr_1_loc x p : forall mrs e,
  0 <= shr_m mrs ->
  in_loc x (shr_m mrs) e (loc_of_shr_record mrs) ->
  in_loc x (shr_m (SpecFloat.iter_pos shr_1 p mrs)) (e + Zpos p)
         (loc_of_shr_record (SpecFloat.iter_pos shr_1 p mrs)) /\
  0 <= shr_m (SpecFloat.iter_pos shr_1 p mrs).
Proof.
  induction p as [p IH|p IH|]; intros mrs e Hm H; cbn [SpecFloat.iter_pos].
  - destruct (shr_1_loc' x mrs e Hm H) as [H1 M1].
    destruct (IH _ _ M1 H1) as [H2 M2].
    destruct (IH _ _ M2 H2) as [H3 M3].
    replace (e + Zpos p~1) with (e + 1 + Zpos p + Zpos p) by lia. auto.
  - destruct (IH _ _ Hm H) as [H2 M2].
    destruct (IH _ _ M2 H2) as [H3 M3].
    replace (e + Zpos p~0) with (e + Zpos p + Zpos p) by lia. auto.
  - now apply shr_1_loc'.
Qed.

Lemma loc_of_shr_record_of_loc m l :
  loc_of_shr_record (shr_record_of_loc m l) = l /\
  shr_m (shr_record_of_loc m l) = m.
Proof. destruct l as [|[| |]]; split; reflexivity. Qed.

(** The first step of a rounding: the mantissa is cut down to the exponent
    of the format. *)
Lemma shr_fexp_loc x m e l :
  0 <= m -> in_loc x m e l ->
  in_loc x (shr_m (fst (shr_fexp prec emax m e l)))
         (snd (shr_fexp prec emax m e l))
         (loc_of_shr_record (fst (shr_fexp prec emax m e l))) /\
  0 <= shr_m (fst (shr_fexp prec emax m e l)) /\
  snd (shr_fexp prec emax m e l) = Z.max e (fexp64 (Zdigits2 m + e)) /\
  (fexp64 (Zdigits2 m + e) <= e ->
   loc_of_shr_record (fst (shr_fexp prec emax m e l)) = l).
Proof.
  intros Hm H. unfold shr_fexp, shr.
  destruct (loc_of_shr_record_of_loc m l) as [E1 E2].
  destruct (fexp64 (Zdigits2 m + e) - e) as [|p|p] eqn:En; cbn [fst snd].
  - rewrite E1, E2. repeat split; auto; lia.
  - destruct (iter_shr_1_loc x p (shr_record_of_loc m l) e) as [H1 M1].
    + rewrite E2. exact Hm.
    + rewrite E1, E2. exact H.
    + repeat split; auto; lia.
  - rewrite E1, E2. repeat split; auto; lia.
Qed.

Lemma round_nearest_even_loc x m e l :
  in_loc x m e l ->
  (Rabs (F2R (round_nearest_even m l) e - x) <= bpow e / 2)%R /\
  (round_nearest_even m l = m \/ round_nearest_even m l = m + 1) /\
  (l = loc_Exact -> F2R (round_nearest_even m l) e = x).
Proof.
  pose proof (bpow_pos e) as Hb.
  destruct l as [|c]; cbn [in_loc round_nearest_even].
  - intros ->. rewrite Rminus_diag, Rabs_R0. repeat split; auto. lra.
  - unfold F2R. rewrite plus_IZR. change (IZR 1) with 1%R.
    intros [[H1 H2] H3]. split; [|split; [|discriminate]].
    + destruct c; cbn [Rcmp] in H3.
      * destruct (Z.even m); rewrite ?plus_IZR; change (IZR 1) with 1%R;
          apply Rabs_le; lra.
      * apply Rabs_le; lra.
      * rewrite plus_IZR. change (IZR 1) with 1%R. apply Rabs_le; lra.
    + destruct c; auto. destruct (Z.even m); auto.
Qed.

(** ** Rounding *)

Lemma fexp64_eq e : fexp64 e = Z.max (e - 53) (-1074).
Proof. reflexivity. Qed.

Lemma in_loc_bounds x m e l :
  in_loc x m e l -> (F2R m e <= x < F2R (m + 1) e)%R.
Proof.
  pose proof (bpow_pos e).
  destruct l; cbn [in_loc]; unfold F2R; rewrite plus_IZR; change (IZR 1) with 1%R.
  - intros ->. lra.
  - intros [? _]. lra.
Qed.

Lemma binary_round_aux_spec sx mx ex lx x :
  0 <= mx -> in_loc x mx ex lx -> (x < bpow 970)%R -> ex < 970 ->
  exists y,
    has_value sx (binary_round_aux prec emax sx mx ex lx) y /\
    (Rabs (y - x) <= bpow (Z.max ex (fexp64 (Zdigits2 mx + ex))) / 2)%R /\
    (lx = loc_Exact -> fexp64 (Zdigits2 mx + ex) <= ex -> y = x).
Proof.
  intros Hm H Hx Hex. unfold binary_round_aux.
  destruct (shr_fexp_loc x mx ex lx Hm H) as (L1 & M1 & E1 & X1).
  destruct (shr_fexp prec emax mx ex lx) as [mrs1 e1]. cbn [fst snd] in *.
  destruct (round_nearest_even_loc x _ e1 _ L1) as (R1 & R2 & R3).
  set (m1 := shr_m mrs1) in *.
  set (m2 := round_nearest_even m1 (loc_of_shr_record mrs1)) in *.
  pose proof (in_loc_bounds _ _ _ _ H) as [B1 B2].
  pose proof (in_loc_bounds _ _ _ _ L1) as [B3 B4].
  pose proof (F2R_upper mx ex Hm) as B5.
  pose proof (Zdigits2_nonneg mx) as Hd.
  rewrite fexp64_eq in E1, X1 |- *.
  assert (Hm1 : m1 < 2 ^ 53).
  { apply lt_IZR. rewrite <- bpow_IZR by lia.
    assert (IZR m1 * bpow e1 < bpow (Zdigits2 mx + ex))%R by (unfold F2R in B3; lra).
    assert (bpow (Zdigits2 mx + ex) <= bpow 53 * bpow e1)%R.
    { rewrite <- bpow_add. apply bpow_le. lia. }
    pose proof (bpow_pos e1). nra. }
  assert (He1 : -1074 <= e1 <= 970).
  { split; [lia|].
    assert (Zdigits2 mx + ex - 53 <= 970); [|lia].
    destruct (Z.eq_dec mx 0) as [->|]; [cbn [Zdigits2]; lia|].
    pose proof (F2R_lower mx ex ltac:(lia)).
    assert (Zdigits2 mx - 1 + ex < 970) by (apply bpow_lt_inv; lra).
    lia. }
  exists (F2R m2 e1). split; [|split].
  - unfold shr_fexp, shr. cbn [shr_record_of_loc shr_m].
    destruct (Z.eq_dec m2 (2 ^ 53)) as [E|E].
    + rewrite E. change (Zdigits2 (2 ^ 53)) with 54. rewrite fexp64_eq.
      replace (Z.max (54 + e1 - 53) (-1074) - e1) with 1 by lia.
      cbn [SpecFloat.iter_pos shr_1 shr_m Z.pow Z.pow_pos Pos.iter Z.mul Pos.mul].
      replace (e1 + 1 <=? emax - prec) with true
        by (symmetry; apply Z.leb_le; change (emax - prec) with 971; lia).
      right. eexists _, _. split; [reflexivity|].
      unfold F2R. rewrite bpow_succ.
      change (IZR (2 ^ 53)) with (2 * IZR 4503599627370496)%R. ring.
    + assert (Hm2 : 0 <= m2 < 2 ^ 53) by (destruct R2 as [-> | ->]; lia).
      pose proof (Zdigits2_le m2 53 ltac:(lia) Hm2) as D2.
      rewrite fexp64_eq.
      destruct (Z.max (Zdigits2 m2 + e1 - 53) (-1074) - e1) as [|p|p] eqn:En;
        try lia; cbn [shr_m];
        (destruct m2 as [|p2|p2] eqn:Em2; try lia;
         [left; split; [reflexivity|unfold F2R; lra]
         |replace (e1 <=? emax - prec) with true
            by (symmetry; apply Z.leb_le; change (emax - prec) with 971; lia);
          right; eexists _, _; split; reflexivity]).
  - rewrite <- E1. exact R1.
  - intros -> Hle. apply R3. apply X1. exact Hle.
Qed.

Lemma iter_xO_value m d : Zpos (Pos.iter xO m d) = Zpos m * 2 ^ Zpos d.
Proof.
  induction d as [|d IH] using Pos.peano_ind.
  - cbn [Pos.iter]. lia.
  - rewrite Pos.iter_succ, Pos2Z.inj_xO, IH, Pos2Z.inj_succ, Z.pow_succ_r by lia. lia.
Qed.

Lemma iter_xO_digits m d :
  Zpos (digits2_pos (Pos.iter xO m d)) = Zpos (digits2_pos m) + Zpos d.
Proof.
  induction d as [|d IH] using Pos.peano_ind.
  - cbn [Pos.iter digits2_pos]. lia.
  - rewrite Pos.iter_succ. cbn [digits2_pos]. lia.
Qed.

Lemma shl_align_spec mx ex ex' :
  F2R (Zpos (fst (shl_align mx ex ex'))) (snd (shl_align mx ex ex')) = F2R (Zpos mx) ex /\
  Zpos (digits2_pos (fst (shl_align mx ex ex'))) + snd (shl_align mx ex ex')
  = Zpos (digits2_pos mx) + ex /\
  snd (shl_align mx ex ex') = Z.min ex ex'.
Proof.
  unfold shl_align. destruct (ex' - ex) as [|d|d] eqn:E; cbn [fst snd].
  - repeat split; lia.
  - repeat split; lia.
  - rewrite iter_xO_value, iter_xO_digits. repeat split; try lia.
    unfold F2R. rewrite mult_IZR, <- bpow_IZR by lia.
    replace (bpow ex) with (bpow (Zpos d) * bpow ex')%R
      by (rewrite <- bpow_add; f_equal; lia).
    ring.
Qed.

(** Rounding of the real number [m * 2^e]. *)
Lemma binary_round_spec sx mx ex :
  (F2R (Zpos mx) ex < bpow 970)%R ->
  exists y,
    has_value sx (binary_round prec emax sx mx ex) y /\
    (Rabs (y - F2R (Zpos mx) ex)
     <= bpow (fexp64 (Zpos (digits2_pos mx) + ex)) / 2)%R /\
    (fexp64 (Zpos (digits2_pos mx) + ex) <= ex -> y = F2R (Zpos mx) ex).
Proof.
  intros Hx. unfold binary_round.
  destruct (shl_align_spec mx ex (fexp64 (Zpos (digits2_pos mx) + ex)))
    as (V & D & E).
  destruct (shl_align mx ex (fexp64 (Zpos (digits2_pos mx) + ex))) as [mz ez].
  cbn [fst snd] in *.
  assert (Hez : ez < 970).
  { pose proof (F2R_lower (Zpos mx) ex ltac:(lia)) as L. cbn [Zdigits2] in L.
    assert (Zpos (digits2_pos mx) - 1 + ex < 970) by (apply bpow_lt_inv; lra).
    lia. }
  destruct (binary_round_aux_spec sx (Zpos mz) ez loc_Exact (F2R (Zpos mx) ex))
    as (y & Hv & Herr & Hex); auto; try lia.
  { cbn [in_loc]. now rewrite V. }
  cbn [Zdigits2] in Herr, Hex. rewrite D in Herr, Hex.
  exists y. split; [exact Hv|]. split.
  - replace (Z.max ez (fexp64 (Zpos (digits2_pos mx) + ex)))
      with (fexp64 (Zpos (digits2_pos mx) + ex)) in Herr by lia.
    exact Herr.
  - intros Hle. apply Hex; auto. lia.
Qed.

Lemma binary_normalize_spec m e :
  0 <= m -> (F2R m e < bpow 970)%R ->
  exists y,
    has_value false (binary_normalize prec emax m e false) y /\
    (Rabs (y - F2R m e) <= bpow (fexp64 (Zdigits2 m + e)) / 2)%R /\
    (fexp64 (Zdigits2 m + e) <= e -> y = F2R m e).
Proof.
  intros Hm Hx. destruct m as [|p|p]; try lia.
  - exists 0%R. unfold F2R. rewrite Rmult_0_l, Rminus_diag, Rabs_R0.
    split; [left; split; reflexivity|]. split; auto.
    pose proof (bpow_pos (fexp64 (Zdigits2 0 + e))). lra.
  - cbn [binary_normalize Zdigits2]. now apply binary_round_spec.
Qed.

Lemma fexp64_mono a b : a <= b -> fexp64 a <= fexp64 b.
Proof. rewrite !fexp64_eq. lia. Qed.

Lemma has_value_nonneg s f y : has_value s f y -> (0 <= y)%R.
Proof.
  intros [[_ ->]|(m & e & _ & ->)]; [lra|].
  unfold F2R. pose proof (bpow_pos e).
  assert (0 < IZR (Zpos m))%R by (apply IZR_lt; lia). nra.
Qed.

(** Rounding of an exact product or sum, with the error at the magnitude [k]. *)
Lemma binary_round_aux_exact sx mx ex k :
  0 < mx -> (F2R mx ex < bpow k)%R -> k <= 970 ->
  exists y,
    has_value sx (binary_round_aux prec emax sx mx ex loc_Exact) y /\
    (Rabs (y - F2R mx ex) <= bpow (fexp64 k) / 2)%R.
Proof.
  intros Hm Hx Hk.
  pose proof (F2R_lower mx ex Hm) as L.
  assert (Hd : Zdigits2 mx + ex <= k).
  { assert (Zdigits2 mx - 1 + ex < k) by (apply bpow_lt_inv; lra). lia. }
  assert (Hex : ex < 970).
  { destruct mx as [|p|p]; try lia. cbn [Zdigits2] in Hd. lia. }
  destruct (binary_round_aux_spec sx mx ex loc_Exact (F2R mx ex))
    as (y & Hv & Herr & Hexact); try lia; try reflexivity.
  { apply Rlt_le_trans with (1 := Hx). apply bpow_le. lia. }
  exists y. split; [exact Hv|].
  destruct (Z_le_gt_dec (fexp64 (Zdigits2 mx + ex)) ex) as [Hle|Hgt].
  - rewrite Hexact by auto. rewrite Rminus_diag, Rabs_R0.
    pose proof (bpow_pos (fexp64 k)). lra.
  - replace (Z.max ex (fexp64 (Zdigits2 mx + ex)))
      with (fexp64 (Zdigits2 mx + ex)) in Herr by lia.
    apply Rle_trans with (1 := Herr).
    pose proof (bpow_le _ _ (fexp64_mono _ _ Hd)). lra.
Qed.

Lemma binary_normalize_err m e k :
  0 <= m -> (F2R m e < bpow k)%R -> k <= 970 ->
  exists y,
    has_value false (binary_normalize prec emax m e false) y /\
    (Rabs (y - F2R m e) <= bpow (fexp64 k) / 2)%R.
Proof.
  intros Hm Hx Hk. pose proof (bpow_pos (fexp64 k)) as Hb.
  destruct m as [|p|p]; try lia.
  - exists 0%R. unfold F2R. rewrite Rmult_0_l, Rminus_diag, Rabs_R0.
    split; [left; split; reflexivity|lra].
  - destruct (binary_round_spec false p e) as (y & Hv & Herr & _).
    { apply Rlt_le_trans with (1 := Hx). apply bpow_le. lia. }
    exists y. split; [exact Hv|].
    apply Rle_trans with (1 := Herr).
    pose proof (F2R_lower (Zpos p) e ltac:(lia)) as L. cbn [Zdigits2] in L.
    assert (Zpos (digits2_pos p) - 1 + e < k) by (apply bpow_lt_inv; lra).
    assert (Hd : Zpos (digits2_pos p) + e <= k) by lia.
    pose proof (bpow_le _ _ (fexp64_mono _ _ Hd)). lra.
Qed.

(** ** The operations on non-negative doubles *)

Lemma to_Z_of_Z n : 0 <= n < 2 ^ 63 -> Uint63.to_Z (Uint63.of_Z n) = n.
Proof.
  intros H. rewrite Uint63.of_Z_spec. apply Z.mod_small.
  change Uint63.wB with (2 ^ 63). exact H.
Qed.

Lemma double_of_int_value n :
  0 <= n < 2 ^ 53 -> nonneg_double (double_of_int n) (IZR n).
Proof.
  intros H. unfold nonneg_double, double_of_int.
  replace (n <? 0) with false by (symmetry; apply Z.ltb_ge; lia).
  rewrite of_uint63_spec, to_Z_of_Z by lia.
  assert (V : F2R n 0 = IZR n) by (unfold F2R; rewrite bpow_0; ring).
  destruct (binary_normalize_spec n 0) as (y & Hv & _ & Hex); [lia| |].
  - rewrite V. apply Rlt_le_trans with (bpow 53).
    + rewrite bpow_IZR by lia. apply IZR_lt. lia.
    + apply bpow_le. lia.
  - rewrite <- V, <- Hex; [exact Hv|].
    pose proof (Zdigits2_le n 53 ltac:(lia) H). rewrite fexp64_eq. lia.
Qed.

Lemma new_location_loc m2 q r e :
  0 < m2 -> 0 <= r < m2 ->
  in_loc ((IZR q + IZR r / IZR m2) * bpow e) q e (new_location m2 r).
Proof.
  intros Hm2 Hr. pose proof (bpow_pos e) as Hb.
  assert (HM : (0 < IZR m2)%R) by (apply IZR_lt; lia).
  assert (HR : (0 <= IZR r < IZR m2)%R) by (split; [apply IZR_le|apply IZR_lt]; lia).
  set (t := (IZR r / IZR m2)%R).
  assert (Ht : (t * IZR m2 = IZR r)%R) by (unfold t; field; lra).
  assert (Ht1 : (0 <= t < 1)%R) by (split; nra).
  unfold new_location, new_location_even, new_location_odd.
  assert (Hzero : r = 0 -> in_loc ((IZR q + t) * bpow e) q e loc_Exact).
  { intros ->. cbn [in_loc]. unfold F2R.
    assert (t = 0%R) by (change (IZR 0) with 0%R in Ht; nra). subst t. nra. }
  assert (Hin : r <> 0 ->
            (F2R q e < (IZR q + t) * bpow e < F2R (q + 1) e)%R).
  { intros Hn. unfold F2R. rewrite plus_IZR. change (IZR 1) with 1%R.
    assert (0 < IZR r)%R by (apply IZR_lt; lia).
    assert (0 < t)%R by nra. split; nra. }
  destruct (Z.even m2) eqn:Ev.
  - destruct (r =? 0) eqn:E0; [apply Hzero; lia|].
    cbn [in_loc]. split; [apply Hin; lia|].
    unfold F2R.
    destruct (Z.compare_spec (2 * r) m2) as [C|C|C]; cbn [Rcmp].
    + assert (2 * IZR r = IZR m2)%R by (rewrite <- C, mult_IZR; reflexivity). nra.
    + apply IZR_lt in C. rewrite mult_IZR in C. change (IZR 2) with 2%R in C. nra.
    + apply IZR_lt in C. rewrite mult_IZR in C. change (IZR 2) with 2%R in C. nra.
  - destruct (r =? 0) eqn:E0; [apply Hzero; lia|].
    cbn [in_loc]. split; [apply Hin; lia|].
    unfold F2R.
    assert (Hodd : 2 * r <> m2).
    { intros <-. rewrite Z.even_mul in Ev. discriminate. }
    destruct (Z.compare_spec (2 * r + 1) m2) as [C|C|C]; cbn [Rcmp].
    + assert (C' : 2 * r < m2) by lia.
      apply IZR_lt in C'. rewrite mult_IZR in C'. change (IZR 2) with 2%R in C'. nra.
    + assert (C' : 2 * r < m2) by lia.
      apply IZR_lt in C'. rewrite mult_IZR in C'. change (IZR 2) with 2%R in C'. nra.
    + assert (C' : m2 < 2 * r) by lia.
      apply IZR_lt in C'. rewrite mult_IZR in C'. change (IZR 2) with 2%R in C'. nra.
Qed.

(** The quotient of two mantissas, placed at the exponent of the format. *)
Lemma div_core_loc mx ex my ey :
  let '(q, e', l) := SFdiv_core_binary prec emax (Zpos mx) ex (Zpos my) ey in
  0 <= q /\
  in_loc (F2R (Zpos mx) ex / F2R (Zpos my) ey) q e' l /\
  e' <= fexp64 (Zpos (digits2_pos mx) + ex - (Zpos (digits2_pos my) + ey)).
Proof.
  unfold SFdiv_core_binary. cbn [Zdigits2].
  set (K := Zpos (digits2_pos mx) + ex - (Zpos (digits2_pos my) + ey)).
  set (e' := Z.min (fexp64 K) (ex - ey)).
  set (s := ex - ey - e').
  assert (Hs : 0 <= s) by (unfold s, e'; lia).
  set (m' := match s with
             | 0 => Zpos mx
             | Zpos _ => Z.shiftl (Zpos mx) s
             | Zneg _ => 0
             end).
  assert (Hm' : m' = Zpos mx * 2 ^ s).
  { unfold m'. destruct s as [|p|p] eqn:Es; try lia.
    rewrite Z.shiftl_mul_pow2 by lia. reflexivity. }
  pose proof (Z_div_mod m' (Zpos my) ltac:(lia)) as DM.
  destruct (Z.div_eucl m' (Zpos my)) as [q r]. destruct DM as [DM Hr].
  assert (Hq : 0 <= q).
  { assert (0 <= m') by (rewrite Hm'; pose proof (Z.pow_pos_nonneg 2 s); lia).
    nia. }
  split; [exact Hq|]. split; [|unfold e'; lia].
  replace (F2R (Zpos mx) ex / F2R (Zpos my) ey)%R
    with ((IZR q + IZR r / IZR (Zpos my)) * bpow e')%R.
  { apply new_location_loc; lia. }
  unfold F2R.
  assert (HM : (0 < IZR (Zpos my))%R) by (apply IZR_lt; lia).
  pose proof (bpow_pos ey). pose proof (bpow_pos e').
  replace ex with (s + e' + ey) by (unfold s; lia).
  rewrite !bpow_add, (bpow_IZR s) by lia.
  assert (E : (IZR (Zpos mx) * IZR (2 ^ s) = IZR (Zpos my) * IZR q + IZR r)%R).
  { rewrite <- !mult_IZR, <- plus_IZR. f_equal. lia. }
  assert (Hq2 : (IZR q + IZR r / IZR (Zpos my)
                 = IZR (Zpos mx) * IZR (2 ^ s) / IZR (Zpos my))%R)
    by (rewrite E; field; lra).
  rewrite Hq2. field. split; lra.
Qed.

Lemma F2R_pos m e : (0 < F2R (Zpos m) e)%R.
Proof.
  unfold F2R. pose proof (bpow_pos e).
  assert (0 < IZR (Zpos m))%R by (apply IZR_lt; lia). nra.
Qed.

Lemma zero_err k : (Rabs (0 - 0) <= bpow (fexp64 k) / 2)%R.
Proof. rewrite Rminus_diag, Rabs_R0. pose proof (bpow_pos (fexp64 k)). lra. Qed.

Lemma exact_err y k : (Rabs (y - y) <= bpow (fexp64 k) / 2)%R.
Proof. rewrite Rminus_diag, Rabs_R0. pose proof (bpow_pos (fexp64 k)). lra. Qed.

Lemma mul_value a b A B k :
  nonneg_double a A -> nonneg_double b B -> (A * B < bpow k)%R -> k <= 970 ->
  exists y, nonneg_double (a * b)%float y /\
            (Rabs (y - A * B) <= bpow (fexp64 k) / 2)%R.
Proof.
  unfold nonneg_double. intros Ha Hb Hx Hk. rewrite FloatAxioms.mul_spec.
  destruct Ha as [[-> ->]|(mx & ex & -> & ->)], Hb as [[-> ->]|(my & ey & -> & ->)].
  - exists 0%R. rewrite Rmult_0_l. split; [left; split; reflexivity|apply zero_err].
  - exists 0%R. rewrite Rmult_0_l. split; [left; split; reflexivity|apply zero_err].
  - exists 0%R. rewrite Rmult_0_r. split; [left; split; reflexivity|apply zero_err].
  - assert (V : (F2R (Zpos mx) ex * F2R (Zpos my) ey)%R
                = F2R (Zpos (mx * my)) (ex + ey)).
    { unfold F2R. rewrite Pos2Z.inj_mul, mult_IZR, bpow_add. ring. }
    rewrite V in *.
    apply (binary_round_aux_exact false (Zpos (mx * my)) (ex + ey) k); auto; lia.
Qed.

Lemma add_value a b A B k :
  nonneg_double a A -> nonneg_double b B -> (A + B < bpow k)%R -> k <= 970 ->
  exists y, nonneg_double (a + b)%float y /\
            (Rabs (y - (A + B)) <= bpow (fexp64 k) / 2)%R.
Proof.
  unfold nonneg_double. intros Ha Hb Hx Hk. rewrite FloatAxioms.add_spec.
  destruct Ha as [[-> ->]|(mx & ex & -> & ->)], Hb as [[-> ->]|(my & ey & -> & ->)].
  - exists 0%R. rewrite Rplus_0_l. split; [left; split; reflexivity|apply zero_err].
  - exists (F2R (Zpos my) ey). rewrite Rplus_0_l.
    split; [right; eexists _, _; split; reflexivity|apply exact_err].
  - exists (F2R (Zpos mx) ex). rewrite Rplus_0_r.
    split; [right; eexists _, _; split; reflexivity|apply exact_err].
  - unfold SF64add, SFadd. cbn [cond_Zopp].
    destruct (shl_align_spec mx ex (Z.min ex ey)) as (V1 & _ & E1).
    destruct (shl_align_spec my ey (Z.min ex ey)) as (V2 & _ & E2).
    replace (Z.min ex (Z.min ex ey)) with (Z.min ex ey) in E1 by lia.
    replace (Z.min ey (Z.min ex ey)) with (Z.min ex ey) in E2 by lia.
    rewrite E1 in V1. rewrite E2 in V2.
    set (z1 := Zpos (fst (shl_align mx ex (Z.min ex ey)))) in *.
    set (z2 := Zpos (fst (shl_align my ey (Z.min ex ey)))) in *.
    assert (V : (F2R (Zpos mx) ex + F2R (Zpos my) ey)%R = F2R (z1 + z2) (Z.min ex ey)).
    { rewrite <- V1, <- V2. unfold F2R. rewrite plus_IZR. ring. }
    rewrite V in *.
    apply binary_normalize_err; auto. unfold z1, z2. lia.
Qed.

Lemma sub_value a b A B k :
  nonneg_double a A -> nonneg_double b B -> (B <= A)%R -> (A - B < bpow k)%R ->
  k <= 970 ->
  exists y, nonneg_double (a - b)%float y /\
            (Rabs (y - (A - B)) <= bpow (fexp64 k) / 2)%R.
Proof.
  unfold nonneg_double. intros Ha Hb Hle Hx Hk. rewrite FloatAxioms.sub_spec.
  destruct Ha as [[-> ->]|(mx & ex & -> & ->)], Hb as [[-> ->]|(my & ey & -> & ->)].
  - exists 0%R. rewrite Rminus_diag. split; [left; split; reflexivity|apply zero_err].
  - pose proof (F2R_pos my ey). lra.
  - exists (F2R (Zpos mx) ex). rewrite Rminus_0_r.
    split; [right; eexists _, _; split; reflexivity|apply exact_err].
  - unfold SF64sub, SFsub. cbn [cond_Zopp].
    destruct (shl_align_spec mx ex (Z.min ex ey)) as (V1 & _ & E1).
    destruct (shl_align_spec my ey (Z.min ex ey)) as (V2 & _ & E2).
    replace (Z.min ex (Z.min ex ey)) with (Z.min ex ey) in E1 by lia.
    replace (Z.min ey (Z.min ex ey)) with (Z.min ex ey) in E2 by lia.
    rewrite E1 in V1. rewrite E2 in V2.
    set (z1 := Zpos (fst (shl_align mx ex (Z.min ex ey)))) in *.
    set (z2 := Zpos (fst (shl_align my ey (Z.min ex ey)))) in *.
    assert (V : (F2R (Zpos mx) ex - F2R (Zpos my) ey)%R = F2R (z1 - z2) (Z.min ex ey)).
    { rewrite <- V1, <- V2. unfold F2R. rewrite minus_IZR. ring. }
    rewrite V in *.
    apply binary_normalize_err; auto.
    apply le_IZR. rewrite <- V1, <- V2 in Hle. unfold F2R in Hle.
    pose proof (bpow_pos (Z.min ex ey)). rewrite minus_IZR.
    change (IZR 0) with 0%R. nra.
Qed.

Lemma div_value a b A B k :
  nonneg_double a A -> nonneg_double b B -> (0 < B)%R -> (A / B < bpow k)%R ->
  k <= 970 ->
  exists y, nonneg_double (a / b)%float y /\
            (Rabs (y - A / B) <= bpow (fexp64 k) / 2)%R.
Proof.
  unfold nonneg_double. intros Ha Hb HB Hx Hk. rewrite FloatAxioms.div_spec.
  destruct Ha as [[-> ->]|(mx & ex & -> & ->)], Hb as [[-> ->]|(my & ey & -> & ->)];
    try lra.
  - exists 0%R. unfold Rdiv. rewrite Rmult_0_l.
    split; [left; split; reflexivity|apply zero_err].
  - unfold SF64div, SFdiv. cbn [xorb].
    pose proof (div_core_loc mx ex my ey) as C.
    destruct (SFdiv_core_binary prec emax (Zpos mx) ex (Zpos my) ey) as [[q e'] l].
    destruct C as (Hq & Hloc & He').
    set (x := (F2R (Zpos mx) ex / F2R (Zpos my) ey)%R) in *.
    set (K := Zpos (digits2_pos mx) + ex - (Zpos (digits2_pos my) + ey)) in *.
    assert (HK : K <= k).
    { pose proof (F2R_lower (Zpos mx) ex ltac:(lia)) as L1.
      pose proof (F2R_upper (Zpos my) ey ltac:(lia)) as U2.
      cbn [Zdigits2] in L1, U2.
      assert (F2R (Zpos my) ey < bpow (Zpos (digits2_pos my) + ey))%R.
      { apply Rlt_le_trans with (2 := U2). unfold F2R.
        rewrite plus_IZR. pose proof (bpow_pos ey). change (IZR 1) with 1%R. nra. }
      assert (bpow (K - 1) < x)%R.
      { assert (E : (bpow (K - 1) * bpow (Zpos (digits2_pos my) + ey)
                     = bpow (Zpos (digits2_pos mx) - 1 + ex))%R).
        { rewrite <- bpow_add. f_equal. unfold K. lia. }
        pose proof (bpow_pos (K - 1)).
        assert (X : (x * F2R (Zpos my) ey = F2R (Zpos mx) ex)%R)
          by (unfold x; field; lra).
        apply Rmult_lt_reg_r with (F2R (Zpos my) ey); [exact HB|].
        rewrite X. nra. }
      assert (K - 1 < k) by (apply bpow_lt_inv; lra). lia. }
    pose proof (fexp64_mono _ _ HK) as HfK.
    assert (Hfk : fexp64 k <= 917) by (rewrite fexp64_eq; lia).
    destruct (binary_round_aux_spec false q e' l x) as (y & Hv & Herr & _); auto.
    { apply Rlt_le_trans with (1 := Hx). apply bpow_le. lia. }
    { lia. }
    exists y. split; [exact Hv|].
    apply Rle_trans with (1 := Herr).
    assert (Z.max e' (fexp64 (Zdigits2 q + e')) <= fexp64 k).
    { apply Z.max_lub; [lia|].
      destruct (Z.eq_dec q 0) as [->|Hn].
      - cbn [Zdigits2]. rewrite !fexp64_eq in *. lia.
      - apply fexp64_mono.
        pose proof (F2R_lower q e' ltac:(lia)) as L.
        pose proof (in_loc_bounds _ _ _ _ Hloc) as [B1 _].
        assert (Zdigits2 q - 1 + e' < k) by (apply bpow_lt_inv; lra). lia. }
    pose proof (bpow_le _ _ H). lra.
Qed.

(** ** Doubles in canonical form *)

Lemma valid_finite_canonical s m e :
  valid_binary (S754_finite s m e) = true ->
  e = Z.max (Zpos (digits2_pos m) + e - 53) (-1074).
Proof.
  cbn [SpecFloat.valid_binary]. unfold bounded, canonical_mantissa.
  intros H. apply andb_true_iff in H. destruct H as [H _].
  apply Z.eqb_eq in H. rewrite fexp64_eq in H. lia.
Qed.

Lemma canonical_upper m e :
  e = Z.max (Zpos (digits2_pos m) + e - 53) (-1074) ->
  (F2R (Zpos m) e < bpow (53 + e))%R.
Proof.
  intros H. pose proof (F2R_upper (Zpos m) e ltac:(lia)) as U. cbn [Zdigits2] in U.
  assert (F2R (Zpos m) e < F2R (Zpos m + 1) e)%R.
  { unfold F2R. rewrite plus_IZR. pose proof (bpow_pos e). change (IZR 1) with 1%R. nra. }
  assert (bpow (Zpos (digits2_pos m) + e) <= bpow (53 + e))%R by (apply bpow_le; lia).
  lra.
Qed.

Lemma canonical_lower m e :
  e = Z.max (Zpos (digits2_pos m) + e - 53) (-1074) -> -1074 < e ->
  (bpow (52 + e) <= F2R (Zpos m) e)%R.
Proof.
  intros H He. pose proof (F2R_lower (Zpos m) e ltac:(lia)) as L. cbn [Zdigits2] in L.
  replace (52 + e) with (Zpos (digits2_pos m) - 1 + e) by lia. exact L.
Qed.

Lemma canonical_lt m1 e1 m2 e2 :
  e1 = Z.max (Zpos (digits2_pos m1) + e1 - 53) (-1074) ->
  e2 = Z.max (Zpos (digits2_pos m2) + e2 - 53) (-1074) ->
  e1 < e2 -> (F2R (Zpos m1) e1 < F2R (Zpos m2) e2)%R.
Proof.
  intros C1 C2 H.
  pose proof (canonical_upper _ _ C1). pose proof (canonical_lower _ _ C2 ltac:(lia)).
  assert (bpow (53 + e1) <= bpow (52 + e2))%R by (apply bpow_le; lia). lra.
Qed.

(** The order of the keys is the order of the values. *)
Lemma rank_lt fa fb A B :
  valid_binary fa = true -> valid_binary fb = true ->
  has_value false fa A -> has_value false fb B ->
  (lexlt (rank fa) (rank fb) <-> (A < B)%R).
Proof.
  intros Va Vb [[-> ->]|(m1 & e1 & -> & ->)] [[-> ->]|(m2 & e2 & -> & ->)];
    unfold lexlt, rank; cbn [fst snd].
  - split; [lia|lra].
  - pose proof (F2R_pos m2 e2). split; [auto|lia].
  - pose proof (F2R_pos m1 e1). split; [lia|lra].
  - apply valid_finite_canonical in Va, Vb.
    pose proof (bpow_pos e1) as Hb.
    split.
    + intros [H|[_ [H|[-> H]]]]; try lia.
      * now apply canonical_lt.
      * unfold F2R. apply IZR_lt in H. nra.
    + intros H. right. split; [reflexivity|].
      destruct (Z.lt_trichotomy e1 e2) as [L|[E|G]]; [now left| |].
      * right. split; [exact E|]. subst e2. unfold F2R in H.
        apply lt_IZR. nra.
      * pose proof (canonical_lt _ _ _ _ Vb Va G). lra.
Qed.

Lemma nonneg_double_not_nan a A : nonneg_double a A -> is_nan a = false.
Proof.
  intros H. apply is_nan_false.
  destruct H as [[-> _]|(m & e & -> & _)]; discriminate.
Qed.

Lemma leb_value a b A B :
  nonneg_double a A -> nonneg_double b B ->
  ((a <=? b)%float = true <-> (A <= B)%R).
Proof.
  intros Ha Hb. rewrite leb_key.
  pose proof (nonneg_double_not_nan _ _ Ha). pose proof (nonneg_double_not_nan _ _ Hb).
  pose proof (rank_lt _ _ _ _ (Prim2SF_valid b) (Prim2SF_valid a) Hb Ha) as K.
  unfold fkey. split.
  - intros (_ & _ & N). apply Rnot_lt_le. intros L. apply N, K, L.
  - intros L. repeat split; auto. intros N. apply K in N. lra.
Qed.

(** A double that is at least [2^j] is a multiple of [2^(j-52)]. *)
Lemma nonneg_double_grid a A j :
  nonneg_double a A -> (bpow j <= A)%R ->
  exists N, A = (IZR N * bpow (j - 52))%R.
Proof.
  intros Ha Hj. pose proof (Prim2SF_valid a) as V.
  destruct Ha as [[_ ->]|(m & e & E & ->)].
  - pose proof (bpow_pos j). lra.
  - rewrite E in V. apply valid_finite_canonical in V.
    pose proof (canonical_upper _ _ V).
    assert (j < 53 + e) by (apply bpow_lt_inv; lra).
    exists (Zpos m * 2 ^ (e - (j - 52))).
    unfold F2R. rewrite mult_IZR, <- bpow_IZR by lia.
    rewrite Rmult_assoc, <- bpow_add. do 2 f_equal. lia.
Qed.

Lemma nonneg_double_le_1 a A :
  nonneg_double a A -> (A < 1 + bpow (-52))%R -> (A <= 1)%R.
Proof.
  intros Ha H. destruct (Rle_lt_dec A 1) as [|G]; auto. exfalso.
  destruct (nonneg_double_grid a A 0 Ha) as (N & EN).
  { rewrite bpow_0. lra. }
  change (0 - 52) with (-52) in EN. pose proof (bpow_pos (-52)) as Hb.
  assert (E1 : (IZR (2 ^ 52) * bpow (-52) = 1)%R).
  { rewrite <- bpow_IZR, <- bpow_add by lia. apply bpow_0. }
  assert (IZR (2 ^ 52) < IZR N)%R by nra.
  apply lt_IZR in H0.
  assert (IZR (2 ^ 52 + 1) <= IZR N)%R by (apply IZR_le; lia).
  rewrite plus_IZR in H1. change (IZR 1) with 1%R in H1. nra.
Qed.

Lemma one_value : nonneg_double 1%float 1%R.
Proof.
  right. exists 4503599627370496%positive, (-52). split; [reflexivity|].
  unfold F2R. change (IZR (Zpos 4503599627370496)) with (IZR (2 ^ 52)).
  rewrite <- bpow_IZR, <- bpow_add by lia. symmetry. apply bpow_0.
Qed.

Lemma zero_value : nonneg_double 0%float 0%R.
Proof. left. split; reflexivity. Qed.

Lemma Rabs_le_inv a b : (Rabs a <= b)%R -> (- b <= a <= b)%R.
Proof. unfold Rabs. destruct (Rcase_abs a); lra. Qed.

Lemma bpow_m53 : (9007199254740992 * bpow (-53) = 1)%R.
Proof.
  change 9007199254740992%R with (IZR (2 ^ 53)).
  rewrite <- bpow_IZR, <- bpow_add by lia. apply bpow_0.
Qed.

Lemma bpow_m52 : bpow (-52) = (2 * bpow (-53))%R.
Proof. change (-52) with (-53 + 1). apply bpow_succ. Qed.

Lemma threshold_value :
  nonneg_double THRESHOLD_RATIO (8556839292003942 * bpow (-53))%R.
Proof.
  right. exists 8556839292003942%positive, (-53). split; reflexivity.
Qed.

Lemma IZR_int_range n : 0 <= n <= 2147483647 -> 0 <= n < 2 ^ 53.
Proof. intros H. split; [lia|]. change (2 ^ 53) with 9007199254740992. lia. Qed.

(** The test of [build_subtree] on the most frequent label, in integers:
    the double quotient reaches the double nearest to 0.95 exactly when
    [freq / M >= 19/20]. *)
Lemma reaches_threshold_exact f m :
  0 <= f <= m -> 1 <= m <= 2147483647 ->
  (reaches_threshold f m = true <-> 19 * m <= 20 * f).
Proof.
  intros Hf Hm. unfold reaches_threshold.
  pose proof (double_of_int_value f (IZR_int_range f ltac:(lia))) as Va.
  pose proof (double_of_int_value m (IZR_int_range m ltac:(lia))) as Vb.
  assert (HM : (1 <= IZR m <= 2147483647)%R) by (split; apply IZR_le; lia).
  assert (HF : (0 <= IZR f <= IZR m)%R) by (split; apply IZR_le; lia).
  set (X := (IZR f / IZR m)%R).
  assert (HX : (X * IZR m = IZR f)%R) by (unfold X; field; lra).
  pose proof bpow_m53 as B53. pose proof bpow_m52 as B52.
  pose proof (bpow_pos (-53)) as P53.
  destruct (Z.eq_dec f m) as [->|Hne].
  - assert (X1 : X = 1%R) by (unfold X; field; lra).
    destruct (div_value _ _ _ _ 1 Va Vb) as (Y & VY & EY); try lra; try lia.
    { fold X. rewrite X1, bpow_1. lra. }
    fold X in EY. rewrite X1 in EY. change (fexp64 1) with (-52) in EY.
    rewrite (leb_value _ _ _ _ threshold_value VY).
    apply Rabs_le_inv in EY. split; [lia|]. intros _. lra.
  - assert (Hlt : (IZR f + 1 <= IZR m)%R).
    { rewrite <- plus_IZR. apply IZR_le. lia. }
    assert (X1 : (X < 1)%R).
    { apply Rmult_lt_reg_r with (IZR m); [lra|]. rewrite HX. lra. }
    destruct (div_value _ _ _ _ 0 Va Vb) as (Y & VY & EY); try lra; try lia.
    { fold X. rewrite bpow_0. exact X1. }
    fold X in EY. change (fexp64 0) with (-53) in EY.
    rewrite (leb_value _ _ _ _ threshold_value VY).
    apply Rabs_le_inv in EY. split.
    + intros HT. destruct (Z_le_gt_dec (19 * m) (20 * f)) as [|G]; auto. exfalso.
      assert (G' : (20 * IZR f + 1 <= 19 * IZR m)%R).
      { rewrite <- !mult_IZR, <- plus_IZR. apply IZR_le. lia. }
      assert (X2 : (X <= 19 / 20 - 1 / 42949672940)%R).
      { apply Rmult_le_reg_r with (IZR m); [lra|].
        replace ((19 / 20 - 1 / 42949672940) * IZR m)%R
          with (19 / 20 * IZR m - IZR m / 42949672940)%R by field.
        rewrite HX. lra. }
      lra.
    + intros H19.
      assert (G' : (19 * IZR m <= 20 * IZR f)%R).
      { rewrite <- !mult_IZR. apply IZR_le. lia. }
      assert (X2 : (19 / 20 <= X)%R).
      { apply Rmult_le_reg_r with (IZR m); [lra|]. rewrite HX. lra. }
      destruct (nonneg_double_grid _ Y (-1) VY) as (N & EN).
      { replace (bpow (-1)) with (4503599627370496 * bpow (-53))%R.
        - lra.
        - change 4503599627370496%R with (IZR (2 ^ 52)).
          rewrite <- bpow_IZR, <- bpow_add by lia. reflexivity. }
      change (-1 - 52) with (-53) in EN.
      assert (HN : (IZR 8556839292003941 < IZR N)%R) by nra.
      apply lt_IZR in HN.
      assert (HN' : (IZR 8556839292003942 <= IZR N)%R) by (apply IZR_le; lia).
      rewrite EN. nra.
Qed.

Lemma label_count_bounds d group l : 0 <= label_count d group l <= size_of group.
Proof.
  unfold label_count, size_of.
  pose proof (count_occ_bound Z.eq_dec l (map (label_of d) group)) as H.
  rewrite length_map in H. lia.
Qed.

Lemma exact_share_bounds d group k :
  group <> [] -> (0 <= exact_share d group k <= 1)%R.
Proof.
  intros Hne. unfold exact_share.
  pose proof (label_count_bounds d group (Z.of_nat k)) as [H0 H1].
  assert (Hn : (0 < IZR (size_of group))%R).
  { apply IZR_lt. unfold size_of. destruct group; [congruence|cbn [length]; lia]. }
  apply IZR_le in H0, H1.
  split.
  - apply Rmult_le_reg_r with (IZR (size_of group)); [exact Hn|].
    unfold Rdiv. rewrite Rmult_assoc, Rinv_l by lra. lra.
  - apply Rmult_le_reg_r with (IZR (size_of group)); [exact Hn|].
    unfold Rdiv. rewrite Rmult_assoc, Rinv_l by lra. lra.
Qed.

(** The share of a label in double precision: at most 1, and within
    [2^-53] of the exact share. *)
Lemma share_value d group k :
  group <> [] -> size_of group <= 2147483647 ->
  exists X, nonneg_double (share d group k) X /\ (X <= 1)%R /\
            (Rabs (X - exact_share d group k) <= bpow (-53))%R.
Proof.
  intros Hne Hsz. unfold share.
  pose proof (label_count_bounds d group (Z.of_nat k)) as Hc.
  pose proof (exact_share_bounds d group k Hne) as Hp.
  assert (Hn : 1 <= size_of group).
  { unfold size_of. destruct group; [congruence|cbn [length]; lia]. }
  pose proof (double_of_int_value _ (IZR_int_range (label_count d group (Z.of_nat k))
                                       ltac:(lia))) as Va.
  pose proof (double_of_int_value _ (IZR_int_range (size_of group) ltac:(lia))) as Vb.
  destruct (div_value _ _ _ _ 1 Va Vb) as (X & VX & EX); try lia.
  { apply IZR_lt. lia. }
  { fold (exact_share d group k). rewrite bpow_1. lra. }
  fold (exact_share d group k) in EX. change (fexp64 1) with (-52) in EX.
  pose proof bpow_m52. pose proof (bpow_pos (-53)).
  replace (bpow (-52) / 2)%R with (bpow (-53)) in EX by lra.
  exists X. split; [exact VX|]. split; [|exact EX].
  apply (nonneg_double_le_1 _ _ VX). apply Rabs_le_inv in EX. lra.
Qed.

(** One summand of the second loop. *)
Lemma term_value x X p :
  nonneg_double x X -> (X <= 1)%R -> (Rabs (X - p) <= bpow (-53))%R ->
  (0 <= p <= 1)%R ->
  exists T, nonneg_double (x * (1 - x))%float T /\
            (T <= p * (1 - p) + 4 * bpow (-53))%R.
Proof.
  intros VX HX1 EX Hp.
  pose proof bpow_m52 as B52. pose proof (bpow_pos (-53)) as P53.
  pose proof bpow_m53 as B53.
  pose proof (has_value_nonneg _ _ _ VX) as HX0.
  destruct (sub_value _ _ _ _ 1 one_value VX) as (W & VW & EW); try lra; try lia.
  { rewrite bpow_1. lra. }
  change (fexp64 1) with (-52) in EW.
  pose proof (has_value_nonneg _ _ _ VW) as HW0.
  apply Rabs_le_inv in EW, EX.
  destruct (mul_value _ _ _ _ 1 VX VW) as (T & VT & ET); try lia.
  { rewrite bpow_1. nra. }
  change (fexp64 1) with (-52) in ET. apply Rabs_le_inv in ET.
  exists T. split; [exact VT|]. nra.
Qed.

Section GroupSum.
Variables (sh : nat -> double) (p : nat -> R).

Lemma sum_terms_nonneg l :
  (forall k, In k l -> (0 <= p k <= 1)%R) ->
  (0 <= sumR (map (fun k => p k * (1 - p k) + 8 * bpow (-53)) l))%R.
Proof.
  pose proof (bpow_pos (-53)) as P53.
  induction l as [|j l IHl]; intros Hl; cbn [map sumR fold_right]; [lra|].
  fold (sumR (map (fun k => (p k * (1 - p k) + 8 * bpow (-53))%R) l)).
  pose proof (Hl j (or_introl eq_refl)).
  pose proof (IHl (fun i Hi => Hl i (or_intror Hi))). nra.
Qed.

Lemma fold_terms_value l : forall acc S,
  (forall k, In k l ->
     exists X, nonneg_double (sh k) X /\ (X <= 1)%R /\
               (Rabs (X - p k) <= bpow (-53))%R /\ (0 <= p k <= 1)%R) ->
  nonneg_double acc S ->
  (S + sumR (map (fun k => p k * (1 - p k) + 8 * bpow (-53)) l) <= 3 / 2)%R ->
  exists S', nonneg_double
               (fold_left (fun g k => (g + sh k * (1 - sh k))%float) l acc) S' /\
             (S' <= S + sumR (map (fun k => p k * (1 - p k) + 8 * bpow (-53)) l))%R.
Proof.
  pose proof bpow_m52 as B52. pose proof (bpow_pos (-53)) as P53.
  pose proof bpow_m53 as B53.
  induction l as [|k l IH]; intros acc S Hl VS Hsum; cbn [fold_left map sumR fold_right] in *.
  - exists S. split; [exact VS|lra].
  - fold (sumR (map (fun k => (p k * (1 - p k) + 8 * bpow (-53))%R) l)) in *.
    destruct (Hl k (or_introl eq_refl)) as (X & VX & HX1 & EX & Hp).
    destruct (term_value _ _ _ VX HX1 EX Hp) as (T & VT & HT).
    pose proof (has_value_nonneg _ _ _ VS) as HS0.
    pose proof (has_value_nonneg _ _ _ VT) as HT0.
    assert (Hrest : (0 <= sumR (map (fun k => p k * (1 - p k) + 8 * bpow (-53)) l))%R).
    { apply sum_terms_nonneg. intros j Hj.
      destruct (Hl j (or_intror Hj)) as (_ & _ & _ & _ & Hpj). exact Hpj. }
    assert (Hq : (0 <= p k * (1 - p k))%R) by nra.
    destruct (add_value _ _ _ _ 2 VS VT) as (S1 & VS1 & ES1); try lia.
    { replace (bpow 2) with 4%R; [lra|].
      change 2 with (1 + 1). rewrite bpow_succ, bpow_1. lra. }
    change (fexp64 2) with (-51) in ES1.
    assert (B51 : bpow (-51) = (4 * bpow (-53))%R).
    { change (-51) with (-52 + 1). rewrite bpow_succ, B52. ring. }
    apply Rabs_le_inv in ES1.
    destruct (IH _ S1 (fun j Hj => Hl j (or_intror Hj)) VS1) as (S' & VS' & HS'); [lra|].
    exists S'. split; [exact VS'|lra].
Qed.
End GroupSum.

Lemma sumR_plus_const (q : nat -> R) (c : R) (l : list nat) :
  sumR (map (fun k => (q k + c)%R) l) = (sumR (map q l) + c * INR (length l))%R.
Proof.
  induction l as [|k l IH]; cbn [map sumR fold_right length].
  - cbn. ring.
  - fold (sumR (map (fun k => (q k + c)%R) l)). fold (sumR (map q l)).
    rewrite IH, S_INR. ring.
Qed.

(** Sum of squares against the sum: from [(f k - c)^2 >= 0]. *)
Lemma sumR_squares_lower (f : nat -> R) (c : R) (l : list nat) :
  (2 * c * sumR (map f l) - c * c * INR (length l)
   <= sumR (map (fun k => f k * f k) l))%R.
Proof.
  induction l as [|k l IH]; cbn [map sumR fold_right length].
  - cbn. lra.
  - fold (sumR (map f l)). fold (sumR (map (fun k => (f k * f k)%R) l)).
    rewrite S_INR. pose proof (pow2_ge_0 (f k - c)). nra.
Qed.

Lemma exact_shares_total d group :
  (forall i, In i group -> 0 <= label_of d i <= 9) -> group <> [] ->
  sumR (map (exact_share d group) (seq 0 10)) = 1%R.
Proof.
  intros Hwf Hne. unfold exact_share.
  rewrite (sumR_shares (fun k => label_count d group (Z.of_nat k))).
  rewrite label_counts_total by exact Hwf.
  apply Rinv_r. apply not_0_IZR. unfold size_of.
  destruct group; [congruence|]. cbn [length]. lia.
Qed.

(** The impurity of a non-empty group, as the second loop computes it, is a
    double between 0 and 0.91. *)
Lemma group_impurity_value d group :
  (forall i, In i group -> 0 <= label_of d i <= 9) -> group <> [] ->
  size_of group <= 2147483647 ->
  exists S, nonneg_double (group_impurity d group) S /\ (S <= 91 / 100)%R.
Proof.
  intros Hwf Hne Hsz. unfold group_impurity.
  pose proof bpow_m53 as B53. pose proof (bpow_pos (-53)) as P53.
  assert (Hsum : (sumR (map (fun k => exact_share d group k * (1 - exact_share d group k)
                                      + 8 * bpow (-53)) (seq 0 10)) <= 91 / 100)%R).
  { rewrite (sumR_plus_const
               (fun k => (exact_share d group k * (1 - exact_share d group k))%R)).
    rewrite exact_impurity by assumption.
    pose proof (sumR_squares_lower (exact_share d group) (1 / 10) (seq 0 10)) as Q.
    rewrite exact_shares_total in Q by assumption.
    change (INR (length (seq 0 10))) with (INR 10) in *.
    replace (INR 10) with 10%R in * by (cbn; lra).
    lra. }
  destruct (fold_terms_value (share d group) (exact_share d group) (seq 0 10)
                             0%float 0%R) as (S & VS & HS).
  - intros k _. destruct (share_value d group k Hne Hsz) as (X & VX & HX1 & EX).
    exists X. repeat split; auto; apply exact_share_bounds; auto.
  - exact zero_value.
  - lra.
  - exists S. split; [exact VS|lra].
Qed.

Lemma bpow_nat_value : bpow 31 = 2147483648%R /\ bpow 32 = 4294967296%R.
Proof. split; rewrite bpow_IZR by lia; reflexivity. Qed.

(** The weighted average of two group impurities is a double between 0
    and 1. *)
Lemma weighted_value ga gb GA GB na nb :
  nonneg_double ga GA -> nonneg_double gb GB ->
  (GA <= 91 / 100)%R -> (GB <= 91 / 100)%R ->
  1 <= na -> 1 <= nb -> na + nb <= 2147483647 ->
  exists Y, nonneg_double
              ((ga * double_of_int na + gb * double_of_int nb)
               / double_of_int (na + nb))%float Y /\ (Y <= 1)%R.
Proof.
  intros Va Vb Ha Hb Hna Hnb Hn.
  pose proof bpow_m53 as B53. pose proof (bpow_pos (-53)) as P53.
  destruct bpow_nat_value as [B31 B32].
  pose proof (has_value_nonneg _ _ _ Va) as Ha0.
  pose proof (has_value_nonneg _ _ _ Vb) as Hb0.
  pose proof (double_of_int_value na (IZR_int_range na ltac:(lia))) as Vna.
  pose proof (double_of_int_value nb (IZR_int_range nb ltac:(lia))) as Vnb.
  pose proof (double_of_int_value (na + nb) (IZR_int_range (na + nb) ltac:(lia))) as Vn.
  assert (Rna : (1 <= IZR na)%R) by (apply IZR_le; lia).
  assert (Rnb : (1 <= IZR nb)%R) by (apply IZR_le; lia).
  assert (Rn : (IZR na + IZR nb <= 2147483647)%R).
  { rewrite <- plus_IZR. apply IZR_le. lia. }
  assert (B22 : bpow (-22) = (2147483648 * bpow (-53))%R).
  { rewrite <- B31, <- bpow_add. reflexivity. }
  assert (B21 : bpow (-21) = (4294967296 * bpow (-53))%R).
  { rewrite <- B32, <- bpow_add. reflexivity. }
  destruct (mul_value _ _ _ _ 31 Va Vna) as (P1 & VP1 & E1); try lia.
  { rewrite B31. nra. }
  destruct (mul_value _ _ _ _ 31 Vb Vnb) as (P2 & VP2 & E2); try lia.
  { rewrite B31. nra. }
  change (fexp64 31) with (-22) in E1, E2.
  apply Rabs_le_inv in E1, E2.
  destruct (add_value _ _ _ _ 32 VP1 VP2) as (P & VP & EP); try lia.
  { rewrite B32. nra. }
  change (fexp64 32) with (-21) in EP. apply Rabs_le_inv in EP.
  pose proof (has_value_nonneg _ _ _ VP) as HP0.
  assert (HP : (P <= 91 / 100 * (IZR na + IZR nb) + 1 / 1000)%R) by nra.
  assert (HQ : (P / IZR (na + nb) <= 92 / 100)%R).
  { rewrite plus_IZR.
    apply Rmult_le_reg_r with (IZR na + IZR nb)%R; [lra|].
    unfold Rdiv. rewrite Rmult_assoc, Rinv_l by lra. nra. }
  destruct (div_value _ _ _ _ 0 VP Vn) as (Y & VY & EY); try lia.
  { rewrite plus_IZR. lra. }
  { rewrite bpow_0. lra. }
  change (fexp64 0) with (-53) in EY. apply Rabs_le_inv in EY.
  exists Y. split; [exact VY|lra].
Qed.

(** When both groups are non-empty the impurity is a double between 0
    and 1. *)
Lemma gini_impurity_value d indices pixel :
  (forall i, In i indices -> 0 <= label_of d i <= 9) ->
  size_of indices <= 2147483647 ->
  group_A d indices pixel <> [] -> group_B d indices pixel <> [] ->
  exists Y, nonneg_double (gini_impurity d indices pixel) Y /\ (Y <= 1)%R.
Proof.
  intros Hwf Hsz HA HB.
  rewrite gini_impurity_groups by exact Hwf. unfold weighted.
  pose proof (groups_length d indices pixel) as L.
  assert (SA : 1 <= size_of (group_A d indices pixel)).
  { unfold size_of. destruct (group_A d indices pixel); [congruence|cbn [length]; lia]. }
  assert (SB : 1 <= size_of (group_B d indices pixel)).
  { unfold size_of. destruct (group_B d indices pixel); [congruence|cbn [length]; lia]. }
  assert (SN : size_of indices
               = size_of (group_A d indices pixel) + size_of (group_B d indices pixel)).
  { unfold size_of. lia. }
  destruct (group_impurity_value d (group_A d indices pixel)) as (GA & VA & HGA); auto.
  { intros i Hi. apply Hwf. apply in_group_A in Hi. tauto. }
  { lia. }
  destruct (group_impurity_value d (group_B d indices pixel)) as (GB & VB & HGB); auto.
  { intros i Hi. apply Hwf. apply in_group_B in Hi. tauto. }
  { lia. }
  rewrite SN. apply weighted_value with (GA := GA) (GB := GB); auto. lia.
Qed.
(** * Rounding errors of [gini_impurity] *)

Lemma Rabs_le_intro a b : (- b <= a <= b)%R -> (Rabs a <= b)%R.
Proof. intros H. apply Rabs_le. exact H. Qed.

(** One summand of the second loop, within [4 * 2^-53] of its exact value. *)
Lemma term_err x X p :
  nonneg_double x X -> (X <= 1)%R -> (Rabs (X - p) <= bpow (-53))%R ->
  (0 <= p <= 1)%R ->
  exists T, nonneg_double (x * (1 - x))%float T /\
            (Rabs (T - p * (1 - p)) <= 4 * bpow (-53))%R.
Proof.
  intros VX HX1 EX Hp.
  pose proof bpow_m52 as B52. pose proof (bpow_pos (-53)) as P53.
  pose proof bpow_m53 as B53.
  pose proof (has_value_nonneg _ _ _ VX) as HX0.
  destruct (sub_value _ _ _ _ 1 one_value VX) as (W & VW & EW); try lra; try lia.
  { rewrite bpow_1. lra. }
  change (fexp64 1) with (-52) in EW.
  pose proof (has_value_nonneg _ _ _ VW) as HW0.
  apply Rabs_le_inv in EW, EX.
  destruct (mul_value _ _ _ _ 1 VX VW) as (T & VT & ET); try lia.
  { rewrite bpow_1. nra. }
  change (fexp64 1) with (-52) in ET. apply Rabs_le_inv in ET.
  exists T. split; [exact VT|]. apply Rabs_le_intro. split; nra.
Qed.

Section GroupError.
Variables (sh : nat -> double) (p : nat -> R).

Lemma sum_exact_terms_nonneg l :
  (forall k, In k l -> (0 <= p k <= 1)%R) ->
  (0 <= sumR (map (fun k => p k * (1 - p k)) l))%R.
Proof.
  induction l as [|j l IHl]; intros Hl; cbn [map sumR fold_right]; [lra|].
  fold (sumR (map (fun k => (p k * (1 - p k))%R) l)).
  pose proof (Hl j (or_introl eq_refl)).
  pose proof (IHl (fun i Hi => Hl i (or_intror Hi))). nra.
Qed.

(** The running sum stays within [8 * 2^-53] per summand of the exact sum. *)
Lemma fold_terms_err l : forall acc S,
  (forall k, In k l ->
     exists X, nonneg_double (sh k) X /\ (X <= 1)%R /\
               (Rabs (X - p k) <= bpow (-53))%R /\ (0 <= p k <= 1)%R) ->
  nonneg_double acc S ->
  (S + sumR (map (fun k => p k * (1 - p k)) l)
   + 8 * bpow (-53) * INR (length l) <= 3 / 2)%R ->
  exists S', nonneg_double
               (fold_left (fun g k => (g + sh k * (1 - sh k))%float) l acc) S' /\
             (Rabs (S' - (S + sumR (map (fun k => p k * (1 - p k)) l)))
              <= 8 * bpow (-53) * INR (length l))%R.
Proof.
  pose proof bpow_m52 as B52. pose proof (bpow_pos (-53)) as P53.
  pose proof bpow_m53 as B53.
  induction l as [|k l IH]; intros acc S Hl VS Hsum.
  - cbn [fold_left map sumR fold_right length] in *. exists S. split; [exact VS|].
    apply Rabs_le_intro. cbn [INR]. lra.
  - cbn [fold_left map sumR fold_right] in *.
    fold (sumR (map (fun k => (p k * (1 - p k))%R) l)) in *.
    change (length (k :: l)) with (Datatypes.S (length l)) in *.
    rewrite S_INR in *.
    destruct (Hl k (or_introl eq_refl)) as (X & VX & HX1 & EX & Hp).
    destruct (term_err _ _ _ VX HX1 EX Hp) as (T & VT & HT).
    pose proof (has_value_nonneg _ _ _ VS) as HS0.
    pose proof (has_value_nonneg _ _ _ VT) as HT0.
    assert (Hrest : (0 <= sumR (map (fun k => p k * (1 - p k)) l))%R).
    { apply sum_exact_terms_nonneg. intros j Hj.
      destruct (Hl j (or_intror Hj)) as (_ & _ & _ & _ & Hpj). exact Hpj. }
    assert (Hlen : (0 <= INR (length l))%R) by apply pos_INR.
    assert (Hq : (0 <= p k * (1 - p k))%R) by nra.
    apply Rabs_le_inv in HT.
    destruct (add_value _ _ _ _ 2 VS VT) as (S1 & VS1 & ES1); try lia.
    { replace (bpow 2) with 4%R; [nra|].
      change 2 with (1 + 1). rewrite bpow_succ, bpow_1. lra. }
    change (fexp64 2) with (-51) in ES1.
    assert (B51 : bpow (-51) = (4 * bpow (-53))%R).
    { change (-51) with (-52 + 1). rewrite bpow_succ, B52. ring. }
    apply Rabs_le_inv in ES1.
    destruct (IH _ S1 (fun j Hj => Hl j (or_intror Hj)) VS1) as (S' & VS' & HS').
    { nra. }
    apply Rabs_le_inv in HS'.
    exists S'. split; [exact VS'|]. apply Rabs_le_intro. split; nra.
Qed.
End GroupError.

(** The impurity of a non-empty group, as the second loop computes it, is
    within [80 * 2^-53] of one minus the sum of the squares of the shares. *)
Lemma group_impurity_err d group :
  (forall i, In i group -> 0 <= label_of d i <= 9) -> group <> [] ->
  size_of group <= 2147483647 ->
  exists S, nonneg_double (group_impurity d group) S /\
            (Rabs (S - exact_group_impurity d group) <= 80 * bpow (-53))%R /\
            (0 <= exact_group_impurity d group <= 9 / 10)%R.
Proof.
  intros Hwf Hne Hsz. unfold group_impurity, exact_group_impurity.
  pose proof bpow_m53 as B53. pose proof (bpow_pos (-53)) as P53.
  rewrite <- exact_impurity by assumption.
  assert (Hup : (sumR (map (fun k => exact_share d group k * (1 - exact_share d group k))
                           (seq 0 10)) <= 9 / 10)%R).
  { rewrite exact_impurity by assumption.
    pose proof (sumR_squares_lower (exact_share d group) (1 / 10) (seq 0 10)) as Q.
    rewrite exact_shares_total in Q by assumption.
    change (INR (length (seq 0 10))) with (INR 10) in *.
    replace (INR 10) with 10%R in * by (cbn; lra).
    lra. }
  assert (Hlo : (0 <= sumR (map (fun k => exact_share d group k
                                          * (1 - exact_share d group k)) (seq 0 10)))%R).
  { apply sum_exact_terms_nonneg. intros k _. apply exact_share_bounds; auto. }
  destruct (fold_terms_err (share d group) (exact_share d group) (seq 0 10)
                           0%float 0%R) as (S & VS & HS).
  - intros k _. destruct (share_value d group k Hne Hsz) as (X & VX & HX1 & EX).
    exists X. repeat split; auto; apply exact_share_bounds; auto.
  - exact zero_value.
  - change (INR (length (seq 0 10))) with (INR 10).
    replace (INR 10) with 10%R by (cbn; lra). lra.
  - change (INR (length (seq 0 10))) with (INR 10) in HS.
    replace (INR 10) with 10%R in HS by (cbn; lra).
    rewrite Rplus_0_l in HS.
    exists S. split; [exact VS|]. split; [|lra].
    replace (80 * bpow (-53))%R with (8 * bpow (-53) * 10)%R by ring. exact HS.
Qed.

(** A positive [int] lies between two consecutive powers of two. *)
Lemma int_scale n :
  1 <= n <= 2147483647 ->
  exists j, 1 <= j <= 31 /\ (bpow (j - 1) <= IZR n < bpow j)%R.
Proof.
  intros Hn. exists (Z.log2 n + 1).
  pose proof (Z.log2_spec n ltac:(lia)) as [L1 L2].
  pose proof (Z.log2_nonneg n) as L0.
  assert (L31 : Z.log2 n < 31).
  { apply Z.log2_lt_pow2; [lia|]. change (2 ^ 31) with 2147483648. lia. }
  split; [lia|].
  replace (Z.log2 n + 1 - 1) with (Z.log2 n) by lia.
  rewrite !bpow_IZR by lia. split; [apply IZR_le; exact L1|].
  apply IZR_lt. replace (Z.log2 n + 1) with (Z.succ (Z.log2 n)) by lia. exact L2.
Qed.

Lemma half_ulp_scale j :
  1 <= j -> (bpow (fexp64 j) / 2 = bpow (j - 1) * bpow (-53))%R.
Proof.
  intros Hj. rewrite fexp64_eq.
  replace (Z.max (j - 53) (-1074)) with (j - 1 + -53 + 1) by lia.
  rewrite bpow_succ, bpow_add. lra.
Qed.

(** The product of a double below 1 and an [int], within [n * 2^-53]. *)
Lemma scaled_err g G n :
  nonneg_double g G -> (G < 1)%R -> 1 <= n <= 2147483647 ->
  exists P, nonneg_double (g * double_of_int n)%float P /\
            (Rabs (P - G * IZR n) <= IZR n * bpow (-53))%R.
Proof.
  intros VG HG Hn.
  pose proof (has_value_nonneg _ _ _ VG) as HG0.
  pose proof (double_of_int_value n (IZR_int_range n ltac:(lia))) as Vn.
  destruct (int_scale n Hn) as (j & Hj & Hlo & Hhi).
  pose proof (bpow_pos (j - 1)) as Pj.
  destruct (mul_value _ _ _ _ j VG Vn) as (P & VP & EP); try lia.
  { assert ((1 - G) * IZR n >= 0)%R by nra. lra. }
  exists P. split; [exact VP|].
  rewrite (half_ulp_scale j ltac:(lia)) in EP.
  pose proof (bpow_pos (-53)) as P53.
  eapply Rle_trans; [exact EP|]. nra.
Qed.

(** The weighted average of two group impurities, within the error of the
    group impurities plus [3 * 2^-53]. *)
Lemma weighted_err ga gb GA GB a b E na nb :
  nonneg_double ga GA -> nonneg_double gb GB ->
  (GA <= 91 / 100)%R -> (GB <= 91 / 100)%R ->
  (Rabs (GA - a) <= E)%R -> (Rabs (GB - b) <= E)%R ->
  1 <= na -> 1 <= nb -> na + nb <= 2147483647 ->
  exists Y, nonneg_double
              ((ga * double_of_int na + gb * double_of_int nb)
               / double_of_int (na + nb))%float Y /\
            (Rabs (Y - (a * IZR na + b * IZR nb) / IZR (na + nb))
             <= E + 3 * bpow (-53))%R.
Proof.
  intros Va Vb Ha Hb Ea Eb Hna Hnb Hn.
  pose proof bpow_m53 as B53. pose proof (bpow_pos (-53)) as P53.
  pose proof (has_value_nonneg _ _ _ Va) as Ha0.
  pose proof (has_value_nonneg _ _ _ Vb) as Hb0.
  pose proof (double_of_int_value (na + nb) (IZR_int_range (na + nb) ltac:(lia))) as Vn.
  assert (Rna : (1 <= IZR na)%R) by (apply IZR_le; lia).
  assert (Rnb : (1 <= IZR nb)%R) by (apply IZR_le; lia).
  assert (Rn : (IZR na + IZR nb <= 2147483647)%R).
  { rewrite <- plus_IZR. apply IZR_le. lia. }
  destruct (scaled_err _ _ na Va ltac:(lra) ltac:(lia)) as (P1 & VP1 & E1).
  destruct (scaled_err _ _ nb Vb ltac:(lra) ltac:(lia)) as (P2 & VP2 & E2).
  apply Rabs_le_inv in E1, E2, Ea, Eb.
  destruct (int_scale (na + nb) ltac:(lia)) as (j & Hj & Hlo & Hhi).
  rewrite plus_IZR in Hlo, Hhi.
  set (n := (IZR na + IZR nb)%R) in *.
  assert (Hn0 : (0 < n)%R) by (unfold n; lra).
  assert (Hs : (P1 + P2 <= 911 / 1000 * n)%R) by (unfold n; nra).
  destruct (add_value _ _ _ _ j VP1 VP2) as (P & VP & EP); try lia.
  { lra. }
  rewrite (half_ulp_scale j ltac:(lia)) in EP.
  apply Rabs_le_inv in EP.
  pose proof (has_value_nonneg _ _ _ VP) as HP0.
  assert (EPn : (- (n * bpow (-53)) <= P - (P1 + P2) <= n * bpow (-53))%R) by nra.
  assert (HP : (P <= 92 / 100 * n)%R) by nra.
  assert (Hinv : (/ n * n = 1)%R) by (apply Rinv_l; lra).
  assert (Hinv0 : (0 < / n)%R) by (apply Rinv_0_lt_compat; lra).
  assert (HQ : (P / n <= 92 / 100)%R).
  { apply Rmult_le_reg_r with n; [lra|].
    unfold Rdiv. rewrite Rmult_assoc, Hinv. lra. }
  destruct (div_value _ _ _ _ 0 VP Vn) as (Y & VY & EY); try lia.
  { rewrite plus_IZR. exact Hn0. }
  { rewrite plus_IZR. fold n. rewrite bpow_0. lra. }
  change (fexp64 0) with (-53) in EY. apply Rabs_le_inv in EY.
  rewrite plus_IZR in *. fold n in EY |- *.
  exists Y. split; [exact VY|].
  (* the distance of P / n from the exact average *)
  assert (D : (- ((E + 2 * bpow (-53)) * n)
               <= P - (a * IZR na + b * IZR nb) <= (E + 2 * bpow (-53)) * n)%R).
  { unfold n in *. split; nra. }
  assert (Dq : (- (E + 2 * bpow (-53))
                <= P / n - (a * IZR na + b * IZR nb) / n <= E + 2 * bpow (-53))%R).
  { replace (P / n - (a * IZR na + b * IZR nb) / n)%R
      with ((P - (a * IZR na + b * IZR nb)) * / n)%R by (unfold Rdiv; ring).
    split.
    - apply Rmult_le_reg_r with n; [lra|]. rewrite Rmult_assoc, Hinv. lra.
    - apply Rmult_le_reg_r with n; [lra|]. rewrite Rmult_assoc, Hinv. lra. }
  apply Rabs_le_intro. lra.
Qed.

(** When both groups are non-empty, the double returned is within
    [83 * 2^-53] of the exact weighted average. *)
Lemma gini_impurity_err d indices pixel :
  (forall i, In i indices -> 0 <= label_of d i <= 9) ->
  size_of indices <= 2147483647 ->
  group_A d indices pixel <> [] -> group_B d indices pixel <> [] ->
  exists Y, nonneg_double (gini_impurity d indices pixel) Y /\
            (Rabs (Y - exact_gini_impurity d indices pixel) <= 83 * bpow (-53))%R.
Proof.
  intros Hwf Hsz HA HB.
  rewrite gini_impurity_groups by exact Hwf. unfold weighted, exact_gini_impurity.
  pose proof (groups_length d indices pixel) as L.
  pose proof bpow_m53 as B53. pose proof (bpow_pos (-53)) as P53.
  assert (SA : 1 <= size_of (group_A d indices pixel)).
  { unfold size_of. destruct (group_A d indices pixel); [congruence|cbn [length]; lia]. }
  assert (SB : 1 <= size_of (group_B d indices pixel)).
  { unfold size_of. destruct (group_B d indices pixel); [congruence|cbn [length]; lia]. }
  assert (SN : size_of indices
               = size_of (group_A d indices pixel) + size_of (group_B d indices pixel)).
  { unfold size_of. lia. }
  destruct (group_impurity_err d (group_A d indices pixel)) as (GA & VA & EA & RA); auto.
  { intros i Hi. apply Hwf. apply in_group_A in Hi. tauto. }
  { lia. }
  destruct (group_impurity_err d (group_B d indices pixel)) as (GB & VB & EB & RB); auto.
  { intros i Hi. apply Hwf. apply in_group_B in Hi. tauto. }
  { lia. }
  rewrite SN.
  destruct (weighted_err _ _ GA GB
              (exact_group_impurity d (group_A d indices pixel))
              (exact_group_impurity d (group_B d indices pixel)) (80 * bpow (-53))%R
              (size_of (group_A d indices pixel)) (size_of (group_B d indices pixel))
              VA VB) as (Y & VY & EY); auto.
  { apply Rabs_le_inv in EA. lra. }
  { apply Rabs_le_inv in EB. lra. }
  { lia. }
  exists Y. split; [exact VY|].
  eapply Rle_trans; [exact EY|]. lra.
Qed.

(** ** The most frequent label, without condition on the subset *)

Lemma slot_count_le d indices k : slot_count d indices k <= size_of indices.
Proof.
  unfold slot_count, size_of. pose proof (filter_length_le
    (fun i => Nat.eqb (Z.to_nat (label_of d i)) k) indices). lia.
Qed.

Lemma most_frequent_bounds d indices :
  0 <= snd (get_most_frequent d indices) <= size_of indices.
Proof.
  destruct (get_most_frequent_inv d indices) as (Hl & Hf & _).
  rewrite Hf, label_frequencies_nth by lia.
  split; [apply slot_count_nonneg|apply slot_count_le].
Qed.

(** What [get_most_frequent] stores, on labels that are not negative. *)
Lemma most_frequent_facts d indices :
  (forall i, In i indices -> 0 <= label_of d i) ->
  0 <= fst (get_most_frequent d indices) <= 9 /\
  snd (get_most_frequent d indices)
  = label_count d indices (fst (get_most_frequent d indices)) /\
  (forall l, 0 <= l <= 9 ->
     label_count d indices l <= snd (get_most_frequent d indices)).
Proof.
  intros Hpos.
  destruct (get_most_frequent_inv d indices) as (Hl & Hf & Hmax & _).
  split; [lia|]. split.
  - rewrite Hf, label_frequencies_nth by lia.
    rewrite slot_count_label_count by exact Hpos. f_equal. lia.
  - intros l Hl9. rewrite <- (Z2Nat.id l) by lia.
    rewrite <- slot_count_label_count by exact Hpos.
    rewrite <- label_frequencies_nth by lia. apply Hmax. lia.
Qed.

Lemma size_of_pos (l : list Z) : l <> [] -> 1 <= size_of l.
Proof. unfold size_of. destruct l; [congruence|cbn [length]; lia]. Qed.

(** The label stored covers at least a tenth of the subset. *)
Lemma most_frequent_tenth d indices :
  (forall i, In i indices -> 0 <= label_of d i <= 9) ->
  size_of indices <= 10 * snd (get_most_frequent d indices).
Proof.
  intros Hwf.
  destruct (most_frequent_facts d indices) as (_ & _ & Hmax).
  { intros i Hi. apply Hwf in Hi. lia. }
  rewrite <- (label_counts_total d indices Hwf).
  cbn [seq map sumZ fold_right].
  pose proof (Hmax 0 ltac:(lia)). pose proof (Hmax 1 ltac:(lia)).
  pose proof (Hmax 2 ltac:(lia)). pose proof (Hmax 3 ltac:(lia)).
  pose proof (Hmax 4 ltac:(lia)). pose proof (Hmax 5 ltac:(lia)).
  pose proof (Hmax 6 ltac:(lia)). pose proof (Hmax 7 ltac:(lia)).
  pose proof (Hmax 8 ltac:(lia)). pose proof (Hmax 9 ltac:(lia)).
  cbn [Z.of_nat Pos.of_succ_nat Pos.succ] in *. lia.
Qed.

(** ** When [find_best_split] has a result *)

Lemma nonneg_double_below_infinity a A :
  nonneg_double a A -> (a <? INFINITY)%float = true.
Proof.
  intros H. apply ltb_key. split; [exact (nonneg_double_not_nan _ _ H)|].
  split; [reflexivity|]. unfold fkey, INFINITY.
  change (Prim2SF infinity) with (S754_infinity false).
  destruct H as [[-> _]|(m & e & -> & _)]; unfold lexlt; cbn; lia.
Qed.

(** On labels among 0..9 the impurity of a pixel is the not-a-number when a
    group is empty, and a double below the infinity otherwise. *)
Lemma impurity_dichotomy d indices i :
  (forall j, In j indices -> 0 <= label_of d j <= 9) ->
  size_of indices <= 2147483647 ->
  (is_nan (impurity_at d indices i) = true /\
   (group_A d indices (Z.of_nat i) = [] \/ group_B d indices (Z.of_nat i) = [])) \/
  (is_nan (impurity_at d indices i) = false /\
   (impurity_at d indices i <? INFINITY)%float = true /\
   group_A d indices (Z.of_nat i) <> [] /\ group_B d indices (Z.of_nat i) <> []).
Proof.
  intros Hwf Hsz. unfold impurity_at.
  destruct (group_A d indices (Z.of_nat i)) as [|a As] eqn:EA.
  - left. split; [|now left].
    rewrite gini_impurity_empty_group by (left; exact EA). reflexivity.
  - destruct (group_B d indices (Z.of_nat i)) as [|b Bs] eqn:EB.
    + left. split; [|now right].
      rewrite gini_impurity_empty_group by (right; exact EB). reflexivity.
    + right.
      destruct (gini_impurity_value d indices (Z.of_nat i) Hwf Hsz) as (Y & VY & _);
        try (rewrite ?EA, ?EB; discriminate).
      split; [exact (nonneg_double_not_nan _ _ VY)|].
      split; [exact (nonneg_double_below_infinity _ _ VY)|].
      split; discriminate.
Qed.

(** While no impurity is the infinity, the scan never reads [best_split]
    before it is assigned, and leaves it unassigned only when every pixel
    seen has a not-a-number impurity. *)
Lemma split_scan_defined d indices n :
  (forall i, (i < n)%nat ->
     is_nan (impurity_at d indices i) = true \/
     (impurity_at d indices i <? INFINITY)%float = true) ->
  exists m best,
    split_scan d indices (seq 0 n) = Some (m, best) /\
    (best = None ->
     m = INFINITY /\ forall i, (i < n)%nat -> is_nan (impurity_at d indices i) = true).
Proof.
  induction n as [|n IH]; intros H.
  - exists INFINITY, None. split; [reflexivity|]. intros _. split; auto. intros i Hi. lia.
  - destruct IH as (m & best & E & Hb); [intros i Hi; apply H; lia|].
    unfold split_scan in *. rewrite seq_S, fold_left_app, E.
    cbn [fold_left Nat.add split_step]. fold (impurity_at d indices n).
    rewrite differs_from_NAN_true, !andb_true_r.
    destruct (H n ltac:(lia)) as [Hn|Hn].
    + rewrite ltb_nan_l, eqb_nan_l by exact Hn.
      exists m, best. split; [reflexivity|]. intros Eb.
      destruct (Hb Eb) as [-> Hall]. split; auto.
      intros i Hi. destruct (Nat.eq_dec i n) as [->|]; auto. apply Hall. lia.
    + destruct best as [b|].
      * destruct (impurity_at d indices n <? m)%float.
        -- eexists _, _. split; [reflexivity|discriminate].
        -- destruct (impurity_at d indices n =? m)%float.
           ++ destruct (Z.of_nat n <? b); eexists _, _; (split; [reflexivity|discriminate]).
           ++ eexists _, _. split; [reflexivity|discriminate].
      * destruct (Hb eq_refl) as [-> Hall]. rewrite Hn.
        eexists _, _. split; [reflexivity|discriminate].
Qed.

Lemma find_best_split_none_iff d indices :
  (forall j, In j indices -> 0 <= label_of d j <= 9) ->
  size_of indices <= 2147483647 ->
  (find_best_split d indices = None <->
   forall p, 0 <= p < 784 -> group_A d indices p = [] \/ group_B d indices p = []).
Proof.
  intros Hwf Hsz. split.
  - intros Hnone p Hp.
    destruct (split_scan_defined d indices 784) as (m & best & E & Hb).
    { intros i _. destruct (impurity_dichotomy d indices i Hwf Hsz) as [[N _]|(_ & L & _)];
        auto. }
    unfold find_best_split in Hnone. rewrite E in Hnone.
    destruct best as [b|]; [discriminate|].
    destruct (Hb eq_refl) as [_ Hall].
    specialize (Hall (Z.to_nat p) ltac:(lia)).
    destruct (impurity_dichotomy d indices (Z.to_nat p) Hwf Hsz) as [[_ G]|(N & _)].
    + rewrite Z2Nat.id in G by lia. exact G.
    + congruence.
  - intros Hall. apply find_best_split_all_nan. intros i Hi. unfold impurity_at.
    rewrite gini_impurity_empty_group by (apply Hall; lia). reflexivity.
Qed.

Lemma label_count_all d indices l :
  (forall i, In i indices -> label_of d i = l) ->
  label_count d indices l = size_of indices.
Proof.
  unfold label_count, size_of. intros H. f_equal.
  induction indices as [|i rest IH]; cbn [map count_occ length]; auto.
  destruct (Z.eq_dec (label_of d i) l) as [_|N].
  - f_equal. apply IH. intros j Hj. apply H. now right.
  - exfalso. apply N, H. now left.
Qed.

Lemma label_count_none d indices l :
  (forall i, In i indices -> label_of d i <> l) -> label_count d indices l = 0.
Proof.
  unfold label_count. intros H.
  replace (count_occ Z.eq_dec (map (label_of d) indices) l) with 0%nat; auto.
  symmetry. apply count_occ_not_In. rewrite in_map_iff.
  intros (i & E & Hi). exact (H i Hi E).
Qed.

Lemma label_count_pos d indices l :
  0 < label_count d indices l -> exists i, In i indices /\ label_of d i = l.
Proof.
  unfold label_count. intros H.
  assert (Hin : In l (map (label_of d) indices)).
  { apply (count_occ_In Z.eq_dec). lia. }
  apply in_map_iff in Hin. destruct Hin as (i & E & Hi). eauto.
Qed.

(** On a subset whose examples all carry the label [l], the count stored is
    the size of the subset and the label stored is [l]. *)
Lemma most_frequent_pure d indices l :
  indices <> [] -> 0 <= l <= 9 ->
  (forall i, In i indices -> label_of d i = l) ->
  get_most_frequent d indices = (l, size_of indices).
Proof.
  intros Hne Hl Hall.
  destruct (most_frequent_facts d indices) as (Hr & Hf & Hmax).
  { intros i Hi. rewrite (Hall i Hi). lia. }
  pose proof (most_frequent_bounds d indices) as Hb.
  pose proof (Hmax l Hl) as H1. rewrite label_count_all in H1 by exact Hall.
  pose proof (size_of_pos indices Hne).
  assert (Hfreq : snd (get_most_frequent d indices) = size_of indices) by lia.
  assert (Hlab : fst (get_most_frequent d indices) = l).
  { destruct (Z.eq_dec (fst (get_most_frequent d indices)) l) as [|N]; auto.
    rewrite label_count_none in Hf; [lia|].
    intros i Hi. rewrite (Hall i Hi). congruence. }
  destruct (get_most_frequent d indices) as [a b]. cbn [fst snd] in *. congruence.
Qed.

Lemma reaches_threshold_full m : 1 <= m <= 2147483647 -> reaches_threshold m m = true.
Proof. intros H. apply reaches_threshold_exact; lia. Qed.

(** A subset on which the threshold is not reached holds two examples with
    different labels. *)
Lemma two_labels d indices :
  (forall i, In i indices -> 0 <= label_of d i <= 9) ->
  indices <> [] -> size_of indices <= 2147483647 ->
  reaches_threshold (snd (get_most_frequent d indices)) (size_of indices) = false ->
  exists i j, In i indices /\ In j indices /\ label_of d i <> label_of d j.
Proof.
  intros Hwf Hne Hsz Hno.
  destruct indices as [|i0 rest]; [congruence|].
  destruct (Forall_Exists_dec (fun j => label_of d j = label_of d i0)
              (fun j => Z.eq_dec (label_of d j) (label_of d i0)) (i0 :: rest))
    as [Hall|Hex].
  - exfalso. rewrite Forall_forall in Hall.
    rewrite (most_frequent_pure d (i0 :: rest) (label_of d i0)) in Hno; auto.
    + cbn [snd] in Hno. rewrite reaches_threshold_full in Hno; [discriminate|].
      pose proof (size_of_pos (i0 :: rest) Hne). lia.
    + apply Hwf. now left.
  - apply Exists_exists in Hex. destruct Hex as (j & Hj & Hd).
    exists j, i0. repeat split; auto. now left.
Qed.

(** [build_subtree] returns a tree on every subset that is separable. *)
Lemma build_subtree_terminates d : forall n indices,
  (length indices <= n)%nat -> indices <> [] ->
  (forall i, In i indices -> 0 <= label_of d i <= 9) ->
  size_of indices <= 2147483647 ->
  separable d indices ->
  exists t, build_subtree n d indices = Done t.
Proof.
  induction n as [|n IH]; intros indices Hlen Hne Hwf Hsz Hsep.
  - destruct indices; [congruence|cbn in Hlen; lia].
  - rewrite build_subtree_unfold.
    destruct (reaches_threshold _ _) eqn:Et; [eauto|].
    destruct (two_labels d indices Hwf Hne Hsz Et) as (i & j & Hi & Hj & Hd).
    destruct (Hsep i j Hi Hj Hd) as (p & Hp & Hb).
    destruct (find_best_split d indices) as [p'|] eqn:Ef.
    + destruct (find_best_split_separates _ _ _ Ef) as [HA HB].
      destruct (groups_shorter _ _ _ HA HB) as [LA LB].
      destruct (IH (group_A d indices p')) as (l & El); auto; try lia.
      { intros x Hx. apply Hwf. apply in_group_A in Hx. tauto. }
      { unfold size_of in *. lia. }
      { intros x y Hx Hy. apply Hsep; [apply in_group_A in Hx|apply in_group_A in Hy]; tauto. }
      destruct (IH (group_B d indices p')) as (r & Er); auto; try lia.
      { intros x Hx. apply Hwf. apply in_group_B in Hx. tauto. }
      { unfold size_of in *. lia. }
      { intros x y Hx Hy. apply Hsep; [apply in_group_B in Hx|apply in_group_B in Hy]; tauto. }
      rewrite El, Er. eauto.
    + exfalso. rewrite find_best_split_none_iff in Ef by assumption.
      destruct (Ef p Hp) as [E|E].
      * destruct (below d p i) eqn:Bi.
        -- assert (In i (group_A d indices p)) by (apply filter_In; auto).
           rewrite E in H. contradiction.
        -- destruct (below d p j) eqn:Bj; [|congruence].
           assert (In j (group_A d indices p)) by (apply filter_In; auto).
           rewrite E in H. contradiction.
      * destruct (below d p i) eqn:Bi.
        -- destruct (below d p j) eqn:Bj; [congruence|].
           assert (In j (group_B d indices p))
             by (apply filter_In; rewrite Bj; auto).
           rewrite E in H. contradiction.
        -- assert (In i (group_B d indices p))
             by (apply filter_In; rewrite Bi; auto).
           rewrite E in H. contradiction.
Qed.

(** ** Trees returned by [build_subtree] *)

Lemma build_subtree_nonempty d fuel indices t :
  build_subtree fuel d indices = Done t -> indices <> [].
Proof.
  intros H E. subst indices. exact (build_subtree_nil_never d fuel t H).
Qed.

(** The classification walk ends in a leaf. *)
Lemma classify_built d img : forall fuel indices t,
  build_subtree fuel d indices = Done t ->
  exists c, dec_tree_classify t img = Some c /\ 0 <= c <= 9.
Proof.
  induction fuel as [|fuel IH]; intros indices t H; [discriminate|].
  rewrite build_subtree_unfold in H.
  destruct (reaches_threshold _ _).
  - injection H as <-. pose proof (get_most_frequent_label_range d indices) as R.
    exists (fst (get_most_frequent d indices)). split; [|exact R].
    cbn [dec_tree_classify].
    destruct (fst (get_most_frequent d indices) =? -1) eqn:E; [lia|reflexivity].
  - destruct (find_best_split d indices) as [p|]; [|discriminate].
    destruct (build_subtree fuel d (group_A d indices p)) as [l| |] eqn:El;
      try discriminate.
    destruct (build_subtree fuel d (group_B d indices p)) as [r| |] eqn:Er;
      try discriminate.
    injection H as <-. cbn [dec_tree_classify].
    change (negb (-1 =? -1)) with false. cbv iota.
    destruct (image_pixel img p =? 0); eauto.
Qed.

(** Each node is released once, and no [NULL] child is followed. *)
Lemma free_built d : forall fuel indices t,
  build_subtree fuel d indices = Done t ->
  free_dec_tree t = Some (length (nodes t)).
Proof.
  induction fuel as [|fuel IH]; intros indices t H; [discriminate|].
  rewrite build_subtree_unfold in H.
  destruct (reaches_threshold _ _).
  - injection H as <-. pose proof (get_most_frequent_label_range d indices) as R.
    cbn [free_dec_tree nodes app length].
    destruct (fst (get_most_frequent d indices) =? -1) eqn:E; [lia|reflexivity].
  - destruct (find_best_split d indices) as [p|]; [|discriminate].
    destruct (build_subtree fuel d (group_A d indices p)) as [l| |] eqn:El;
      try discriminate.
    destruct (build_subtree fuel d (group_B d indices p)) as [r| |] eqn:Er;
      try discriminate.
    injection H as <-. cbn [free_dec_tree nodes].
    change (negb (-1 =? -1)) with false. cbv iota.
    rewrite (IH _ _ El), (IH _ _ Er). cbn [length]. rewrite length_app. reflexivity.
Qed.

(** A tree built on [M] examples has at most [2 M - 1] nodes. *)
Lemma nodes_built d : forall fuel indices t,
  build_subtree fuel d indices = Done t ->
  (length (nodes t) + 1 <= 2 * length indices)%nat.
Proof.
  induction fuel as [|fuel IH]; intros indices t H; [discriminate|].
  pose proof (build_subtree_nonempty _ _ _ _ H) as Hne.
  rewrite build_subtree_unfold in H.
  destruct (reaches_threshold _ _).
  - injection H as <-. cbn [nodes app length].
    destruct indices; [congruence|cbn [length]; lia].
  - destruct (find_best_split d indices) as [p|]; [|discriminate].
    destruct (build_subtree fuel d (group_A d indices p)) as [l| |] eqn:El;
      try discriminate.
    destruct (build_subtree fuel d (group_B d indices p)) as [r| |] eqn:Er;
      try discriminate.
    injection H as <-. cbn [nodes length]. rewrite length_app.
    pose proof (IH _ _ El). pose proof (IH _ _ Er).
    pose proof (groups_length d indices p). lia.
Qed.

(** A leaf was made on a subset in which its label covers 19/20. *)
Lemma leaf_majority d indices :
  (forall i, In i indices -> 0 <= label_of d i) ->
  size_of indices <= 2147483647 ->
  reaches_threshold (snd (get_most_frequent d indices)) (size_of indices) = true ->
  indices <> [] /\
  19 * size_of indices
  <= 20 * label_count d indices (fst (get_most_frequent d indices)).
Proof.
  intros Hpos Hsz Ht.
  assert (Hne : indices <> []).
  { intros ->. rewrite get_most_frequent_nil in Ht. cbn [snd] in Ht.
    change (size_of []) with 0 in Ht. rewrite reaches_threshold_0_0 in Ht.
    discriminate. }
  split; [exact Hne|].
  destruct (most_frequent_facts d indices Hpos) as (_ & Hf & _).
  rewrite <- Hf. apply reaches_threshold_exact; auto.
  - apply most_frequent_bounds.
  - pose proof (size_of_pos indices Hne). lia.
Qed.

(** The labels a tree can answer occur in the subset it was built on. *)
Lemma classify_label_seen d img : forall fuel indices t c,
  (forall i, In i indices -> 0 <= label_of d i) ->
  size_of indices <= 2147483647 ->
  build_subtree fuel d indices = Done t ->
  dec_tree_classify t img = Some c ->
  exists i, In i indices /\ label_of d i = c.
Proof.
  induction fuel as [|fuel IH]; intros indices t c Hpos Hsz H Hc; [discriminate|].
  rewrite build_subtree_unfold in H.
  destruct (reaches_threshold _ _) eqn:Et.
  - injection H as <-. pose proof (get_most_frequent_label_range d indices) as R.
    cbn [dec_tree_classify] in Hc.
    destruct (fst (get_most_frequent d indices) =? -1) eqn:E; [lia|].
    injection Hc as <-.
    destruct (leaf_majority d indices Hpos Hsz Et) as [Hne Hm].
    pose proof (size_of_pos indices Hne).
    apply label_count_pos. lia.
  - destruct (find_best_split d indices) as [p|]; [|discriminate].
    destruct (build_subtree fuel d (group_A d indices p)) as [l| |] eqn:El;
      try discriminate.
    destruct (build_subtree fuel d (group_B d indices p)) as [r| |] eqn:Er;
      try discriminate.
    injection H as <-. cbn [dec_tree_classify] in Hc.
    change (negb (-1 =? -1)) with false in Hc. cbv iota in Hc.
    pose proof (groups_length d indices p) as L.
    destruct (image_pixel img p =? 0).
    + destruct (IH (group_A d indices p) l c) as (i & Hi & E); auto.
      * intros i Hi. apply Hpos. apply in_group_A in Hi. tauto.
      * unfold size_of in *. lia.
      * exists i. split; auto. apply in_group_A in Hi. tauto.
    + destruct (IH (group_B d indices p) r c) as (i & Hi & E); auto.
      * intros i Hi. apply Hpos. apply in_group_B in Hi. tauto.
      * unfold size_of in *. lia.
      * exists i. split; auto. apply in_group_B in Hi. tauto.
Qed.

(** ** Examples the tree was built on *)

Lemma hits_leaf d c indices :
  c <> -1 -> hits d (mkDTNode (-1) c None None) indices = label_count d indices c.
Proof.
  intros Hc. unfold hits, size_of, label_count. f_equal.
  induction indices as [|i rest IH]; cbn [filter map count_occ]; auto.
  unfold hit at 1. cbn [dec_tree_classify].
  destruct (c =? -1) eqn:E; [lia|]. cbn [negb].
  destruct (Z.eq_dec (label_of d i) c) as [e|e].
  - rewrite (proj2 (Z.eqb_eq c (label_of d i))) by congruence.
    cbn [length]. now rewrite IH.
  - rewrite (proj2 (Z.eqb_neq c (label_of d i))) by congruence. exact IH.
Qed.

Lemma hit_split d p l r i :
  intensity d i p = 0 \/ 128 <= intensity d i p ->
  hit d (mkDTNode p (-1) (Some l) (Some r)) i
  = if below d p i then hit d l i else hit d r i.
Proof.
  intros Hb. unfold hit, below. cbn [dec_tree_classify].
  change (negb (-1 =? -1)) with false. cbv iota.
  change (image_pixel (nth (Z.to_nat i) (images d) no_image) p) with (intensity d i p).
  destruct Hb as [E|G].
  - rewrite E. reflexivity.
  - replace (intensity d i p =? 0) with false by (symmetry; apply Z.eqb_neq; lia).
    replace (intensity d i p <? 128) with false by (symmetry; apply Z.ltb_ge; lia).
    reflexivity.
Qed.

Lemma hits_split d p l r indices :
  (forall i, In i indices -> intensity d i p = 0 \/ 128 <= intensity d i p) ->
  hits d (mkDTNode p (-1) (Some l) (Some r)) indices
  = hits d l (group_A d indices p) + hits d r (group_B d indices p).
Proof.
  unfold hits, size_of, group_A, group_B.
  induction indices as [|i rest IH]; intros Hb; [reflexivity|].
  cbn [filter]. rewrite hit_split by (apply Hb; now left).
  specialize (IH (fun j Hj => Hb j (or_intror Hj))).
  destruct (below d p i); cbn [negb filter];
    [destruct (hit d l i)|destruct (hit d r i)]; cbn [length]; lia.
Qed.

(** On intensities that are 0 or at least 128, the tree gives its own
    label to 19 out of 20 of the examples it was built on. *)
Lemma accuracy_built d : forall fuel indices t,
  (forall i, In i indices -> 0 <= label_of d i) ->
  size_of indices <= 2147483647 ->
  binarized d indices ->
  build_subtree fuel d indices = Done t ->
  19 * size_of indices <= 20 * hits d t indices.
Proof.
  induction fuel as [|fuel IH]; intros indices t Hpos Hsz Hbin H; [discriminate|].
  rewrite build_subtree_unfold in H.
  destruct (reaches_threshold _ _) eqn:Et.
  - injection H as <-. pose proof (get_most_frequent_label_range d indices) as R.
    rewrite hits_leaf by lia.
    apply (leaf_majority d indices Hpos Hsz Et).
  - destruct (find_best_split d indices) as [p|] eqn:Ef; [|discriminate].
    destruct (build_subtree fuel d (group_A d indices p)) as [l| |] eqn:El;
      try discriminate.
    destruct (build_subtree fuel d (group_B d indices p)) as [r| |] eqn:Er;
      try discriminate.
    injection H as <-.
    pose proof (find_best_split_range _ _ _ Ef) as Hp.
    pose proof (groups_length d indices p) as L.
    rewrite hits_split by (intros i Hi; apply Hbin; auto).
    assert (HA : 19 * size_of (group_A d indices p) <= 20 * hits d l (group_A d indices p)).
    { apply IH; auto.
      - intros i Hi. apply Hpos. apply in_group_A in Hi. tauto.
      - unfold size_of in *. lia.
      - intros i q Hi Hq. apply Hbin; auto. apply in_group_A in Hi. tauto. }
    assert (HB : 19 * size_of (group_B d indices p) <= 20 * hits d r (group_B d indices p)).
    { apply IH; auto.
      - intros i Hi. apply Hpos. apply in_group_B in Hi. tauto.
      - unfold size_of in *. lia.
      - intros i q Hi Hq. apply Hbin; auto. apply in_group_B in Hi. tauto. }
    unfold size_of in *. lia.
Qed.

(** The count of [main] is the number of test examples that are given
    their own label, as long as every classification ends in a leaf. *)
Lemma count_fold root testing (l : list nat) : forall total,
  (forall img, exists c, dec_tree_classify root img = Some c) ->
  fold_left (count_step root testing) l (Some total)
  = Some (total + hits testing root (map Z.of_nat l)).
Proof.
  intros total Htot. revert total.
  induction l as [|i l IH]; intros total; cbn [fold_left map].
  - unfold hits, size_of. cbn. f_equal. lia.
  - unfold count_step at 2.
    destruct (Htot (nth i (images testing) no_image)) as (c & Ec). rewrite Ec.
    rewrite IH. f_equal. unfold hits, size_of. cbn [filter].
    unfold hit at 2. rewrite Nat2Z.id, Ec.
    destruct (c =? label_of testing (Z.of_nat i)); cbn [length]; lia.
Qed.

Lemma count_correct_hits root testing :
  (forall img, exists c, dec_tree_classify root img = Some c) ->
  count_correct root testing = Some (hits testing root (all_indices testing)).
Proof.
  intros Htot. unfold count_correct. rewrite count_fold by exact Htot.
  reflexivity.
Qed.

Lemma hits_bounds d t indices : 0 <= hits d t indices <= size_of indices.
Proof.
  unfold hits, size_of. pose proof (filter_length_le (hit d t) indices). lia.
Qed.

Lemma all_indices_size d : 0 <= num_items d -> size_of (all_indices d) = num_items d.
Proof.
  intros H. unfold size_of, all_indices. rewrite length_map, length_seq. lia.
Qed.

Lemma all_indices_in d i : In i (all_indices d) <-> 0 <= i < num_items d.
Proof.
  unfold all_indices. rewrite in_map_iff. split.
  - intros (k & <- & Hk). apply in_seq in Hk. lia.
  - intros H. exists (Z.to_nat i). split; [lia|]. apply in_seq. lia.
Qed.

Lemma int_of_bytes_of_int n :
  -2147483648 <= n <= 2147483647 -> int_of_bytes (bytes_of_int n) = n.
Proof.
  intros H. unfold int_of_bytes, bytes_of_int. cbn [nth].
  destruct (_ <? 2147483648) eqn:E; [apply Z.ltb_lt in E|apply Z.ltb_ge in E];
    Z.div_mod_to_equations; lia.
Qed.

Lemma fread_app n (chunk rest : list Z) :
  length chunk = n -> fread n (chunk ++ rest) = Some (chunk, rest).
Proof.
  intros <-. unfold fread. rewrite length_app.
  replace (length chunk <=? length chunk + length rest)%nat with true
    by (symmetry; apply Nat.leb_le; lia).
  rewrite firstn_app, Nat.sub_diag, firstn_all, firstn_O, app_nil_r.
  rewrite skipn_app, Nat.sub_diag, skipn_all, skipn_O. reflexivity.
Qed.

Lemma load_items_encode imgs : forall lbls rest,
  length lbls = length imgs ->
  (forall img, In img imgs -> sx img = 28 /\ sy img = 28 /\ length (data img) = 784%nat) ->
  load_items (length imgs) (encode_items imgs lbls ++ rest) = Some (imgs, lbls).
Proof.
  induction imgs as [|img imgs IH]; intros lbls rest Hlen Hwf.
  - destruct lbls; [reflexivity|discriminate].
  - destruct lbls as [|l lbls]; [discriminate|].
    cbn [length encode_items load_items].
    change ((l :: data img ++ encode_items imgs lbls) ++ rest)
      with ([l] ++ (data img ++ encode_items imgs lbls) ++ rest).
    rewrite fread_app by reflexivity.
    rewrite <- app_assoc.
    destruct (Hwf img (or_introl eq_refl)) as (Hx & Hy & Hd).
    rewrite fread_app by (rewrite Hd; reflexivity).
    rewrite IH; [|cbn in Hlen; lia|intros i Hi; apply Hwf; now right].
    cbn [nth]. destruct img as [x y px]. cbn [sx sy data] in *. subst x y.
    reflexivity.
Qed.

(** Reading back what was written. *)
Lemma load_encode d trailing :
  well_formed d -> load_dataset (Some (encode_dataset d ++ trailing)) = Some d.
Proof.
  intros (Hn & Hi & Hl & Himg & _). unfold load_dataset, encode_dataset.
  rewrite <- app_assoc. rewrite fread_app by reflexivity.
  rewrite int_of_bytes_of_int by lia. rewrite <- Hi.
  rewrite load_items_encode.
  - destruct d; reflexivity.
  - lia.
  - intros img H. destruct (Himg img H) as (? & ? & ? & _). auto.
Qed.

Lemma fread_length n file chunk rest :
  fread n file = Some (chunk, rest) ->
  length chunk = n /\ file = chunk ++ rest.
Proof.
  unfold fread. destruct (n <=? length file)%nat eqn:E; [|discriminate].
  apply Nat.leb_le in E. intros [= <- <-]. split.
  - rewrite length_firstn. lia.
  - symmetry. apply firstn_skipn.
Qed.

Lemma load_items_shape n : forall file imgs lbls,
  load_items n file = Some (imgs, lbls) ->
  length imgs = n /\ length lbls = n /\
  (785 * n <= length file)%nat /\
  (forall img, In img imgs -> sx img = 28 /\ sy img = 28 /\ length (data img) = 784%nat) /\
  exists rest, file = encode_items imgs lbls ++ rest.
Proof.
  induction n as [|n IH]; intros file imgs lbls H; cbn [load_items] in H.
  - injection H as <- <-.
    split; [reflexivity|]. split; [reflexivity|]. split; [cbn; lia|].
    split; [intros im []|]. exists file. reflexivity.
  - destruct (fread 1 file) as [[label rest]|] eqn:E1; [|discriminate].
    destruct (fread (Z.to_nat NUM_PIXELS) rest) as [[pixels rest']|] eqn:E2; [|discriminate].
    destruct (load_items n rest') as [[imgs' lbls']|] eqn:E3; [|discriminate].
    injection H as <- <-.
    apply fread_length in E1, E2. destruct E1 as [L1 F1], E2 as [L2 F2].
    destruct (IH _ _ _ E3) as (Li & Ll & Lf & Hs & (rest'' & Fr)).
    change (Z.to_nat NUM_PIXELS) with 784%nat in L2.
    subst file rest. rewrite !length_app. cbn [length].
    split; [lia|]. split; [lia|]. split; [lia|]. split.
    + intros im [<-|Hi]; [cbn; auto|auto].
    + exists rest''. destruct label as [|b [|? ?]]; try discriminate.
      cbn [nth encode_items data app]. rewrite Fr, <- app_assoc. reflexivity.
Qed.
(** * The run with a value in the unassigned variable *)

Lemma split_step_agrees garbage d indices st raw i :
  scan_agrees garbage st raw ->
  scan_agrees garbage (split_step d indices st i) (split_step_raw d indices raw i).
Proof.
  destruct st as [[m ob]|]; [|intros _; exact I].
  intros H. unfold split_step, split_step_raw.
  assert (Hm : fst raw = m) by (destruct ob; cbn in H; rewrite H; reflexivity).
  destruct raw as [m' b']. cbn [fst] in Hm. subst m'.
  destruct ((gini_impurity d indices (Z.of_nat i) <? m)%float
            && differs_from_NAN (gini_impurity d indices (Z.of_nat i))); [reflexivity|].
  destruct ((gini_impurity d indices (Z.of_nat i) =? m)%float
            && differs_from_NAN (gini_impurity d indices (Z.of_nat i))).
  - destruct ob as [b|]; [|exact I].
    cbn in H. injection H as ->.
    destruct (Z.of_nat i <? b); reflexivity.
  - exact H.
Qed.

Lemma split_scan_agrees garbage d indices l : forall st raw,
  scan_agrees garbage st raw ->
  scan_agrees garbage (fold_left (split_step d indices) l st)
              (fold_left (split_step_raw d indices) l raw).
Proof.
  induction l as [|i l IH]; intros st raw H; cbn [fold_left]; [exact H|].
  apply IH. apply split_step_agrees. exact H.
Qed.

(** An assigned [best_split] is returned whatever the variable held. *)
Lemma find_best_split_raw_some garbage d indices b :
  find_best_split d indices = Some b -> find_best_split_raw garbage d indices = b.
Proof.
  unfold find_best_split, find_best_split_raw, split_scan. intros H.
  pose proof (split_scan_agrees garbage d indices (seq 0 784)
                (Some (INFINITY, None)) (INFINITY, garbage) eq_refl) as A.
  destruct (fold_left (split_step d indices) (seq 0 784) (Some (INFINITY, None)))
    as [[m [b0|]]|]; try discriminate.
  injection H as ->. unfold scan_agrees in A. rewrite A. reflexivity.
Qed.

(** When no pixel has a defined impurity, the value returned is the one the
    variable held. *)
Lemma find_best_split_raw_all_nan garbage d indices :
  (forall p, gini_impurity d indices p = NAN) ->
  find_best_split_raw garbage d indices = garbage.
Proof.
  intros H. unfold find_best_split_raw.
  assert (S1 : forall i, split_step_raw d indices (INFINITY, garbage) i
                         = (INFINITY, garbage)).
  { intros i. unfold split_step_raw. rewrite H. reflexivity. }
  assert (F : forall l, fold_left (split_step_raw d indices) l (INFINITY, garbage)
                        = (INFINITY, garbage)).
  { induction l as [|i l IH]; cbn [fold_left]; [reflexivity|].
    rewrite S1. exact IH. }
  rewrite F. reflexivity.
Qed.

(** What the function computes within its fuel is what the run returns. *)
Lemma build_subtree_returns_sound d : forall fuel indices t,
  build_subtree fuel d indices = Done t -> build_subtree_returns d indices t.
Proof.
  induction fuel as [|fuel IH]; intros indices t H; [discriminate|].
  rewrite build_subtree_unfold in H.
  destruct (reaches_threshold _ _) eqn:Et.
  - injection H as <-.
    apply returns_leaf with (freq := snd (get_most_frequent d indices)); [|exact Et].
    destruct (get_most_frequent d indices); reflexivity.
  - destruct (find_best_split d indices) as [p|] eqn:Ep; [|discriminate].
    destruct (build_subtree fuel d (group_A d indices p)) as [l| |] eqn:El;
      try discriminate.
    destruct (build_subtree fuel d (group_B d indices p)) as [r| |] eqn:Er;
      try discriminate.
    injection H as <-.
    apply returns_split with
      (label := fst (get_most_frequent d indices))
      (freq := snd (get_most_frequent d indices)) (garbage := 0)
      (subsets0 := group_A d indices p) (subsets1 := group_B d indices p)
      (left_size := 0 + size_of (group_A d indices p))
      (right_size := 0 + size_of (group_B d indices p)).
    + destruct (get_most_frequent d indices); reflexivity.
    + exact Et.
    + lia.
    + symmetry. apply find_best_split_raw_some. exact Ep.
    + apply split_data_eq.
    + apply IH. exact El.
    + apply IH. exact Er.
Qed.

(** A call on the empty subset returns no node: the ratio 0/0 is below the
    threshold, no pixel has a defined impurity, and the left side of the
    partition is the empty subset again. *)
Lemma empty_subset_never_returns d t : ~ build_subtree_returns d [] t.
Proof.
  intros H. remember [] as indices eqn:E.
  induction H as [indices label freq Hg Ht
                 |indices label freq garbage pixel_split s0 s1 ls rs l r
                    Hg Ht Hr Hp Hs Hl IHl Hrr IHr]; subst indices.
  - rewrite get_most_frequent_nil in Hg. injection Hg as <- <-.
    change (size_of []) with 0 in Ht. rewrite reaches_threshold_0_0 in Ht.
    discriminate.
  - rewrite split_data_eq in Hs. injection Hs as <- _ _ _.
    apply IHl. reflexivity.
Qed.

(** The call on the two identical images returns no node: whichever pixel
    the unassigned [best_split] holds, the left side of the partition is the
    subset itself. *)
Lemma twins_never_returns t : ~ build_subtree_returns twins [0; 1] t.
Proof.
  intros H. remember [0; 1] as indices eqn:E.
  induction H as [indices label freq Hg Ht
                 |indices label freq garbage pixel_split s0 s1 ls rs l r
                    Hg Ht Hr Hp Hs Hl IHl Hrr IHr]; subst indices.
  - change (get_most_frequent twins [0; 1]) with (0, 1) in Hg.
    injection Hg as <- <-.
    change (reaches_threshold 1 (size_of [0; 1])) with false in Ht. discriminate.
  - rewrite split_data_eq in Hs.
    destruct (twins_groups pixel_split) as [GA GB]. rewrite GA in Hs.
    injection Hs as <- _ _ _. apply IHl. reflexivity.
Qed.

Lemma twins_garbage_returned garbage : find_best_split_raw garbage twins [0; 1] = garbage.
Proof. apply find_best_split_raw_all_nan. exact twins_impurities. Qed.
(** * The claims on the impurity and on subsets that no pixel separates *)

(** C1 on the subset of the two identical images.  The subset is not empty
    and its most frequent label covers one half of it, which is below the
    threshold; no pixel has a defined impurity, so that [find_best_split]
    returns the value of the unassigned [best_split]; and the call emits no
    split node: it returns no node with any amount of fuel, and in no run. *)
Theorem build_subtree_twins_no_node :
  [0; 1] <> ([] : list Z) /\
  get_most_frequent twins [0; 1] = (0, 1) /\
  reaches_threshold 1 (size_of [0; 1]) = false /\
  find_best_split twins [0; 1] = None /\
  (forall fuel t, build_subtree fuel twins [0; 1] <> Done t) /\
  (forall t, ~ build_subtree_returns twins [0; 1] t).
Proof.
  split; [discriminate|]. split; [reflexivity|]. split; [reflexivity|].
  split; [exact twins_find_best_split|]. split.
  - intros fuel t. destruct fuel; [discriminate|].
    rewrite twins_build_subtree. discriminate.
  - exact twins_never_returns.
Qed.

(** C4 on the subset of the two identical images.  At each of the 784
    pixels the right side of the partition is empty and the left side is the
    subset itself; the pixel [build_subtree] splits on is the value the
    unassigned [best_split] holds; the call has no terminal case for the
    empty side and returns no node.  A call on an empty subset, for any
    dataset, makes no leaf either: [get_most_frequent] stores label 0 with
    count 0, the ratio 0/0 does not reach the threshold, no pixel is
    selected, and the call returns no node. *)
Theorem empty_side_never_returns :
  (forall p, 0 <= p < 784 ->
     split_data twins [0; 1] p 0 0 = ([0; 1], [], 2, 0)) /\
  (forall garbage, find_best_split_raw garbage twins [0; 1] = garbage) /\
  (forall t, ~ build_subtree_returns twins [0; 1] t) /\
  (forall d,
     get_most_frequent d [] = (0, 0) /\
     reaches_threshold 0 (size_of []) = false /\
     find_best_split d [] = None /\
     (forall fuel t, build_subtree fuel d [] <> Done t) /\
     (forall t, ~ build_subtree_returns d [] t)).
Proof.
  split; [|split; [|split]].
  - intros p Hp. rewrite split_data_eq.
    destruct (twins_groups p) as [-> ->]. reflexivity.
  - exact twins_garbage_returned.
  - exact twins_never_returns.
  - intros d. split; [reflexivity|]. split; [reflexivity|].
    split; [apply find_best_split_nil|]. split.
    + intros fuel t. apply build_subtree_nil_never.
    + apply empty_subset_never_returns.
Qed.

(** C5.  On a subset of at most [INT_MAX] examples with labels among 0..9,
    group A holds the indices whose intensity at the pixel is below 128 and
    group B the others, and [gini_impurity] returns the double
    [(impurityA * |A| + impurityB * |B|) / M], the impurity of a group being
    the running double sum of [x * (1 - x)] over the shares [x] of the ten
    labels.  When both groups are non-empty that double is a finite number
    that is not negative, and it is within [83 * 2^-53] of the size-weighted
    average of [1 - sum of (count_label / group_size)^2] over the two groups,
    taken in exact arithmetic.  When a group is empty the quotient
    [count_label / group_size] is 0/0 and the double returned is the
    not-a-number. *)
Theorem gini_impurity_weighted_average (d : Dataset) (indices : list Z) (pixel : Z) :
  (forall i, In i indices -> 0 <= label_of d i <= 9) ->
  size_of indices <= 2147483647 ->
  (forall i, In i (group_A d indices pixel) <->
             In i indices /\ intensity d i pixel < 128) /\
  (forall i, In i (group_B d indices pixel) <->
             In i indices /\ 128 <= intensity d i pixel) /\
  gini_impurity d indices pixel = weighted d indices pixel (group_impurity d) /\
  (group_A d indices pixel <> [] -> group_B d indices pixel <> [] ->
   exists Y, nonneg_double (gini_impurity d indices pixel) Y /\
             (Rabs (Y - exact_gini_impurity d indices pixel) <= 83 * bpow (-53))%R) /\
  (group_A d indices pixel = [] \/ group_B d indices pixel = [] ->
   gini_impurity d indices pixel = NAN).
Proof.
  intros Hwf Hsz.
  split; [intro; apply in_group_A|].
  split; [intro; apply in_group_B|].
  split; [now apply gini_impurity_groups|].
  split; [now apply gini_impurity_err|].
  apply gini_impurity_empty_group.
Qed.

Lemma mixed_size : size_of [0; 1; 2; 3] <= 2147483647.
Proof. vm_compute. discriminate. Qed.

Lemma gini_impurity_weighted_average_witness :
  exists Y, nonneg_double (gini_impurity mixed [0; 1; 2; 3] 0) Y /\
            (Rabs (Y - exact_gini_impurity mixed [0; 1; 2; 3]%Z 0%Z) <= 83 * bpow (-53))%R.
Proof.
  destruct (gini_impurity_weighted_average mixed [0; 1; 2; 3] 0 mixed_labels mixed_size)
    as (_ & _ & _ & H & _).
  apply H; vm_compute; discriminate.
Defined.

(** C6.  On a subset of at most [INT_MAX] examples with labels among 0..9,
    the result of [gini_impurity] is the not-a-number exactly when one of
    the two groups is empty, and otherwise a double whose value lies between
    0 and 1.  The not-a-number comes out of the arithmetic: for a group
    without examples every summand is built on the quotient 0/0. *)
Theorem gini_impurity_range (d : Dataset) (indices : list Z) (pixel : Z) :
  (forall i, In i indices -> 0 <= label_of d i <= 9) ->
  size_of indices <= 2147483647 ->
  (is_nan (gini_impurity d indices pixel) = true <->
   group_A d indices pixel = [] \/ group_B d indices pixel = []) /\
  (group_A d indices pixel = [] \/ group_B d indices pixel = [] ->
   gini_impurity d indices pixel = NAN) /\
  (group_A d indices pixel <> [] -> group_B d indices pixel <> [] ->
   exists Y, nonneg_double (gini_impurity d indices pixel) Y /\ (0 <= Y <= 1)%R) /\
  (forall i, gini_term zeros10 0 i = NAN) /\
  PrimFloat.div (double_of_int 0) (double_of_int 0) = NAN.
Proof.
  intros Hwf Hsz.
  assert (Hval : group_A d indices pixel <> [] -> group_B d indices pixel <> [] ->
                 exists Y, nonneg_double (gini_impurity d indices pixel) Y /\
                           (0 <= Y <= 1)%R).
  { intros HA HB.
    destruct (gini_impurity_value d indices pixel Hwf Hsz HA HB) as (Y & VY & HY).
    exists Y. split; [exact VY|]. split; [exact (has_value_nonneg _ _ _ VY)|exact HY]. }
  split; [|split; [apply gini_impurity_empty_group|split; [exact Hval|split]]].
  - split.
    + intros Hnan.
      destruct (group_A d indices pixel) as [|a As] eqn:EA; [now left|].
      destruct (group_B d indices pixel) as [|b Bs] eqn:EB; [now right|].
      exfalso.
      destruct Hval as (Y & VY & _); try (rewrite ?EA, ?EB; discriminate).
      rewrite (nonneg_double_not_nan _ _ VY) in Hnan. discriminate.
    + intros H. rewrite (gini_impurity_empty_group d indices pixel H). reflexivity.
  - intros i. apply gini_term_empty. apply nth_zeros10.
  - reflexivity.
Qed.

Lemma gini_impurity_range_witness :
  exists Y, nonneg_double (gini_impurity mixed [0; 1; 2; 3] 0) Y /\ (0 <= Y <= 1)%R.
Proof.
  destruct (gini_impurity_range mixed [0; 1; 2; 3] 0 mixed_labels mixed_size)
    as (_ & _ & H & _).
  apply H; vm_compute; discriminate.
Defined.
(** * Further properties of the functions *)

Lemma lexlt_total a b : lexlt a b \/ a = b \/ lexlt b a.
Proof.
  destruct a as [[a1 a2] a3], b as [[b1 b2] b3]. unfold lexlt. cbn [fst snd].
  destruct (Z.lt_trichotomy a1 b1) as [|[->|]]; auto.
  destruct (Z.lt_trichotomy a2 b2) as [|[->|]]; auto 6.
  destruct (Z.lt_trichotomy a3 b3) as [|[->|]]; auto 8.
Qed.

Lemma well_formed_labels d :
  well_formed d -> forall i, In i (all_indices d) -> 0 <= label_of d i <= 9.
Proof.
  intros (Hn & _ & Hl & _ & Hr) i Hi. apply all_indices_in in Hi.
  apply Hr. unfold label_of. apply nth_In. lia.
Qed.

Lemma well_formed_size d : well_formed d -> size_of (all_indices d) <= 2147483647.
Proof. intros (Hn & _). rewrite all_indices_size; lia. Qed.

Lemma all_indices_length d : length (all_indices d) = Z.to_nat (num_items d).
Proof. unfold all_indices. rewrite length_map, length_seq. reflexivity. Qed.

Lemma all_indices_nil d : num_items d <= 0 -> all_indices d = [].
Proof.
  intros H. unfold all_indices. replace (Z.to_nat (num_items d)) with 0%nat by lia.
  reflexivity.
Qed.

(** Intensities of a dataset whose bytes are all 0 or at least 128. *)
Lemma binarized_of_data d indices :
  (forall img, In img (images d) -> forall v, In v (data img) -> v = 0 \/ 128 <= v) ->
  binarized d indices.
Proof.
  intros H i p _ _. unfold intensity.
  destruct (nth_in_or_default (Z.to_nat i) (images d) no_image) as [Hin|Hin];
    [|rewrite Hin].
  - destruct (nth_in_or_default (Z.to_nat p)
                (data (nth (Z.to_nat i) (images d) no_image)) 0) as [Hv|Hv];
      [|rewrite Hv; auto].
    exact (H _ Hin _ Hv).
  - cbn [data no_image]. destruct (Z.to_nat p); auto.
Qed.

Lemma quad_well_formed : well_formed quad.
Proof.
  split; [cbn; lia|]. split; [reflexivity|]. split; [reflexivity|]. split.
  - intros img Himg.
    assert (Hb : forallb (fun v => (0 <=? v) && (v <=? 255)) (data img) = true).
    { cbn [quad images In] in Himg.
      destruct Himg as [<-|[<-|[<-|[<-|[]]]]]; vm_compute; reflexivity. }
    split; [|split; [|split]].
    1-3: cbn [quad images In] in Himg;
         destruct Himg as [<-|[<-|[<-|[<-|[]]]]]; vm_compute; reflexivity.
    intros v Hv. rewrite forallb_forall in Hb. specialize (Hb v Hv). lia.
  - intros l Hl. cbn [quad labels In] in Hl. lia.
Qed.

Lemma quad_binarized : binarized quad (all_indices quad).
Proof.
  apply binarized_of_data. intros img Himg v Hv.
  assert (Hb : forallb (fun v => (v =? 0) || (128 <=? v)) (data img) = true).
  { cbn [quad images In] in Himg.
    destruct Himg as [<-|[<-|[<-|[<-|[]]]]]; vm_compute; reflexivity. }
  rewrite forallb_forall in Hb. specialize (Hb v Hv). lia.
Qed.

Lemma quad_separable : separable quad (all_indices quad).
Proof.
  intros i j Hi Hj Hl. exists 0. split; [lia|].
  change (all_indices quad) with [0; 1; 2; 3] in Hi, Hj.
  cbn [In] in Hi, Hj.
  destruct Hi as [<-|[<-|[<-|[<-|[]]]]]; destruct Hj as [<-|[<-|[<-|[<-|[]]]]];
    try (exfalso; apply Hl; reflexivity); vm_compute; discriminate.
Qed.

(** X1. The impurity is the not-a-number exactly when a group is empty, and a
    double of the interval from 0 to 1 otherwise. *)
Theorem gini_impurity_nan_or_unit (d : Dataset) (indices : list Z) (pixel : Z) :
  (forall i, In i indices -> 0 <= label_of d i <= 9) ->
  size_of indices <= 2147483647 ->
  (group_A d indices pixel = [] \/ group_B d indices pixel = [] ->
   gini_impurity d indices pixel = NAN) /\
  (group_A d indices pixel <> [] -> group_B d indices pixel <> [] ->
   is_nan (gini_impurity d indices pixel) = false /\
   PrimFloat.leb 0 (gini_impurity d indices pixel) = true /\
   PrimFloat.leb (gini_impurity d indices pixel) 1 = true).
Proof.
  intros Hwf Hsz. split.
  - apply gini_impurity_empty_group.
  - intros HA HB.
    destruct (gini_impurity_value d indices pixel Hwf Hsz HA HB) as (Y & VY & HY).
    split; [exact (nonneg_double_not_nan _ _ VY)|]. split.
    + apply (leb_value _ _ _ _ zero_value VY). exact (has_value_nonneg _ _ _ VY).
    + apply (leb_value _ _ _ _ VY one_value). exact HY.
Qed.

Lemma gini_impurity_nan_or_unit_witness :
  is_nan (gini_impurity mixed [0; 1; 2; 3] 0) = false /\
  PrimFloat.leb 0 (gini_impurity mixed [0; 1; 2; 3] 0) = true /\
  PrimFloat.leb (gini_impurity mixed [0; 1; 2; 3] 0) 1 = true.
Proof.
  apply (gini_impurity_nan_or_unit mixed [0; 1; 2; 3] 0 mixed_labels);
    vm_compute; discriminate.
Defined.

(** X2. A call of [build_subtree] makes a leaf exactly when the count of the
    most frequent label is at least 19/20 of the size of the subset; on
    fewer than 20 examples, exactly when they all carry that label. *)
Theorem leaf_exactly_at_19_20 (d : Dataset) (indices : list Z) (fuel : nat) :
  indices <> [] -> size_of indices <= 2147483647 ->
  (build_subtree (S fuel) d indices
   = Done (mkDTNode (-1) (fst (get_most_frequent d indices)) None None)
   <-> 19 * size_of indices <= 20 * snd (get_most_frequent d indices)) /\
  (size_of indices < 20 ->
   (build_subtree (S fuel) d indices
    = Done (mkDTNode (-1) (fst (get_most_frequent d indices)) None None)
    <-> snd (get_most_frequent d indices) = size_of indices)).
Proof.
  intros Hne Hsz.
  pose proof (most_frequent_bounds d indices) as Hb.
  pose proof (size_of_pos indices Hne) as Hp.
  pose proof (reaches_threshold_exact _ _ Hb ltac:(lia)) as Hex.
  assert (Hleaf : build_subtree (S fuel) d indices
                  = Done (mkDTNode (-1) (fst (get_most_frequent d indices)) None None)
                  <-> reaches_threshold (snd (get_most_frequent d indices))
                        (size_of indices) = true).
  { rewrite build_subtree_unfold.
    destruct (reaches_threshold _ _); [split; reflexivity|].
    split; [|discriminate].
    destruct (find_best_split d indices) as [p|]; [|discriminate].
    destruct (build_subtree fuel d (group_A d indices p)); try discriminate.
    destruct (build_subtree fuel d (group_B d indices p)); discriminate. }
  split.
  - rewrite Hleaf. exact Hex.
  - intros Hsmall. rewrite Hleaf, Hex. lia.
Qed.

Lemma leaf_exactly_at_19_20_witness :
  build_subtree 1 quad [0; 1]
  = Done (mkDTNode (-1) (fst (get_most_frequent quad [0; 1])) None None).
Proof.
  assert (Hne : [0; 1] <> ([] : list Z)) by discriminate.
  assert (Hsz : size_of [0; 1] <= 2147483647) by (vm_compute; discriminate).
  destruct (leaf_exactly_at_19_20 quad [0; 1] 0 Hne Hsz) as [[_ H] _].
  apply H. vm_compute. discriminate.
Defined.

(** X3. A pixel returned by [find_best_split] is one of the 784 pixels; its
    impurity is defined; no pixel has a smaller one, and every pixel before
    it has a larger one or none. *)
Theorem find_best_split_minimal (d : Dataset) (indices : list Z) (p : Z) :
  find_best_split d indices = Some p ->
  0 <= p < 784 /\
  is_nan (gini_impurity d indices p) = false /\
  (forall q, 0 <= q < 784 ->
     is_nan (gini_impurity d indices q) = true \/
     PrimFloat.leb (gini_impurity d indices p) (gini_impurity d indices q) = true) /\
  (forall q, 0 <= q < p ->
     is_nan (gini_impurity d indices q) = true \/
     PrimFloat.ltb (gini_impurity d indices p) (gini_impurity d indices q) = true).
Proof.
  intros H. destruct (find_best_split_some _ _ _ H) as (k & -> & Hk & Hn & Hmin & Hfirst).
  unfold impurity_at in *. split; [lia|]. split; [exact Hn|]. split.
  - intros q Hq. destruct (is_nan (gini_impurity d indices q)) eqn:Eq; auto. right.
    specialize (Hmin (Z.to_nat q) ltac:(lia)). rewrite Z2Nat.id in Hmin by lia.
    apply leb_key. repeat split; auto. intros L.
    assert (PrimFloat.ltb (gini_impurity d indices q)
                          (gini_impurity d indices (Z.of_nat k)) = true)
      by (apply ltb_key; auto).
    congruence.
  - intros q Hq. destruct (is_nan (gini_impurity d indices q)) eqn:Eq; auto. right.
    pose proof (Hmin (Z.to_nat q) ltac:(lia)) as M.
    pose proof (Hfirst (Z.to_nat q) ltac:(lia)) as F.
    rewrite Z2Nat.id in M, F by lia.
    apply ltb_key. repeat split; auto.
    destruct (lexlt_total (fkey (gini_impurity d indices (Z.of_nat k)))
                          (fkey (gini_impurity d indices q))) as [L|[E|L]]; auto.
    + assert (PrimFloat.eqb (gini_impurity d indices q)
                            (gini_impurity d indices (Z.of_nat k)) = true)
        by (apply eqb_key; auto).
      congruence.
    + assert (PrimFloat.ltb (gini_impurity d indices q)
                            (gini_impurity d indices (Z.of_nat k)) = true)
        by (apply ltb_key; auto).
      congruence.
Qed.

Lemma find_best_split_minimal_witness :
  0 <= 0 < 784 /\ is_nan (gini_impurity quad [0; 1; 2; 3] 0) = false.
Proof.
  destruct (find_best_split_minimal quad [0; 1; 2; 3] 0 find_best_split_quad)
    as (H1 & H2 & _).
  split; assumption.
Defined.

(** X4. [find_best_split] has a result exactly when some pixel leaves no side
    of the partition empty. *)
Theorem find_best_split_defined_iff (d : Dataset) (indices : list Z) :
  (forall i, In i indices -> 0 <= label_of d i <= 9) ->
  size_of indices <= 2147483647 ->
  ((exists p, find_best_split d indices = Some p) <->
   (exists q, 0 <= q < 784 /\
              group_A d indices q <> [] /\ group_B d indices q <> [])).
Proof.
  intros Hwf Hsz. split.
  - intros (p & Hp). exists p. split; [exact (find_best_split_range _ _ _ Hp)|].
    exact (find_best_split_separates _ _ _ Hp).
  - intros (q & Hq & HA & HB).
    destruct (find_best_split d indices) as [p|] eqn:E; [eauto|].
    rewrite find_best_split_none_iff in E by assumption.
    destruct (E q Hq); contradiction.
Qed.

Lemma find_best_split_defined_iff_witness :
  exists p, find_best_split quad [0; 1; 2; 3] = Some p.
Proof.
  apply (find_best_split_defined_iff quad [0; 1; 2; 3] quad_labels);
    [vm_compute; discriminate|].
  exists 0. split; [lia|]. split; vm_compute; discriminate.
Defined.

(** X5. On a well-formed dataset of at least one example in which any two
    examples with different labels can be told apart by some pixel,
    [build_dec_tree] returns a tree, within a recursion depth of the number
    of examples. *)
Theorem build_dec_tree_returns (d : Dataset) (fuel : nat) :
  well_formed d -> 1 <= num_items d -> separable d (all_indices d) ->
  (Z.to_nat (num_items d) <= fuel)%nat ->
  exists t, build_dec_tree fuel d = Done t.
Proof.
  intros Hwf Hn Hsep Hfuel. unfold build_dec_tree.
  apply build_subtree_terminates.
  - rewrite all_indices_length. exact Hfuel.
  - intros E. pose proof (all_indices_length d) as L. rewrite E in L. cbn in L. lia.
  - exact (well_formed_labels d Hwf).
  - exact (well_formed_size d Hwf).
  - exact Hsep.
Qed.

Lemma build_dec_tree_returns_witness : exists t, build_dec_tree 4 quad = Done t.
Proof.
  apply (build_dec_tree_returns quad 4 quad_well_formed); [cbn; lia| |cbn; lia].
  exact quad_separable.
Defined.

(** X6. A non-empty subset whose examples all carry the same label is made a
    single leaf with that label. *)
Theorem pure_subset_is_leaf (d : Dataset) (indices : list Z) (l : Z) (fuel : nat) :
  indices <> [] -> size_of indices <= 2147483647 -> 0 <= l <= 9 ->
  (forall i, In i indices -> label_of d i = l) ->
  build_subtree (S fuel) d indices = Done (mkDTNode (-1) l None None).
Proof.
  intros Hne Hsz Hl Hall. rewrite build_subtree_unfold.
  rewrite (most_frequent_pure d indices l Hne Hl Hall). cbn [fst snd].
  rewrite reaches_threshold_full; [reflexivity|].
  pose proof (size_of_pos indices Hne). lia.
Qed.

Lemma pure_subset_is_leaf_witness :
  build_subtree 1 quad [2; 3] = Done (mkDTNode (-1) 1 None None).
Proof.
  apply (pure_subset_is_leaf quad [2; 3] 1 0); [discriminate|cbn; lia|lia|].
  intros i Hi. cbn [In] in Hi. destruct Hi as [<-|[<-|[]]]; reflexivity.
Defined.

(** X7. When [main] is run with the training set as test set, on a
    well-formed dataset of at least one example whose bytes are all 0 or at
    least 128 and in which any two examples with different labels lie on
    different sides of 128 at some pixel, it prints a number, and that number
    is at least 19/20 of the number of examples. *)
Theorem training_accuracy (d : Dataset) (fuel : nat) :
  well_formed d -> 1 <= num_items d ->
  binarized d (all_indices d) -> separable d (all_indices d) ->
  (Z.to_nat (num_items d) <= fuel)%nat ->
  exists total, main_total fuel d d = Done total /\
                19 * num_items d <= 20 * total /\ total <= num_items d.
Proof.
  intros Hwf Hn Hbin Hsep Hfuel.
  pose proof (well_formed_labels d Hwf) as Hl.
  pose proof (well_formed_size d Hwf) as Hs.
  destruct (build_subtree_terminates d fuel (all_indices d)) as (root & Eb); auto.
  - rewrite all_indices_length. exact Hfuel.
  - intros E. pose proof (all_indices_length d) as L. rewrite E in L. cbn in L. lia.
  - exists (hits d root (all_indices d)).
    unfold main_total, build_dec_tree. rewrite Eb.
    rewrite (count_correct_hits root d).
    2:{ intros img. destruct (classify_built d img _ _ _ Eb) as (c & Hc & _). eauto. }
    split; [reflexivity|].
    pose proof (accuracy_built d fuel (all_indices d) root) as A.
    pose proof (hits_bounds d root (all_indices d)) as B.
    rewrite all_indices_size in A, B by lia.
    split; [|lia]. apply A; auto.
    + intros i Hi. apply Hl in Hi. lia.
    + destruct Hwf as (Hb & _). lia.
Qed.

Lemma training_accuracy_witness :
  exists total, main_total 4 quad quad = Done total /\
                19 * num_items quad <= 20 * total /\ total <= num_items quad.
Proof.
  apply (training_accuracy quad 4 quad_well_formed); [cbn; lia| | |cbn; lia].
  - exact quad_binarized.
  - exact quad_separable.
Defined.

(** X8. Once the tree is built, [main] prints a number: the number of test
    examples whose predicted label is their label, which lies between 0 and
    the number of test examples. *)
Theorem main_total_counts (training testing : Dataset) (fuel : nat) (root : DTNode) :
  build_dec_tree fuel training = Done root ->
  main_total fuel training testing
  = Done (hits testing root (all_indices testing)) /\
  0 <= hits testing root (all_indices testing) <= Z.max 0 (num_items testing).
Proof.
  intros Eb. unfold main_total. rewrite Eb.
  rewrite (count_correct_hits root testing).
  2:{ intros img. unfold build_dec_tree in Eb.
      destruct (classify_built training img _ _ _ Eb) as (c & Hc & _). eauto. }
  split; [reflexivity|].
  pose proof (hits_bounds testing root (all_indices testing)) as B.
  unfold size_of in B. rewrite all_indices_length in B. lia.
Qed.

Lemma main_total_counts_witness :
  main_total 4 quad mixed
  = Done (hits mixed (mkDTNode 0 (-1) (Some (mkDTNode (-1) 0 None None))
                                      (Some (mkDTNode (-1) 1 None None)))
               (all_indices mixed)).
Proof.
  apply (main_total_counts quad mixed 4). vm_compute. reflexivity.
Defined.

(** X9. A tree built from a well-formed dataset gives every image a label: a
    digit that some training example carries. *)
Theorem classification_is_training_label (d : Dataset) (fuel : nat) (t : DTNode)
        (img : Image) :
  well_formed d -> build_dec_tree fuel d = Done t ->
  exists c i, dec_tree_classify t img = Some c /\ 0 <= c <= 9 /\
              0 <= i < num_items d /\ label_of d i = c.
Proof.
  intros Hwf Eb. unfold build_dec_tree in Eb.
  destruct (classify_built d img _ _ _ Eb) as (c & Hc & Hr).
  destruct (classify_label_seen d img fuel (all_indices d) t c) as (i & Hi & Hl); auto.
  - intros i Hi. apply (well_formed_labels d Hwf) in Hi. lia.
  - exact (well_formed_size d Hwf).
  - exists c, i. apply all_indices_in in Hi. auto.
Qed.

Lemma classification_is_training_label_witness :
  exists c i, dec_tree_classify
                (mkDTNode 0 (-1) (Some (mkDTNode (-1) 0 None None))
                                 (Some (mkDTNode (-1) 1 None None))) blank = Some c /\
              0 <= c <= 9 /\ 0 <= i < num_items quad /\ label_of quad i = c.
Proof.
  apply (classification_is_training_label quad 4 _ blank quad_well_formed).
  vm_compute. reflexivity.
Defined.

(** X10. [free_dec_tree] on a tree built by [build_subtree] follows no [NULL]
    child and releases every node once; such a tree has at most [2M - 1]
    nodes for a subset of [M] examples. *)
Theorem free_dec_tree_built (d : Dataset) (fuel : nat) (indices : list Z) (t : DTNode) :
  build_subtree fuel d indices = Done t ->
  free_dec_tree t = Some (length (nodes t)) /\
  (length (nodes t) + 1 <= 2 * length indices)%nat.
Proof.
  intros H. split; [exact (free_built d _ _ _ H)|exact (nodes_built d _ _ _ H)].
Qed.

Lemma free_dec_tree_built_witness :
  free_dec_tree (mkDTNode 0 (-1) (Some (mkDTNode (-1) 0 None None))
                                 (Some (mkDTNode (-1) 1 None None)))
  = Some 3%nat.
Proof.
  apply (free_dec_tree_built quad 4 [0; 1; 2; 3]). vm_compute. reflexivity.
Defined.

(** X11. The count returned by [get_most_frequent] is at most the size of the
    subset and at least a tenth of it. *)
Theorem most_frequent_count (d : Dataset) (indices : list Z) :
  (forall i, In i indices -> 0 <= label_of d i <= 9) ->
  0 <= fst (get_most_frequent d indices) <= 9 /\
  snd (get_most_frequent d indices) <= size_of indices /\
  size_of indices <= 10 * snd (get_most_frequent d indices).
Proof.
  intros Hwf. split; [|split].
  - apply most_frequent_facts. intros i Hi. apply Hwf in Hi. lia.
  - apply most_frequent_bounds.
  - apply most_frequent_tenth. exact Hwf.
Qed.

Lemma most_frequent_count_witness :
  0 <= fst (get_most_frequent quad [0; 1; 2; 3]) <= 9 /\
  snd (get_most_frequent quad [0; 1; 2; 3]) <= size_of [0; 1; 2; 3] /\
  size_of [0; 1; 2; 3] <= 10 * snd (get_most_frequent quad [0; 1; 2; 3]).
Proof. apply (most_frequent_count quad [0; 1; 2; 3] quad_labels). Defined.

(** X12. On a dataset without examples [build_dec_tree] returns no tree, and
    [main] prints no number. *)
Theorem empty_dataset_no_tree (d testing : Dataset) (fuel : nat) :
  num_items d <= 0 ->
  (forall t, build_dec_tree fuel d <> Done t) /\
  (forall total, main_total fuel d testing <> Done total).
Proof.
  intros Hn.
  assert (H : forall t, build_dec_tree fuel d <> Done t).
  { intros t. unfold build_dec_tree. rewrite (all_indices_nil d Hn).
    apply build_subtree_nil_never. }
  split; [exact H|]. intros total. unfold main_total.
  destruct (build_dec_tree fuel d) as [t| |]; try discriminate.
  exfalso. exact (H t eq_refl).
Qed.

Lemma empty_dataset_no_tree_witness :
  build_dec_tree 1 (mkDataset 0 [] []) <> Done (mkDTNode (-1) 0 None None).
Proof.
  apply (empty_dataset_no_tree (mkDataset 0 [] []) quad 1). cbn. lia.
Defined.

(** X13. [load_dataset] reads back a well-formed dataset from its encoding in
    the file format, whatever follows it in the file. *)
Theorem load_dataset_round_trip (d : Dataset) (trailing : list Z) :
  well_formed d ->
  load_dataset (Some (encode_dataset d ++ trailing)) = Some d.
Proof. exact (load_encode d trailing). Qed.

Lemma load_dataset_round_trip_witness :
  load_dataset (Some (encode_dataset quad ++ [7])) = Some quad.
Proof. apply (load_dataset_round_trip quad [7] quad_well_formed). Defined.

(** X14. A dataset returned by [load_dataset] comes from a file that holds a
    header of four bytes and then every record in full: it has as many
    images and labels as the header says, each image 28 by 28 with 784
    bytes, and the file is the header followed by the encoding of the
    records. *)
Theorem load_dataset_shape (file : option (list Z)) (d : Dataset) :
  load_dataset file = Some d ->
  exists header rest,
    file = Some (header ++ encode_items (images d) (labels d) ++ rest) /\
    length header = 4%nat /\
    num_items d = int_of_bytes header /\
    length (images d) = Z.to_nat (num_items d) /\
    length (labels d) = Z.to_nat (num_items d) /\
    (forall img, In img (images d) ->
       sx img = 28 /\ sy img = 28 /\ length (data img) = 784%nat).
Proof.
  intros H. unfold load_dataset in H.
  destruct file as [bytes|]; [|discriminate].
  destruct (fread 4 bytes) as [[header rest0]|] eqn:Eh; [|discriminate].
  destruct (load_items _ rest0) as [[imgs lbls]|] eqn:El; [|discriminate].
  injection H as <-. cbn [num_items images labels].
  destruct (fread_length _ _ _ _ Eh) as (Lh & ->).
  destruct (load_items_shape _ _ _ _ El) as (Li & Ll & _ & Hs & rest & ->).
  exists header, rest. repeat split; auto; apply Hs; assumption.
Qed.

Lemma load_dataset_shape_witness :
  exists header rest,
    Some (encode_dataset quad)
    = Some (header ++ encode_items (images quad) (labels quad) ++ rest) /\
    length header = 4%nat /\
    num_items quad = int_of_bytes header /\
    length (images quad) = Z.to_nat (num_items quad) /\
    length (labels quad) = Z.to_nat (num_items quad) /\
    (forall img, In img (images quad) ->
       sx img = 28 /\ sy img = 28 /\ length (data img) = 784%nat).
Proof.
  apply (load_dataset_shape (Some (encode_dataset quad)) quad).
  rewrite <- (app_nil_r (encode_dataset quad)).
  exact (load_encode quad [] quad_well_formed).
Defined.

(** X15. A file that cannot be opened, or that ends before the header or before
    the last record is complete, gives no dataset. *)
Theorem load_dataset_truncated (bytes : list Z) :
  load_dataset None = None /\
  ((length bytes < 4)%nat -> load_dataset (Some bytes) = None) /\
  ((4 <= length bytes)%nat ->
   (length bytes < 4 + 785 * Z.to_nat (int_of_bytes (firstn 4 bytes)))%nat ->
   load_dataset (Some bytes) = None).
Proof.
  split; [reflexivity|]. split.
  - intros H. unfold load_dataset, fread.
    destruct (Nat.leb_spec 4 (length bytes)); [lia|reflexivity].
  - intros H4 H. destruct (load_dataset (Some bytes)) as [d|] eqn:E; [|reflexivity].
    exfalso. unfold load_dataset in E.
    destruct (fread 4 bytes) as [[header rest0]|] eqn:Eh; [|discriminate].
    destruct (load_items _ rest0) as [[imgs lbls]|] eqn:El; [|discriminate].
    destruct (fread_length _ _ _ _ Eh) as (Lh & Hb).
    destruct (load_items_shape _ _ _ _ El) as (_ & _ & Hlen & _).
    assert (Hf : firstn 4 bytes = header).
    { unfold fread in Eh. destruct (4 <=? length bytes)%nat; [|discriminate].
      injection Eh as <- _. reflexivity. }
    rewrite Hf in H. rewrite Hb, length_app in H. lia.
Qed.

Lemma load_dataset_truncated_witness : load_dataset (Some [1; 0; 0; 0; 5]) = None.
Proof.
  destruct (load_dataset_truncated [1; 0; 0; 0; 5]) as (_ & _ & H).
  apply H; cbn; lia.
Defined.

(** X16. Whenever [find_best_split] assigns [best_split], both sides of the
    partition of [split_data] at the pixel returned are non-empty and
    strictly smaller than the subset. *)
Theorem chosen_pixel_separates (d : Dataset) (indices : list Z) (pixel : Z) :
  find_best_split d indices = Some pixel ->
  exists subsets0 subsets1 left_size right_size,
    split_data d indices pixel 0 0 = (subsets0, subsets1, left_size, right_size) /\
    subsets0 <> [] /\ subsets1 <> [] /\
    left_size = size_of subsets0 /\ right_size = size_of subsets1 /\
    0 < left_size < size_of indices /\ 0 < right_size < size_of indices.
Proof.
  intros H. rewrite split_data_eq.
  destruct (find_best_split_separates _ _ _ H) as [HA HB].
  destruct (groups_shorter _ _ _ HA HB) as [LA LB].
  exists (group_A d indices pixel), (group_B d indices pixel),
         (0 + size_of (group_A d indices pixel)), (0 + size_of (group_B d indices pixel)).
  pose proof (size_of_pos _ HA). pose proof (size_of_pos _ HB).
  unfold size_of in *. repeat split; auto; lia.
Qed.

Lemma chosen_pixel_separates_witness :
  exists subsets0 subsets1 left_size right_size,
    split_data quad [0; 1; 2; 3] 0 0 0 = (subsets0, subsets1, left_size, right_size) /\
    subsets0 <> [] /\ subsets1 <> [] /\
    left_size = size_of subsets0 /\ right_size = size_of subsets1 /\
    0 < left_size < size_of [0; 1; 2; 3] /\ 0 < right_size < size_of [0; 1; 2; 3].
Proof. exact (chosen_pixel_separates quad [0; 1; 2; 3] 0 find_best_split_quad). Defined.
